(** * MEV redistribution simulator: embedding and verified properties

    The simulator (mevDistributionSimulator.py) is a numeric program over
    IEEE-754 binary64 numbers.  Its arithmetic is embedded once, against a
    small interface of scalar operations, and read in two ways:

    - [binary64]: Rocq's primitive floats, bit-for-bit what numpy and the
      Python interpreter compute;
    - [exact]: the real numbers, the arithmetic that statements made
      "within floating-point tolerance" refer to.

    Random draws (stakes, MEV values, proposers) are inputs of the model. *)

From Stdlib Require Import ZArith List Bool Lia Lra Reals Floats Uint63.
From Stdlib Require Import Permutation Sorted.
Import ListNotations.

Set Warnings "-inexact-float".

(** ** The scalar interface *)

Class Scalar (T : Type) := {
  s_zero : T;
  s_add : T -> T -> T;
  s_sub : T -> T -> T;
  s_mul : T -> T -> T;
  s_div : T -> T -> T;
  s_sqrt : T -> T;
  s_ltb : T -> T -> bool;
  s_leb : T -> T -> bool;
  s_eqb : T -> T -> bool;
  s_of_Z : Z -> T;
  s_1e_9 : T
}.

Declare Scope scalar_scope.
Delimit Scope scalar_scope with sc.
Infix "+" := s_add : scalar_scope.
Infix "-" := s_sub : scalar_scope.
Infix "*" := s_mul : scalar_scope.
Infix "/" := s_div : scalar_scope.
Infix "<?" := s_ltb : scalar_scope.
Infix "<=?" := s_leb : scalar_scope.
Infix "=?" := s_eqb : scalar_scope.

(** Conversion of a (signed 64-bit) integer to binary64, as numpy does when
    an int64 array meets a float. *)
Definition Z2F (z : Z) : float :=
  match z with
  | Z0 => PrimFloat.zero
  | Zpos _ => PrimFloat.of_uint63 (Uint63.of_Z z)
  | Zneg p => PrimFloat.opp (PrimFloat.of_uint63 (Uint63.of_Z (Zpos p)))
  end.

#[export] Instance binary64 : Scalar float := {|
  s_zero := PrimFloat.zero;
  s_add := PrimFloat.add;
  s_sub := PrimFloat.sub;
  s_mul := PrimFloat.mul;
  s_div := PrimFloat.div;
  s_sqrt := PrimFloat.sqrt;
  s_ltb := PrimFloat.ltb;
  s_leb := PrimFloat.leb;
  s_eqb := PrimFloat.eqb;
  s_of_Z := Z2F;
  s_1e_9 := 1e-9%float
|}.

Definition Rltb (x y : R) : bool := if Rlt_dec x y then true else false.
Definition Rleb (x y : R) : bool := if Rle_dec x y then true else false.
Definition Reqb (x y : R) : bool := if Req_dec_T x y then true else false.

#[export] Instance exact : Scalar R := {|
  s_zero := 0%R;
  s_add := Rplus;
  s_sub := Rminus;
  s_mul := Rmult;
  s_div := Rdiv;
  s_sqrt := R_sqrt.sqrt;
  s_ltb := Rltb;
  s_leb := Rleb;
  s_eqb := Reqb;
  s_of_Z := IZR;
  s_1e_9 := (1 / 1000000000)%R
|}.

(** ** numpy array primitives on lists *)

Section Arrays.
Context {T : Type} `{Scalar T}.
Local Open Scope scalar_scope.

Definition is_nan (x : T) : bool := negb (x =? x).

(** [np.minimum]: the smaller argument, a NaN wins. *)
Definition minimum (x y : T) : T :=
  if (x <? y) || is_nan x then x else y.

(** [np.amin]; numpy raises ValueError on an empty array. *)
Fixpoint amin (arr : list T) : option T :=
  match arr with
  | [] => None
  | x :: rest =>
      match rest with
      | [] => Some x
      | _ => option_map (minimum x) (amin rest)
      end
  end.

(** The order [np.sort] uses: [<], with NaN after every number. *)
Definition sort_lt (a b : T) : bool :=
  (a <? b) || (is_nan b && negb (is_nan a)).

Fixpoint insert (x : T) (l : list T) : list T :=
  match l with
  | [] => [x]
  | y :: l' => if sort_lt y x then y :: insert x l' else x :: y :: l'
  end.

(** [np.sort], ascending. *)
Fixpoint sort (arr : list T) : list T :=
  match arr with
  | [] => []
  | x :: rest => insert x (sort rest)
  end.

(** [np.cumsum]: running totals, left to right. *)
Fixpoint cumsum_from (acc : T) (arr : list T) : list T :=
  match arr with
  | [] => []
  | x :: rest => (acc + x) :: cumsum_from (acc + x) rest
  end.

Definition cumsum (arr : list T) : list T :=
  match arr with
  | [] => []
  | x :: rest => x :: cumsum_from x rest
  end.

(** [np.sum] / [ndarray.sum]: the total, accumulated from 0, left to right.
    This is numpy's order for fewer than eight elements; longer arrays numpy
    adds pairwise, which changes the binary64 result in its last bits only
    and the exact result not at all. *)
Definition sum (arr : list T) : T := fold_left s_add arr s_zero.

(** ** The Gini coefficient (source lines 23-32) *)

(** The body of [gini] with the literal [1e-9] named [e]. *)
Definition gini_shift (e : T) (arr : list T) : option T :=
  match amin arr with
  | None => None
  | Some lo =>
      let arr1 := if lo <? s_zero then map (fun x => x - lo) arr else arr in
      let arr2 := map (fun x => x + e) arr1 in
      let arr_sorted := sort arr2 in
      let n := Z.of_nat (length arr2) in
      let cum := cumsum arr_sorted in
      Some ((s_of_Z (n + 1) - s_of_Z 2 * sum cum / last cum s_zero) / s_of_Z n)
  end.

Definition gini (arr : list T) : option T := gini_shift s_1e_9 arr.

(** ** The threshold (source line 48) *)

(** [np.mean]: the total divided by the count (NaN for no element). *)
Definition mean (arr : list T) : T :=
  sum arr / s_of_Z (Z.of_nat (length arr)).

(** [np.median]: the middle value of the sorted copy for an odd count, the
    mean of the two middle values for an even count; NaN if a NaN occurs. *)
Definition median (arr : list T) : T :=
  let n := length arr in
  let part := sort arr in
  if existsb is_nan arr then s_zero / s_zero
  else match n with
       | O => mean []
       | _ => if Nat.even n
              then mean [nth (n / 2 - 1) part s_zero; nth (n / 2) part s_zero]
              else mean [nth (n / 2) part s_zero]
       end.

(** How many blocks have a value at most [threshold]. *)
Definition count_le (threshold : T) (values : list T) : nat :=
  length (filter (fun v => v <=? threshold) values).

(** Python's builtin [max] of two values: the second only if larger. *)
Definition py_max (a b : T) : T := if a <? b then b else a.

(** In-place [arr[i] += x] (the index is checked by the caller). *)
Fixpoint add_at (arr : list T) (i : nat) (x : T) : list T :=
  match arr, i with
  | [], _ => []
  | a :: rest, O => (a + x) :: rest
  | a :: rest, S j => a :: add_at rest j x
  end.

(** Element-wise combination of two arrays of one length. *)
Fixpoint zip_with {A : Type} (f : T -> A -> T) (xs : list T) (ys : list A)
  : list T :=
  match xs, ys with
  | x :: xs', y :: ys' => f x y :: zip_with f xs' ys'
  | _, _ => []
  end.

End Arrays.

(** ** The simulation (source lines 35-103) *)

Inductive pooled := StakePool | EqualPool | RootStakePool.
Inductive scenario := Baseline | Pooled (p : pooled).

(** The exceptions the main loop can raise. *)
Inductive exn := ZeroDivisionError | ValueError.

Section Simulation.
Context {T : Type} `{Scalar T}.
Local Open Scope scalar_scope.

(** The [earnings] dictionary and the [pool_balances] dictionary. *)
Record state := {
  e_Baseline : list T;
  e_StakePool : list T;
  e_EqualPool : list T;
  e_RootStakePool : list T;
  p_StakePool : T;
  p_EqualPool : T;
  p_RootStakePool : T
}.

Definition earnings (s : state) (name : scenario) : list T :=
  match name with
  | Baseline => e_Baseline s
  | Pooled StakePool => e_StakePool s
  | Pooled EqualPool => e_EqualPool s
  | Pooled RootStakePool => e_RootStakePool s
  end.

Definition pool_balances (s : state) (name : pooled) : T :=
  match name with
  | StakePool => p_StakePool s
  | EqualPool => p_EqualPool s
  | RootStakePool => p_RootStakePool s
  end.

(** How an execution of the loop ends: normally, or by an exception, in
    which case the dictionaries are as the exception left them. *)
Inductive outcome :=
| Done (s : state)
| Raised (e : exn) (s : state).

Variable stakes : list Z.
Variable EPOCH_SIZE : Z.

Definition NUM_VALIDATORS : nat := length stakes.
Definition total_stake : Z := fold_left Z.add stakes 0%Z.
Definition root_weights : list T := map (fun k => s_sqrt (s_of_Z k)) stakes.
Definition total_root_weight : T := sum root_weights.

Definition initial : state := {|
  e_Baseline := repeat s_zero NUM_VALIDATORS;
  e_StakePool := repeat s_zero NUM_VALIDATORS;
  e_EqualPool := repeat s_zero NUM_VALIDATORS;
  e_RootStakePool := repeat s_zero NUM_VALIDATORS;
  p_StakePool := s_zero;
  p_EqualPool := s_zero;
  p_RootStakePool := s_zero
|}.

(** [RNG.choice(NUM_VALIDATORS, p=...)]: the drawn index, which lies below
    [NUM_VALIDATORS]; numpy raises ValueError when there is no validator. *)
Definition choice (draw : nat) : option nat :=
  if (draw <? NUM_VALIDATORS)%nat then Some draw else None.

Definition surplus_of (threshold mev : T) : T := py_max s_zero (mev - threshold).
Definition keep_of (threshold mev : T) : T := mev - surplus_of threshold mev.

(** Lines 77-89: the per-block accounting of the four scenarios. *)
Definition account (proposer : nat) (mev surplus keep : T) (s : state) : state := {|
  e_Baseline := add_at (e_Baseline s) proposer mev;
  e_StakePool := add_at (e_StakePool s) proposer keep;
  e_EqualPool := add_at (e_EqualPool s) proposer keep;
  e_RootStakePool := add_at (e_RootStakePool s) proposer keep;
  p_StakePool := p_StakePool s + surplus;
  p_EqualPool := p_EqualPool s + surplus;
  p_RootStakePool := p_RootStakePool s + surplus
|}.

(** Lines 93-103: the distribution of the three pools. *)
Definition distribute (s : state) : state := {|
  e_Baseline := e_Baseline s;
  e_StakePool :=
    zip_with (fun e k => e + s_of_Z k * (p_StakePool s / s_of_Z total_stake))
             (e_StakePool s) stakes;
  e_EqualPool :=
    map (fun e => e + p_EqualPool s / s_of_Z (Z.of_nat NUM_VALIDATORS))
        (e_EqualPool s);
  e_RootStakePool :=
    zip_with (fun e w => e + w * (p_RootStakePool s / total_root_weight))
             (e_RootStakePool s) root_weights;
  p_StakePool := s_zero;
  p_EqualPool := s_zero;
  p_RootStakePool := s_zero
|}.

(** One iteration of the main loop, for block [b] with its draw and value. *)
Definition step (threshold : T) (b : Z) (blk : nat * T) (s : state) : outcome :=
  match choice (fst blk) with
  | None => Raised ValueError s
  | Some proposer =>
      let mev := snd blk in
      let surplus := surplus_of threshold mev in
      let keep := keep_of threshold mev in
      let s1 := account proposer mev surplus keep s in
      if (EPOCH_SIZE =? 0)%Z then Raised ZeroDivisionError s1
      else if ((b + 1) mod EPOCH_SIZE =? 0)%Z then Done (distribute s1)
      else Done s1
  end.

Fixpoint main_loop (threshold : T) (b : Z) (blocks : list (nat * T)) (s : state)
  : outcome :=
  match blocks with
  | [] => Done s
  | blk :: rest =>
      match step threshold b blk s with
      | Done s' => main_loop threshold (b + 1) rest s'
      | Raised e s' => Raised e s'
      end
  end.

(** The whole run: the threshold is the median of the block values. *)
Definition threshold_of (blocks : list (nat * T)) : T := median (map snd blocks).

Definition run (blocks : list (nat * T)) : outcome :=
  main_loop (threshold_of blocks) 0 blocks initial.

(** Every ledger has one entry per validator. *)
Definition well_formed (s : state) : Prop :=
  forall name, length (earnings s name) = NUM_VALIDATORS.

(** The state after the per-block accounting of one block. *)
Definition accounted (threshold : T) (blk : nat * T) (s : state) : state :=
  account (fst blk) (snd blk) (surplus_of threshold (snd blk))
          (keep_of threshold (snd blk)) s.

(** The state one iteration ends in when nothing is raised. *)
Definition after_block (threshold : T) (b : Z) (blk : nat * T) (s : state) : state :=
  let s1 := accounted threshold blk s in
  if ((b + 1) mod EPOCH_SIZE =? 0)%Z then distribute s1 else s1.

End Simulation.

Arguments state T : clear implicits.
Arguments outcome T : clear implicits.
Arguments Done {T} s.
Arguments Raised {T} e s.

(** ** The report (source lines 105-128) *)

Section Report.
Context {T : Type} `{Scalar T}.
Local Open Scope scalar_scope.

(** [np.std]: the square root of the mean of the squared deviations from
    the mean (numpy squares a real deviation by multiplying it by itself). *)
Definition std (arr : list T) : T :=
  let arrmean := mean arr in
  let x := map (fun a => (a - arrmean) * (a - arrmean)) arr in
  s_sqrt (sum x / s_of_Z (Z.of_nat (length arr))).

(** One entry of [summary_rows]. *)
Record summary_row := {
  Scenario : scenario;
  Mean : T;
  Std_Dev : T;
  Gini : T
}.

(** The keys of the [earnings] dictionary, in insertion order. *)
Definition scenarios : list scenario :=
  [Baseline; Pooled StakePool; Pooled EqualPool; Pooled RootStakePool].

(** Lines 106-113: one row per scenario; [gini] raising ends the loop. *)
Fixpoint summary_loop (names : list scenario) (s : state T)
  : option (list summary_row) :=
  match names with
  | [] => Some []
  | name :: rest =>
      let arr := earnings s name in
      match gini arr with
      | None => None
      | Some g =>
          option_map
            (cons {| Scenario := name; Mean := mean arr;
                     Std_Dev := std arr; Gini := g |})
            (summary_loop rest s)
      end
  end.

Definition summary_rows (s : state T) : option (list summary_row) :=
  summary_loop scenarios s.

(** [np.argsort]: the indices that sort the array ascending, by insertion.
    Equal keys keep their order here; numpy's default kind promises none. *)
Fixpoint insert_index (arr : list T) (i : nat) (l : list nat) : list nat :=
  match l with
  | [] => [i]
  | j :: l' =>
      if sort_lt (nth j arr s_zero) (nth i arr s_zero)
      then j :: insert_index arr i l'
      else i :: j :: l'
  end.

Definition argsort (arr : list T) : list nat :=
  fold_right (insert_index arr) [] (seq 0 (length arr)).

(** [-arr]; written [0 - x], which orders as the negation does. *)
Definition negative (arr : list T) : list T := map (fun x => s_zero - x) arr.

(** [arr[idx]] for an index array. *)
Definition take (arr : list T) (idx : list nat) : list T :=
  map (fun i => nth i arr s_zero) idx.

(** Line 119: the five validators with the highest Baseline earnings. *)
Definition baseline_top (s : state T) : list nat :=
  firstn 5 (argsort (negative (e_Baseline s))).

(** The columns of [top_df]. *)
Record top_columns := {
  Validator : list nat;
  top_Baseline : list T;
  top_StakePool : list T;
  top_EqualPool : list T;
  top_RootStakePool : list T
}.

(** Lines 120-126: the earnings of those validators in every scenario. *)
Definition top_df (s : state T) : top_columns := {|
  Validator := baseline_top s;
  top_Baseline := take (e_Baseline s) (baseline_top s);
  top_StakePool := take (e_StakePool s) (baseline_top s);
  top_EqualPool := take (e_EqualPool s) (baseline_top s);
  top_RootStakePool := take (e_RootStakePool s) (baseline_top s)
|}.

End Report.

Arguments summary_row T : clear implicits.
Arguments top_columns T : clear implicits.

(** ** The whole program: setup, main loop, report *)

(** The settings of lines 35-39 that the program's behaviour depends on. *)
Module Config.
Record t := {
  NUM_VALIDATORS : Z;
  NUM_BLOCKS : Z;
  EPOCH_SIZE : Z;
  MEV_DIST_SIGMA : float
}.
End Config.

(** What the generator hands out: the i-th stake of line 43, the b-th block
    value of line 47 and the proposer drawn for block b at line 68. *)
Record draws {T : Type} := {
  stake_draw : nat -> Z;
  mev_draw : nat -> T;
  proposer_draw : nat -> nat
}.

Arguments draws T : clear implicits.

(** numpy's check of a parameter that must not be negative, as
    [RNG.lognormal] applies it to sigma: ValueError when the value is not
    NaN and its sign bit is set. *)
Definition sigma_rejected (val : float) : bool :=
  negb (PrimFloat.is_nan val) && PrimFloat.get_sign val.

(** Where the program stopped, and with what. *)
Inductive finish {T : Type} :=
| SetupError (e : exn)
| LoopError (e : exn) (s : state T)
| ReportError (e : exn) (s : state T)
| Finished (s : state T) (summary : list (summary_row T)) (top : top_columns T).

Arguments finish T : clear implicits.

Section Program.
Context {T : Type} `{Scalar T}.

(** Line 43: [RNG.integers(1, 100, size=NUM_VALIDATORS)]. *)
Definition drawn_stakes (cfg : Config.t) (d : draws T) : list Z :=
  map (stake_draw d) (seq 0 (Z.to_nat (Config.NUM_VALIDATORS cfg))).

(** Lines 47 and 68: the value of each block, with the proposer drawn for it. *)
Definition drawn_blocks (cfg : Config.t) (d : draws T) : list (nat * T) :=
  map (fun b => (proposer_draw d b, mev_draw d b))
      (seq 0 (Z.to_nat (Config.NUM_BLOCKS cfg))).

(** Lines 35-48.  The program checks nothing itself; numpy raises ValueError
    for a negative size at line 43, and for a negative sigma or a negative
    size at line 47. *)
Definition setup (cfg : Config.t) (d : draws T)
  : exn + (list Z * list (nat * T)) :=
  if (Config.NUM_VALIDATORS cfg <? 0)%Z then inl ValueError
  else if sigma_rejected (Config.MEV_DIST_SIGMA cfg) then inl ValueError
  else if (Config.NUM_BLOCKS cfg <? 0)%Z then inl ValueError
  else inr (drawn_stakes cfg d, drawn_blocks cfg d).

(** The script from top to bottom: setup, the main loop (lines 66-103), the
    summary (lines 106-113, where [gini] can raise) and the top five. *)
Definition program (cfg : Config.t) (d : draws T) : finish T :=
  match setup cfg d with
  | inl e => SetupError e
  | inr (stakes, blocks) =>
      match run stakes (Config.EPOCH_SIZE cfg) blocks with
      | Raised e s => LoopError e s
      | Done s =>
          match summary_rows s with
          | None => ReportError ValueError s
          | Some rows => Finished s rows (top_df s)
          end
      end
  end.

End Program.

(** * Vocabulary of the properties *)

(** ** Runs *)

(** What the stake draw guarantees: at least one validator, stakes from 1. *)
Definition stakes_drawn (stakes : list Z) : Prop :=
  stakes <> [] /\ Forall (fun k => (1 <= k)%Z) stakes.

(** The amounts a ledger gained between two states. *)
Definition increments (before after : list R) : list R :=
  zip_with Rminus after before.

(** The funds a pooled scenario holds: ledger total plus pool balance. *)
Definition holdings (s : state R) (p : pooled) : R :=
  (sum (earnings s (Pooled p)) + pool_balances s p)%R.

(** The surplus of the blocks after the last epoch boundary: those of the
    final, incomplete epoch. *)
Definition residual (EPOCH_SIZE : Z) (threshold : R) (blocks : list (nat * R)) : R :=
  let n := length blocks in
  sum (map (fun blk => surplus_of threshold (snd blk))
           (skipn (n - n mod Z.to_nat EPOCH_SIZE) blocks)).

(** The state an execution of the loop ends in, raised or not. *)
Definition final_state {T : Type} (o : outcome T) : state T :=
  match o with
  | Done s => s
  | Raised _ s => s
  end.

(** The three pools hold one and the same balance. *)
Definition pools_agree {T : Type} (s : state T) : Prop :=
  p_StakePool s = p_EqualPool s /\ p_EqualPool s = p_RootStakePool s.

(** The block values added up at their proposers, block after block. *)
Definition accumulated {T : Type} `{Scalar T} (blocks : list (nat * T))
           (ledger : list T) : list T :=
  fold_left (fun acc blk => add_at acc (fst blk) (snd blk)) blocks ledger.

(** ** The Gini coefficient *)

(** No ledger entry and no pool is negative. *)
Definition nowhere_negative (s : state R) : Prop :=
  (forall name, Forall (fun e => (0 <= e)%R) (earnings s name))
  /\ (forall p, (0 <= pool_balances s p)%R).

(** The sum of the running totals of [l], started from 0. *)
Definition ramp (l : list R) : R := sum (cumsum_from 0%R l).

(** The array [gini_shift] sorts: the input moved up to be non-negative,
    then raised by [e]. *)
Definition lifted (e : R) (arr : list R) (lo : R) : list R :=
  map (fun x => (x + e)%R)
      (if Rltb lo 0%R then map (fun x => (x - lo)%R) arr else arr).

(** The value [gini] sorts and sums for the array [[x]]. *)
Definition shifted_single (x : float) : float :=
  PrimFloat.add (if PrimFloat.ltb x 0 then PrimFloat.sub x x else x) 1e-9.

(** ** binary64 numbers *)

(** A mantissa and exponent in canonical form, within the range of the
    format (53 bits, exponents from -1074 to 971). *)
Definition canonical (m : positive) (e : Z) : Prop :=
  bounded prec emax m e = true.

(** The value of a mantissa and exponent, in units of 2^-1074. *)
Definition mag (m : positive) (e : Z) : Z := (Zpos m * 2 ^ (e + 1074))%Z.

(** The first magnitude beyond the format: 2^1024, in units of 2^-1074. *)
Definition overflow_mag : Z := (2 ^ 2098)%Z.

(** The integer the two aligned mantissas are combined to, at the smaller
    exponent. *)
Definition aligned (mx : positive) (ex : Z) (my : positive) (ey : Z) (sub : bool) : Z :=
  let ez := Z.min ex ey in
  if sub then (Zpos mx * 2 ^ (ex - ez) - Zpos my * 2 ^ (ey - ez))%Z
  else (Zpos mx * 2 ^ (ex - ez) + Zpos my * 2 ^ (ey - ez))%Z.

(** A positive number, not infinite (and not NaN). *)
Definition positive_finite (x : float) : Prop :=
  PrimFloat.ltb 0 x = true /\ PrimFloat.ltb x infinity = true.

(** [max(0.0, mev - threshold)] *)
Definition spec_surplus (mx : positive) (ex : Z) (mt : positive) (et : Z)
  : spec_float :=
  let d := SFsub prec emax (S754_finite false mx ex) (S754_finite false mt et) in
  if SFltb (S754_zero false) d then d else S754_zero false.

(** [mev - surplus] *)
Definition spec_keep (mx : positive) (ex : Z) (mt : positive) (et : Z)
  : spec_float :=
  SFsub prec emax (S754_finite false mx ex) (spec_surplus mx ex mt et).

(** * Lemmas *)

(** ** Exact arithmetic: basic facts *)

Section ExactFacts.
Local Open Scope R_scope.

Lemma Rltb_true (x y : R) : Rltb x y = true <-> x < y.
Proof. unfold Rltb. destruct (Rlt_dec x y); split; intros; try easy. Qed.

Lemma Rltb_false (x y : R) : Rltb x y = false <-> y <= x.
Proof.
  unfold Rltb. destruct (Rlt_dec x y); split; intros; try easy; lra.
Qed.

Lemma is_nan_exact (x : R) : is_nan x = false.
Proof.
  unfold is_nan. cbn. unfold Reqb. destruct (Req_dec_T x x); easy.
Qed.

Lemma sort_lt_exact (x y : R) : sort_lt x y = Rltb x y.
Proof.
  unfold sort_lt. rewrite !is_nan_exact. cbn. now rewrite orb_false_r.
Qed.

Lemma fold_sum_shift (l : list R) (a : R) :
  fold_left Rplus l a = a + fold_left Rplus l 0.
Proof.
  revert a. induction l as [|x l IH]; intros a; cbn.
  - lra.
  - rewrite IH. rewrite (IH (0 + x)). lra.
Qed.

Lemma sum_nil : sum (T:=R) [] = 0.
Proof. reflexivity. Qed.

Lemma sum_cons (x : R) (l : list R) : sum (x :: l) = x + sum l.
Proof.
  unfold sum. cbn. rewrite fold_sum_shift. lra.
Qed.

Lemma sum_app (l1 l2 : list R) : sum (l1 ++ l2) = sum l1 + sum l2.
Proof.
  induction l1 as [|x l1 IH]; cbn [app].
  - rewrite sum_nil. lra.
  - rewrite !sum_cons, IH. lra.
Qed.

Lemma sum_perm (l1 l2 : list R) : Permutation l1 l2 -> sum l1 = sum l2.
Proof.
  induction 1; rewrite ?sum_cons in *; lra.
Qed.

Lemma sum_repeat (x : R) (n : nat) : sum (repeat x n) = INR n * x.
Proof.
  induction n as [|n IH].
  - cbn [repeat]. rewrite sum_nil. cbn [INR]. lra.
  - cbn [repeat]. rewrite sum_cons, IH, S_INR. lra.
Qed.

Lemma insert_perm (x : R) (l : list R) : Permutation (x :: l) (insert x l).
Proof.
  induction l as [|y l IH]; cbn [insert].
  - reflexivity.
  - destruct (sort_lt y x).
    + rewrite perm_swap. now constructor.
    + reflexivity.
Qed.

Lemma sort_perm (l : list R) : Permutation l (sort l).
Proof.
  induction l as [|x l IH]; cbn [sort].
  - constructor.
  - rewrite <- insert_perm. now constructor.
Qed.

Lemma insert_sorted (x : R) (l : list R) :
  StronglySorted Rle l -> StronglySorted Rle (insert x l).
Proof.
  induction 1 as [|y l Hs IH Hy]; cbn [insert].
  - repeat constructor.
  - rewrite sort_lt_exact. destruct (Rltb y x) eqn:E.
    + apply Rltb_true in E. constructor; [assumption|].
      rewrite <- insert_perm. constructor; [lra | assumption].
    + apply Rltb_false in E. constructor.
      * now constructor.
      * constructor; [assumption|].
        eapply Forall_impl; [|exact Hy]. intros; cbn in *; lra.
Qed.

Lemma sort_sorted (l : list R) : StronglySorted Rle (sort l).
Proof.
  induction l as [|x l IH]; cbn [sort].
  - constructor.
  - now apply insert_sorted.
Qed.

Lemma sort_length (l : list R) : length (sort l) = length l.
Proof. symmetry. apply Permutation_length, sort_perm. Qed.

End ExactFacts.

(** ** The Gini coefficient in exact arithmetic *)

Section GiniExact.
Local Open Scope R_scope.

Lemma sum_map_plus (a : R) (l : list R) :
  sum (map (Rplus a) l) = INR (length l) * a + sum l.
Proof.
  induction l as [|x l IH].
  - cbn [map length INR]. rewrite sum_nil. lra.
  - cbn [map length]. rewrite !sum_cons, IH, S_INR. lra.
Qed.

Lemma cumsum_from_shift (a : R) (l : list R) :
  cumsum_from a l = map (Rplus a) (cumsum_from 0 l).
Proof.
  revert a. induction l as [|x l IH]; intros a; cbn [cumsum_from map].
  - reflexivity.
  - cbn [s_add exact]. rewrite (IH (a + x)), (IH (0 + x)), map_map.
    f_equal; [lra|]. apply map_ext. intros; lra.
Qed.

Lemma cumsum_from_length (a : R) (l : list R) :
  length (cumsum_from a l) = length l.
Proof.
  revert a. induction l as [|x l IH]; intros a; cbn; [|rewrite IH]; easy.
Qed.

Lemma ramp_cons (a : R) (l : list R) :
  ramp (a :: l) = a + INR (length l) * a + ramp l.
Proof.
  unfold ramp. cbn [cumsum_from s_add exact].
  rewrite sum_cons, (cumsum_from_shift (0 + a)), sum_map_plus.
  rewrite cumsum_from_length. lra.
Qed.

Lemma sum_cumsum (l : list R) : sum (cumsum l) = ramp l.
Proof.
  destruct l as [|a l]; [reflexivity|].
  rewrite ramp_cons. cbn [cumsum]. rewrite sum_cons.
  rewrite cumsum_from_shift, sum_map_plus, cumsum_from_length.
  unfold ramp. lra.
Qed.

Lemma last_cumsum_from (a x : R) (l : list R) (d : R) :
  last (cumsum_from a (x :: l)) d = a + sum (x :: l).
Proof.
  revert a x. induction l as [|y l IH]; intros a x.
  - cbn [cumsum_from last s_add exact]. rewrite sum_cons, sum_nil. lra.
  - change (cumsum_from a (x :: y :: l))
      with ((a + x) :: cumsum_from (a + x) (y :: l)).
    assert (E : forall (h : R) t, t <> [] -> last (h :: t) d = last t d).
    { intros h [|? ?] Ht; [congruence | reflexivity]. }
    rewrite E by (cbn; congruence).
    rewrite IH. rewrite (sum_cons x). lra.
Qed.

Lemma last_cumsum (x : R) (l : list R) (d : R) :
  last (cumsum (x :: l)) d = sum (x :: l).
Proof.
  destruct l as [|y l].
  - cbn [cumsum cumsum_from last]. rewrite sum_cons, sum_nil. lra.
  - cbn [cumsum].
    assert (E : forall (h : R) t, t <> [] -> last (h :: t) d = last t d).
    { intros h [|? ?] Ht; [congruence | reflexivity]. }
    rewrite E by (cbn; congruence).
    rewrite last_cumsum_from, (sum_cons x). lra.
Qed.

Lemma sum_ge_bound (a : R) (l : list R) :
  Forall (fun y => a <= y) l -> INR (length l) * a <= sum l.
Proof.
  induction 1 as [|y l Hy _ IH].
  - cbn [length INR]. rewrite sum_nil. lra.
  - cbn [length]. rewrite S_INR, sum_cons. lra.
Qed.

Lemma sum_nonneg (l : list R) : Forall (fun y => 0 <= y) l -> 0 <= sum l.
Proof.
  intros Hl. pose proof (sum_ge_bound _ _ Hl). lra.
Qed.

Lemma ramp_ge_sum (l : list R) :
  Forall (fun y => 0 <= y) l -> sum l <= ramp l.
Proof.
  induction 1 as [|a l Ha Hl IH].
  - unfold ramp. cbn. lra.
  - rewrite ramp_cons, sum_cons.
    pose proof (pos_INR (length l)). nra.
Qed.

(** The numerator of the coefficient, cleared of the division by the total:
    it is the sum of the pairwise gaps of an ascending array. *)
Lemma gap_nonneg (l : list R) :
  StronglySorted Rle l ->
  0 <= (INR (length l) + 1) * sum l - 2 * ramp l.
Proof.
  induction 1 as [|a l Hs IH Ha].
  - cbn [length INR]. unfold ramp. cbn [cumsum_from]. rewrite sum_nil. lra.
  - cbn [length]. rewrite S_INR, sum_cons, ramp_cons.
    pose proof (sum_ge_bound _ _ Ha). nra.
Qed.

Lemma gap_equal (a : R) (l : list R) :
  Forall (fun y => y = a) l ->
  (INR (length l) + 1) * sum l - 2 * ramp l = 0.
Proof.
  induction 1 as [|y l Hy Hl IH].
  - cbn [length INR]. unfold ramp. cbn [cumsum_from]. rewrite sum_nil. lra.
  - subst y. cbn [length]. rewrite S_INR, sum_cons, ramp_cons.
    assert (E : sum l = INR (length l) * a).
    { clear IH. induction Hl as [|z l Hz Hl IH'].
      - cbn [length INR]. rewrite sum_nil. lra.
      - subst z. cbn [length]. rewrite S_INR, sum_cons, IH'. lra. }
    nra.
Qed.

(** [np.amin] in exact arithmetic: a lower bound of the array. *)
Lemma amin_some (x : R) (l : list R) : exists lo, amin (x :: l) = Some lo.
Proof.
  revert x. induction l as [|y l IH]; intros x.
  - now exists x.
  - destruct (IH y) as [lo Hlo]. cbn [amin] in *. rewrite Hlo. cbn. eauto.
Qed.

Lemma amin_lower (l : list R) (lo : R) :
  amin l = Some lo -> Forall (fun y => lo <= y) l.
Proof.
  revert lo. induction l as [|x l IH]; intros lo Hlo; [constructor|].
  destruct l as [|y l].
  - cbn in Hlo. injection Hlo as <-. constructor; [lra | constructor].
  - change (amin (x :: y :: l)) with (option_map (minimum x) (amin (y :: l))) in Hlo.
    destruct (amin (y :: l)) as [m|] eqn:Em; [|discriminate].
    cbn [option_map] in Hlo. injection Hlo as <-.
    specialize (IH m eq_refl).
    unfold minimum. rewrite is_nan_exact, orb_false_r. cbn [s_ltb exact].
    destruct (Rltb x m) eqn:E.
    + apply Rltb_true in E. constructor; [lra|].
      eapply Forall_impl; [|exact IH]. intros; cbn in *; lra.
    + apply Rltb_false in E. constructor; [lra | exact IH].
Qed.

Lemma lifted_positive (e : R) (arr : list R) (lo : R) :
  0 < e -> amin arr = Some lo -> Forall (fun y => 0 < y) (lifted e arr lo).
Proof.
  intros He Hlo. apply amin_lower in Hlo. unfold lifted.
  apply Forall_map. destruct (Rltb lo 0) eqn:E.
  - apply Forall_map. eapply Forall_impl; [|exact Hlo]. intros; cbn in *; lra.
  - apply Rltb_false in E. eapply Forall_impl; [|exact Hlo].
    intros; cbn in *; lra.
Qed.

Lemma lifted_length (e : R) (arr : list R) (lo : R) :
  length (lifted e arr lo) = length arr.
Proof.
  unfold lifted. rewrite length_map. destruct (Rltb lo 0); [apply length_map|easy].
Qed.

(** The value [gini_shift] returns, in closed form. *)
Lemma gini_shift_value (e : R) (arr : list R) (lo : R) :
  amin arr = Some lo ->
  gini_shift e arr =
    Some ((IZR (Z.of_nat (length arr) + 1)
           - 2 * ramp (sort (lifted e arr lo)) / sum (lifted e arr lo))
          / IZR (Z.of_nat (length arr))).
Proof.
  intros Hlo. unfold gini_shift. rewrite Hlo.
  cbn [s_ltb s_zero s_sub s_add s_mul s_div s_of_Z exact].
  fold (lifted e arr lo). rewrite lifted_length, sum_cumsum.
  destruct (sort (lifted e arr lo)) as [|x l] eqn:Es.
  - pose proof (sort_perm (lifted e arr lo)) as P. rewrite Es in P.
    apply Permutation_sym, Permutation_nil in P. rewrite P.
    reflexivity.
  - rewrite last_cumsum, <- Es, <- (sum_perm _ _ (sort_perm _)). reflexivity.
Qed.

End GiniExact.

(** ** Scaling an array, in exact arithmetic *)

Section ScalingExact.
Local Open Scope R_scope.
Variable c : R.
Hypothesis c_pos : 0 < c.

Lemma Rltb_scale (x y : R) : Rltb (c * x) (c * y) = Rltb x y.
Proof.
  destruct (Rltb x y) eqn:E.
  - apply Rltb_true in E. apply Rltb_true. nra.
  - apply Rltb_false in E. apply Rltb_false. nra.
Qed.

Lemma minimum_scale (x y : R) : minimum (c * x) (c * y) = c * minimum x y.
Proof.
  unfold minimum. rewrite !is_nan_exact, !orb_false_r. cbn [s_ltb exact].
  rewrite Rltb_scale. now destruct (Rltb x y).
Qed.

Lemma amin_scale (l : list R) :
  amin (map (Rmult c) l) = option_map (Rmult c) (amin l).
Proof.
  induction l as [|x l IH]; [reflexivity|].
  destruct l as [|y l]; [reflexivity|].
  change (amin (map (Rmult c) (x :: y :: l)))
    with (option_map (minimum (c * x)) (amin (map (Rmult c) (y :: l)))).
  change (amin (x :: y :: l)) with (option_map (minimum x) (amin (y :: l))).
  rewrite IH. destruct (amin (y :: l)) as [m|]; [|reflexivity].
  cbn [option_map]. now rewrite minimum_scale.
Qed.

Lemma insert_scale (x : R) (l : list R) :
  insert (c * x) (map (Rmult c) l) = map (Rmult c) (insert x l).
Proof.
  induction l as [|y l IH]; [reflexivity|].
  cbn [map insert]. rewrite !sort_lt_exact, Rltb_scale.
  destruct (Rltb y x); cbn [map]; [now rewrite IH | reflexivity].
Qed.

Lemma sort_scale (l : list R) : sort (map (Rmult c) l) = map (Rmult c) (sort l).
Proof.
  induction l as [|x l IH]; [reflexivity|].
  cbn [map sort]. now rewrite IH, insert_scale.
Qed.

Lemma cumsum_from_scale (a : R) (l : list R) :
  cumsum_from (c * a) (map (Rmult c) l) = map (Rmult c) (cumsum_from a l).
Proof.
  revert a. induction l as [|x l IH]; intros a; [reflexivity|].
  cbn [map cumsum_from s_add exact].
  replace (c * a + c * x) with (c * (a + x)) by ring.
  now rewrite IH.
Qed.

Lemma cumsum_scale (l : list R) :
  cumsum (map (Rmult c) l) = map (Rmult c) (cumsum l).
Proof.
  destruct l as [|x l]; [reflexivity|].
  cbn [map cumsum]. now rewrite cumsum_from_scale.
Qed.

Lemma sum_scale (l : list R) : sum (map (Rmult c) l) = c * sum l.
Proof.
  induction l as [|x l IH].
  - cbn [map]. rewrite sum_nil. ring.
  - cbn [map]. rewrite !sum_cons, IH. ring.
Qed.

Lemma last_scale (l : list R) : last (map (Rmult c) l) 0 = c * last l 0.
Proof.
  induction l as [|x l IH].
  - cbn. ring.
  - destruct l as [|y l]; [reflexivity|].
    change (last (map (Rmult c) (x :: y :: l)) 0)
      with (last (map (Rmult c) (y :: l)) 0).
    now rewrite IH.
Qed.

Lemma gini_shift_scale (e : R) (arr : list R) :
  gini_shift (c * e) (map (Rmult c) arr) = gini_shift e arr.
Proof.
  unfold gini_shift. rewrite amin_scale.
  destruct (amin arr) as [lo|]; [|reflexivity].
  cbn [option_map s_ltb s_zero s_sub s_add s_mul s_div s_of_Z exact].
  replace (Rltb (c * lo) 0) with (Rltb lo 0)
    by (rewrite <- (Rltb_scale lo 0); now rewrite Rmult_0_r).
  set (arr1 := if Rltb lo 0 then map (fun x => x - lo) arr else arr).
  assert (E1 : (if Rltb lo 0
                then map (fun x => x - c * lo) (map (Rmult c) arr)
                else map (Rmult c) arr) = map (Rmult c) arr1).
  { unfold arr1. destruct (Rltb lo 0); [|reflexivity].
    rewrite !map_map. apply map_ext. intros; ring. }
  rewrite E1.
  assert (E2 : map (fun x => x + c * e) (map (Rmult c) arr1)
               = map (Rmult c) (map (fun x => x + e) arr1)).
  { rewrite !map_map. apply map_ext. intros; ring. }
  rewrite E2, sort_scale, cumsum_scale, sum_scale, last_scale, !length_map.
  do 3 f_equal. unfold Rdiv. rewrite Rinv_mult.
  set (i := / last _ _). field. lra.
Qed.

End ScalingExact.

(** ** The main loop: facts that hold in every arithmetic *)

Section LoopFacts.
Context {T : Type} `{Scalar T}.
Local Open Scope scalar_scope.
Variable stakes : list Z.
Variable EPOCH_SIZE : Z.

Lemma add_at_length (arr : list T) (i : nat) (x : T) :
  length (add_at arr i x) = length arr.
Proof.
  revert i. induction arr as [|a arr IH]; intros [|i]; cbn; auto.
Qed.

Lemma nth_add_at_same (arr : list T) (i : nat) (x d : T) :
  (i < length arr)%nat -> nth i (add_at arr i x) d = nth i arr d + x.
Proof.
  revert i. induction arr as [|a arr IH]; intros [|i] Hi; cbn in *; try lia.
  - reflexivity.
  - apply IH. lia.
Qed.

Lemma nth_add_at_other (arr : list T) (i j : nat) (x d : T) :
  i <> j -> nth j (add_at arr i x) d = nth j arr d.
Proof.
  revert i j. induction arr as [|a arr IH]; intros [|i] [|j] Hij; cbn;
    try reflexivity; try congruence.
  apply IH. congruence.
Qed.

Lemma zip_with_length {A : Type} (f : T -> A -> T) (xs : list T) (ys : list A) :
  length xs = length ys -> length (zip_with f xs ys) = length xs.
Proof.
  revert ys. induction xs as [|x xs IH]; intros [|y ys] E; cbn in *; try lia.
  rewrite IH; lia.
Qed.

Lemma nth_zip_with {A : Type} (f : T -> A -> T) (xs : list T) (ys : list A)
      (v : nat) (d : T) (da : A) :
  (v < length xs)%nat -> (v < length ys)%nat ->
  nth v (zip_with f xs ys) d = f (nth v xs d) (nth v ys da).
Proof.
  revert ys v. induction xs as [|x xs IH]; intros [|y ys] [|v] Hx Hy;
    cbn in *; try lia; try reflexivity.
  apply IH; lia.
Qed.

Lemma nth_map_in (f : T -> T) (xs : list T) (v : nat) (d : T) :
  (v < length xs)%nat -> nth v (map f xs) d = f (nth v xs d).
Proof.
  intros Hv. rewrite (nth_indep _ d (f d)) by (now rewrite length_map).
  apply map_nth.
Qed.

Lemma root_weights_length : length (root_weights (T:=T) stakes) = NUM_VALIDATORS stakes.
Proof. unfold root_weights. now rewrite length_map. Qed.

Lemma account_well_formed (pr : nat) (mev sur kp : T) (s : state T) :
  well_formed stakes s -> well_formed stakes (account pr mev sur kp s).
Proof.
  intros W name. specialize (W name).
  destruct name as [|[]]; cbn in *; now rewrite add_at_length.
Qed.

Lemma distribute_well_formed (s : state T) :
  well_formed stakes s -> well_formed stakes (distribute stakes s).
Proof.
  intros W name. pose proof (W name) as Wn.
  destruct name as [|[]]; cbn in *.
  - assumption.
  - rewrite zip_with_length; assumption.
  - now rewrite length_map.
  - rewrite zip_with_length; [assumption|]. now rewrite root_weights_length.
Qed.

Lemma initial_well_formed : well_formed stakes (initial stakes).
Proof. intros [|[]]; cbn; apply repeat_length. Qed.

Lemma choice_in_range (draw : nat) :
  (draw < NUM_VALIDATORS stakes)%nat -> choice stakes draw = Some draw.
Proof.
  intros Hd. unfold choice. apply Nat.ltb_lt in Hd. now rewrite Hd.
Qed.

Lemma step_done (threshold : T) (b : Z) (blk : nat * T) (s : state T) :
  EPOCH_SIZE <> 0%Z -> (fst blk < NUM_VALIDATORS stakes)%nat ->
  step stakes EPOCH_SIZE threshold b blk s = Done (after_block stakes EPOCH_SIZE threshold b blk s).
Proof.
  intros HE Hp. unfold step, after_block, accounted. rewrite (choice_in_range _ Hp).
  apply Z.eqb_neq in HE. rewrite HE.
  now destruct ((b + 1) mod EPOCH_SIZE =? 0)%Z.
Qed.

Lemma after_block_well_formed (threshold : T) (b : Z) (blk : nat * T) (s : state T) :
  well_formed stakes s -> well_formed stakes (after_block stakes EPOCH_SIZE threshold b blk s).
Proof.
  intros W. unfold after_block, accounted.
  destruct ((b + 1) mod EPOCH_SIZE =? 0)%Z.
  - now apply distribute_well_formed, account_well_formed.
  - now apply account_well_formed.
Qed.

Lemma main_loop_app (threshold : T) (b : Z) (l1 l2 : list (nat * T)) (s : state T) :
  main_loop stakes EPOCH_SIZE threshold b (l1 ++ l2) s =
    match main_loop stakes EPOCH_SIZE threshold b l1 s with
    | Done s' =>
        main_loop stakes EPOCH_SIZE threshold (b + Z.of_nat (length l1)) l2 s'
    | Raised e s' => Raised e s'
    end.
Proof.
  revert b s. induction l1 as [|blk l1 IH]; intros b s.
  - cbn. now rewrite Z.add_0_r.
  - cbn [app main_loop length].
    destruct (step stakes EPOCH_SIZE threshold b blk s) as [s'|e s']; [|reflexivity].
    rewrite IH. replace (b + 1 + Z.of_nat (length l1))%Z
      with (b + Z.of_nat (S (length l1)))%Z by lia.
    reflexivity.
Qed.

(** With a non-zero epoch size and draws in range the loop raises nothing. *)
Lemma main_loop_done (threshold : T) (blocks : list (nat * T)) :
  EPOCH_SIZE <> 0%Z ->
  Forall (fun blk => (fst blk < NUM_VALIDATORS stakes)%nat) blocks ->
  forall (b : Z) (s : state T), well_formed stakes s ->
  exists s', main_loop stakes EPOCH_SIZE threshold b blocks s = Done s'
             /\ well_formed stakes s'.
Proof.
  intros HE. induction 1 as [|blk blocks Hb _ IH]; intros b s W.
  - exists s. now split.
  - cbn [main_loop]. rewrite step_done by assumption.
    apply IH. now apply after_block_well_formed.
Qed.

End LoopFacts.

(** ** The main loop in exact arithmetic: conservation *)

Section LoopExact.
Local Open Scope R_scope.
Variable stakes : list Z.
Variable EPOCH_SIZE : Z.

Lemma sum_add_at (arr : list R) (i : nat) (x : R) :
  (i < length arr)%nat -> sum (add_at arr i x) = sum arr + x.
Proof.
  revert i. induction arr as [|a arr IH]; intros [|i] Hi; cbn [length] in *;
    try lia; cbn [add_at].
  - rewrite !sum_cons. cbn. lra.
  - rewrite !sum_cons, IH by lia. lra.
Qed.

Lemma sum_zip_with_weighted {A : Type} (w : A -> R) (q : R)
      (es : list R) (ks : list A) :
  length es = length ks ->
  sum (zip_with (fun e k => e + w k * q) es ks) = sum es + q * sum (map w ks).
Proof.
  revert ks. induction es as [|e es IH]; intros [|k ks] E; cbn [length] in *;
    try lia; cbn [zip_with map].
  - rewrite !sum_nil. lra.
  - rewrite !sum_cons, IH by lia. lra.
Qed.

Lemma sum_map_add (a : R) (es : list R) :
  sum (map (fun e => e + a) es) = sum es + INR (length es) * a.
Proof.
  induction es as [|e es IH]; cbn [map length].
  - rewrite sum_nil. cbn. lra.
  - rewrite !sum_cons, IH, S_INR. lra.
Qed.

Lemma sum_increments (before after : list R) :
  length before = length after ->
  sum (increments before after) = sum after - sum before.
Proof.
  unfold increments. revert before.
  induction after as [|a after IH]; intros [|b before] E; cbn [length] in *;
    try lia; cbn [zip_with].
  - rewrite !sum_nil. lra.
  - rewrite !sum_cons, IH by lia. lra.
Qed.

Lemma fold_add_shift (l : list Z) (a : Z) :
  fold_left Z.add l a = (a + fold_left Z.add l 0)%Z.
Proof.
  revert a. induction l as [|x l IH]; intros a; cbn; [lia|].
  rewrite IH, (IH x). lia.
Qed.

Lemma IZR_total_stake : IZR (total_stake stakes) = sum (map IZR stakes).
Proof.
  unfold total_stake. induction stakes as [|k l IH]; [reflexivity|].
  cbn [fold_left map]. rewrite fold_add_shift, plus_IZR, sum_cons, IH.
  cbn. reflexivity.
Qed.

Lemma total_stake_pos : stakes_drawn stakes -> 0 < IZR (total_stake stakes).
Proof.
  intros [Hne Hall]. rewrite IZR_total_stake.
  destruct Hall as [|k l Hk Hl]; [congruence|].
  cbn [map]. rewrite sum_cons.
  assert (0 <= sum (map IZR l)).
  { apply sum_nonneg, Forall_map. eapply Forall_impl; [|exact Hl].
    intros z Hz. cbn in *. apply IZR_le in Hz. lra. }
  apply IZR_le in Hk. lra.
Qed.

Lemma total_root_weight_pos :
  stakes_drawn stakes -> 0 < total_root_weight (T:=R) stakes.
Proof.
  intros [Hne Hall]. unfold total_root_weight, root_weights.
  cbn [s_sqrt s_of_Z exact].
  assert (P : forall z, (1 <= z)%Z -> 0 < R_sqrt.sqrt (IZR z)).
  { intros z Hz. apply sqrt_lt_R0. apply IZR_le in Hz. lra. }
  destruct Hall as [|k l Hk Hl]; [congruence|].
  cbn [map]. rewrite sum_cons.
  assert (0 <= sum (map (fun k => R_sqrt.sqrt (IZR k)) l)).
  { apply sum_nonneg, Forall_map. eapply Forall_impl; [|exact Hl].
    intros z Hz. cbn in *. left. now apply P. }
  specialize (P k Hk). lra.
Qed.

Lemma validators_pos : stakes_drawn stakes -> 0 < IZR (Z.of_nat (NUM_VALIDATORS stakes)).
Proof.
  intros [Hne _]. apply IZR_lt. unfold NUM_VALIDATORS.
  destruct stakes; [congruence | cbn; lia].
Qed.

(** What each validator set receives sums to the pool (lines 94, 98, 102). *)
Lemma distribute_holdings (s : state R) (p : pooled) :
  stakes_drawn stakes -> well_formed stakes s ->
  sum (earnings (distribute stakes s) (Pooled p)) = holdings s p
  /\ pool_balances (distribute stakes s) p = 0.
Proof.
  intros Hd W. split; [|now destruct p].
  pose proof (total_stake_pos Hd) as Hs.
  pose proof (total_root_weight_pos Hd) as Hr.
  pose proof (validators_pos Hd) as Hv.
  unfold holdings. pose proof (W (Pooled p)) as Wp.
  destruct p; cbn [earnings pool_balances distribute e_StakePool e_EqualPool
                   e_RootStakePool p_StakePool p_EqualPool p_RootStakePool
                   s_add s_mul s_div s_of_Z exact] in *.
  - rewrite (sum_zip_with_weighted IZR) by exact Wp.
    rewrite <- IZR_total_stake. field. lra.
  - rewrite sum_map_add, Wp, INR_IZR_INZ. field. lra.
  - rewrite (sum_zip_with_weighted (fun w => w))
      by (now rewrite root_weights_length).
    rewrite map_id. fold (total_root_weight (T:=R) stakes). field. lra.
Qed.

Lemma account_holdings (pr : nat) (threshold mev : R) (s : state R) (p : pooled) :
  (pr < NUM_VALIDATORS stakes)%nat -> well_formed stakes s ->
  holdings (account pr mev (surplus_of threshold mev) (keep_of threshold mev) s) p
  = holdings s p + mev.
Proof.
  intros Hp W. unfold holdings, keep_of. pose proof (W (Pooled p)) as Wp.
  destruct p; cbn [earnings pool_balances account e_StakePool e_EqualPool
                   e_RootStakePool p_StakePool p_EqualPool p_RootStakePool
                   s_add s_sub exact] in *;
    rewrite sum_add_at by lia; lra.
Qed.

Lemma after_block_holdings (threshold : R) (b : Z) (blk : nat * R)
      (s : state R) (p : pooled) :
  stakes_drawn stakes -> (fst blk < NUM_VALIDATORS stakes)%nat -> well_formed stakes s ->
  holdings (after_block stakes EPOCH_SIZE threshold b blk s) p
  = holdings s p + snd blk.
Proof.
  intros Hd Hp W. unfold after_block, accounted.
  destruct ((b + 1) mod EPOCH_SIZE =? 0)%Z.
  - unfold holdings at 1.
    destruct (distribute_holdings
                (account (fst blk) (snd blk) (surplus_of threshold (snd blk))
                         (keep_of threshold (snd blk)) s) p Hd) as [E1 E2].
    { now apply account_well_formed. }
    rewrite E1, E2, account_holdings by assumption. lra.
  - now apply account_holdings.
Qed.

Lemma after_block_baseline (threshold : R) (b : Z) (blk : nat * R) (s : state R) :
  (fst blk < NUM_VALIDATORS stakes)%nat -> well_formed stakes s ->
  sum (earnings (after_block stakes EPOCH_SIZE threshold b blk s) Baseline)
  = sum (earnings s Baseline) + snd blk.
Proof.
  intros Hp W. pose proof (W Baseline) as Wb. unfold after_block, accounted.
  cbn [earnings] in Wb.
  destruct ((b + 1) mod EPOCH_SIZE =? 0)%Z;
    cbn [earnings distribute account e_Baseline];
    rewrite sum_add_at by lia; lra.
Qed.

Lemma main_loop_conserves (threshold : R) (blocks : list (nat * R)) :
  stakes_drawn stakes -> EPOCH_SIZE <> 0%Z ->
  Forall (fun blk => (fst blk < NUM_VALIDATORS stakes)%nat) blocks ->
  forall (b : Z) (s : state R), well_formed stakes s ->
  exists s', main_loop stakes EPOCH_SIZE threshold b blocks s = Done s'
    /\ well_formed stakes s'
    /\ (forall p, holdings s' p = holdings s p + sum (map snd blocks))
    /\ sum (earnings s' Baseline) = sum (earnings s Baseline) + sum (map snd blocks).
Proof.
  intros Hd HE. induction 1 as [|blk blocks Hb _ IH]; intros b s W.
  - exists s. cbn [map]. rewrite sum_nil. repeat split; auto; intros; lra.
  - cbn [main_loop]. rewrite step_done by assumption.
    destruct (IH (b + 1)%Z (after_block stakes EPOCH_SIZE threshold b blk s))
      as (s' & E & W' & Hh & Hb').
    { now apply after_block_well_formed. }
    exists s'. repeat split; auto.
    + intros p. rewrite Hh, after_block_holdings by assumption.
      cbn [map]. rewrite sum_cons. lra.
    + rewrite Hb', after_block_baseline by assumption.
      cbn [map]. rewrite sum_cons. lra.
Qed.

End LoopExact.

(** ** The main loop in exact arithmetic: what stays in the pools *)

Section Residual.
Local Open Scope R_scope.
Variable stakes : list Z.
Variable EPOCH_SIZE : Z.
Hypothesis epoch_pos : (0 < EPOCH_SIZE)%Z.

Lemma boundary_nat (n : nat) :
  ((Z.of_nat n + 1) mod EPOCH_SIZE =? 0)%Z = (S n mod Z.to_nat EPOCH_SIZE =? 0)%nat.
Proof.
  replace (Z.of_nat n + 1)%Z with (Z.of_nat (S n)) by lia.
  replace EPOCH_SIZE with (Z.of_nat (Z.to_nat EPOCH_SIZE)) at 1 by lia.
  rewrite <- Nat2Z.inj_mod.
  destruct (Nat.eqb_spec (S n mod Z.to_nat EPOCH_SIZE) 0) as [E|E].
  - rewrite E. reflexivity.
  - apply Z.eqb_neq. lia.
Qed.

Lemma mod_succ_nonzero (n e : nat) :
  (0 < e)%nat -> (S n mod e <> 0)%nat -> (S n mod e = S (n mod e))%nat.
Proof.
  intros He Hne.
  pose proof (Nat.div_mod_eq n e) as Hn.
  pose proof (Nat.mod_upper_bound n e ltac:(lia)) as Hr.
  destruct (Nat.eq_dec (S (n mod e)) e) as [E|E].
  - exfalso. apply Hne.
    replace (S n) with (0 + (S (n / e)) * e)%nat by nia.
    rewrite Nat.Div0.mod_add. now apply Nat.mod_small.
  - replace (S n) with (S (n mod e) + (n / e) * e)%nat by nia.
    rewrite Nat.Div0.mod_add. apply Nat.mod_small. lia.
Qed.

Lemma residual_snoc (threshold : R) (blocks : list (nat * R)) (blk : nat * R) :
  residual EPOCH_SIZE threshold (blocks ++ [blk]) =
    if ((Z.of_nat (length blocks) + 1) mod EPOCH_SIZE =? 0)%Z then 0
    else residual EPOCH_SIZE threshold blocks + surplus_of threshold (snd blk).
Proof.
  rewrite boundary_nat. unfold residual. rewrite length_app. cbn [length].
  replace (length blocks + 1)%nat with (S (length blocks)) by lia.
  set (n := length blocks). set (e := Z.to_nat EPOCH_SIZE).
  assert (He : (0 < e)%nat) by (unfold e; lia).
  destruct (Nat.eqb_spec (S n mod e) 0) as [E|E].
  - rewrite E, Nat.sub_0_r.
    rewrite skipn_all2 by (rewrite length_app; cbn; lia). reflexivity.
  - rewrite mod_succ_nonzero by assumption.
    pose proof (Nat.mod_upper_bound n e ltac:(lia)) as Hr.
    pose proof (Nat.Div0.mod_le n e) as Hle.
    replace (S n - S (n mod e))%nat with (n - n mod e)%nat by lia.
    rewrite skipn_app.
    replace (n - n mod e - length blocks)%nat with 0%nat by (fold n; lia).
    cbn [skipn]. rewrite map_app, sum_app. cbn [map].
    rewrite sum_cons, sum_nil. lra.
Qed.

Lemma after_block_pool (threshold : R) (b : Z) (blk : nat * R)
      (s : state R) (p : pooled) :
  pool_balances (after_block stakes EPOCH_SIZE threshold b blk s) p =
    if ((b + 1) mod EPOCH_SIZE =? 0)%Z then 0
    else pool_balances s p + surplus_of threshold (snd blk).
Proof.
  unfold after_block, accounted.
  destruct ((b + 1) mod EPOCH_SIZE =? 0)%Z; now destruct p.
Qed.

(** After the loop each pool holds exactly the surplus of the final,
    incomplete epoch. *)
Lemma main_loop_residual (threshold : R) (blocks : list (nat * R)) :
  Forall (fun blk => (fst blk < NUM_VALIDATORS stakes)%nat) blocks ->
  exists s', main_loop stakes EPOCH_SIZE threshold 0 blocks (initial stakes) = Done s'
    /\ well_formed stakes s'
    /\ forall p, pool_balances s' p = residual EPOCH_SIZE threshold blocks.
Proof.
  assert (HE : EPOCH_SIZE <> 0%Z) by lia.
  induction blocks as [|blk blocks IH] using rev_ind; intros Hall.
  - exists (initial stakes). split; [reflexivity|]. split.
    + apply initial_well_formed.
    + intros p. unfold residual. cbn [length Nat.sub skipn map].
      rewrite sum_nil. now destruct p.
  - apply Forall_app in Hall as [Hall Hblk].
    apply Forall_inv in Hblk.
    destruct (IH Hall) as (s' & E & W & Hp).
    rewrite main_loop_app, E. cbn [main_loop].
    rewrite step_done by assumption.
    eexists. split; [reflexivity|]. split.
    + now apply after_block_well_formed.
    + intros p. rewrite after_block_pool, residual_snoc, Hp.
      rewrite Z.add_0_l. reflexivity.
Qed.

End Residual.

(** ** Baseline in exact arithmetic *)

Lemma main_loop_baseline (stakes : list Z) (EPOCH_SIZE : Z) (threshold : R)
      (blocks : list (nat * R)) :
  EPOCH_SIZE <> 0%Z ->
  Forall (fun blk => (fst blk < NUM_VALIDATORS stakes)%nat) blocks ->
  forall (b : Z) (s : state R), well_formed stakes s ->
  exists s', main_loop stakes EPOCH_SIZE threshold b blocks s = Done s'
    /\ sum (earnings s' Baseline)
       = (sum (earnings s Baseline) + sum (map snd blocks))%R.
Proof.
  intros HE. induction 1 as [|blk blocks Hb _ IH]; intros b s W.
  - exists s. cbn [map]. rewrite sum_nil. split; [reflexivity | lra].
  - cbn [main_loop]. rewrite step_done by assumption.
    destruct (IH (b + 1)%Z (after_block stakes EPOCH_SIZE threshold b blk s))
      as (s' & E & Hb').
    { now apply after_block_well_formed. }
    exists s'. split; [assumption|].
    rewrite Hb', after_block_baseline by assumption.
    cbn [map]. rewrite sum_cons. lra.
Qed.

Lemma gini_exact_bounds_lemma (arr : list R) :
  arr <> [] ->
  exists g,
    gini arr = Some g
    /\ (0 <= g < 1)%R
    /\ ((exists x, Forall (fun y => y = x) arr) -> g = 0%R).
Proof.
  intros Hne. destruct arr as [|x0 l]; [congruence|].
  destruct (amin_some x0 l) as [lo Hlo].
  unfold gini. rewrite (gini_shift_value _ _ _ Hlo).
  set (arr := x0 :: l) in *.
  set (L := lifted s_1e_9 arr lo).
  assert (He : (0 < s_1e_9)%R) by (cbn; lra).
  pose proof (lifted_positive s_1e_9 arr lo He Hlo) as Hpos. fold L in Hpos.
  pose proof (sort_perm L) as HP.
  pose proof (sort_sorted L) as HS.
  assert (Hpos' : Forall (fun y => (0 < y)%R) (sort L))
    by (eapply Permutation_Forall; eassumption).
  assert (Hlen : length (sort L) = length arr)
    by (rewrite sort_length; apply lifted_length).
  assert (Hn : (1 <= INR (length arr))%R).
  { unfold arr. cbn [length]. rewrite S_INR. pose proof (pos_INR (length l)). lra. }
  assert (Hsum : (0 < sum L)%R).
  { rewrite (sum_perm _ _ HP).
    destruct (sort L) as [|y t] eqn:Ey; [cbn in Hlen; discriminate|].
    rewrite sum_cons. inversion Hpos' as [|? ? Hy Ht]; subst.
    assert (0 <= sum t)%R.
    { apply sum_nonneg. eapply Forall_impl; [|exact Ht]. intros; cbn in *; lra. }
    lra. }
  pose proof (gap_nonneg _ HS) as Hgap.
  assert (Hramp : (sum L <= ramp (sort L))%R).
  { rewrite (sum_perm _ _ HP). apply ramp_ge_sum.
    eapply Forall_impl; [|exact Hpos']. intros; cbn in *; lra. }
  rewrite Hlen, <- (sum_perm _ _ HP) in Hgap.
  set (n := INR (length arr)) in *.
  set (S := sum L) in *. set (W := ramp (sort L)) in *.
  assert (En1 : IZR (Z.of_nat (length arr) + 1) = (n + 1)%R).
  { rewrite plus_IZR, <- INR_IZR_INZ. reflexivity. }
  assert (En : IZR (Z.of_nat (length arr)) = n) by (now rewrite <- INR_IZR_INZ).
  rewrite En1, En.
  set (q := (W / S)%R).
  assert (Eq : (W = q * S)%R) by (unfold q; field; lra).
  assert (Hq1 : (1 <= q)%R) by nra.
  assert (Hq2 : (2 * q <= n + 1)%R) by nra.
  eexists. split; [reflexivity|]. split; [split|].
  - replace (2 * W / S)%R with (2 * q)%R by (unfold q; field; lra).
    apply Rmult_le_pos; [lra|]. left. apply Rinv_0_lt_compat. lra.
  - replace (2 * W / S)%R with (2 * q)%R by (unfold q; field; lra).
    apply (Rmult_lt_reg_r n); [lra|].
    replace ((n + 1 - 2 * q) / n * n)%R with (n + 1 - 2 * q)%R by (field; lra).
    lra.
  - intros [x Hx].
    assert (HL : Forall (fun y => y = (if Rltb lo 0 then x - lo else x) + s_1e_9)%R L).
    { unfold L, lifted. apply Forall_map.
      destruct (Rltb lo 0).
      - apply Forall_map. eapply Forall_impl; [|exact Hx].
        intros y Hy; cbn in *; now subst.
      - eapply Forall_impl; [|exact Hx]. intros y Hy; cbn in *; now subst. }
    pose proof (gap_equal _ _ (Permutation_Forall HP HL)) as Hz.
    rewrite Hlen, <- (sum_perm _ _ HP) in Hz. fold n S W in Hz.
    replace (2 * W / S)%R with (2 * q)%R by (unfold q; field; lra).
    assert (n + 1 - 2 * q = 0)%R by nra.
    replace (n + 1 - 2 * q)%R with 0%R by lra.
    unfold Rdiv. apply Rmult_0_l.
Qed.

(** ** The sign of the epoch size *)

Lemma boundary_opp (a e : Z) : ((a mod (- e) =? 0) = (a mod e =? 0))%Z.
Proof.
  destruct (Z.eq_dec e 0) as [->|He]; [reflexivity|].
  destruct (Z.eqb_spec (a mod e) 0) as [E|E].
  - apply Z.eqb_eq. apply Z.mod_divide in E; [|assumption].
    apply Z.mod_divide; [lia|]. now apply Z.divide_opp_l.
  - apply Z.eqb_neq. intros E'. apply E.
    apply Z.mod_divide in E'; [|lia].
    apply Z.mod_divide; [assumption|]. apply Z.divide_opp_l. exact E'.
Qed.

Lemma step_opp {T : Type} `{Scalar T} (stakes : list Z) (e : Z) (threshold : T)
      (b : Z) (blk : nat * T) (s : state T) :
  step stakes (- e) threshold b blk s = step stakes e threshold b blk s.
Proof.
  unfold step. rewrite boundary_opp.
  replace (- e =? 0)%Z with (e =? 0)%Z; [reflexivity|].
  destruct (Z.eqb_spec e 0), (Z.eqb_spec (- e) 0); try reflexivity; exfalso; lia.
Qed.

Lemma main_loop_opp {T : Type} `{Scalar T} (stakes : list Z) (e : Z)
      (threshold : T) (blocks : list (nat * T)) :
  forall (b : Z) (s : state T),
    main_loop stakes (- e) threshold b blocks s
    = main_loop stakes e threshold b blocks s.
Proof.
  induction blocks as [|blk blocks IH]; intros b s; [reflexivity|].
  cbn [main_loop]. rewrite step_opp.
  destruct (step stakes e threshold b blk s); [apply IH | reflexivity].
Qed.

(** ** The median in exact arithmetic *)

Section MedianExact.
Local Open Scope R_scope.

Lemma Rleb_true (x y : R) : Rleb x y = true <-> x <= y.
Proof. unfold Rleb. destruct (Rle_dec x y); split; intros; easy. Qed.

Lemma Rleb_false (x y : R) : Rleb x y = false <-> y < x.
Proof.
  unfold Rleb. destruct (Rle_dec x y); split; intros; try easy; lra.
Qed.

Lemma count_le_app (t : R) (l1 l2 : list R) :
  count_le t (l1 ++ l2) = (count_le t l1 + count_le t l2)%nat.
Proof. unfold count_le. now rewrite filter_app, length_app. Qed.

Lemma count_le_cons (t x : R) (l : list R) :
  count_le t (x :: l) = ((if Rleb x t then 1 else 0) + count_le t l)%nat.
Proof.
  unfold count_le. cbn [filter s_leb exact]. now destruct (Rleb x t).
Qed.

Lemma count_le_perm (t : R) (l1 l2 : list R) :
  Permutation l1 l2 -> count_le t l1 = count_le t l2.
Proof.
  induction 1 as [|x l l' _ IH|x y l|l l' l'' _ IH1 _ IH2].
  - reflexivity.
  - now rewrite !count_le_cons, IH.
  - rewrite !count_le_cons. lia.
  - now rewrite IH1.
Qed.

Lemma count_le_all (t : R) (l : list R) :
  Forall (fun x => x <= t) l -> count_le t l = length l.
Proof.
  induction 1 as [|x l Hx _ IH]; [reflexivity|].
  rewrite count_le_cons, IH. apply Rleb_true in Hx. rewrite Hx.
  reflexivity.
Qed.

Lemma count_le_none (t : R) (l : list R) :
  Forall (fun x => t < x) l -> count_le t l = 0%nat.
Proof.
  induction 1 as [|x l Hx _ IH]; [reflexivity|].
  rewrite count_le_cons, IH. apply Rleb_false in Hx. now rewrite Hx.
Qed.

Lemma sorted_nth_le (s : list R) :
  StronglySorted Rle s ->
  forall i j, (i <= j)%nat -> (j < length s)%nat -> nth i s 0 <= nth j s 0.
Proof.
  induction 1 as [|a s Hs IH Ha]; intros i j Hij Hj; cbn [length] in Hj; [lia|].
  destruct i as [|i], j as [|j]; cbn [nth]; try lia; try lra.
  - rewrite Forall_forall in Ha. apply Ha, nth_In. lia.
  - apply IH; lia.
Qed.

(** Below index [k] an ascending array is at most its entry [k - 1]; from
    index [k] on it is at least its entry [k]. *)
Lemma sorted_firstn_le (s : list R) (k : nat) :
  StronglySorted Rle s -> (k < length s)%nat ->
  Forall (fun x => x <= nth k s 0) (firstn (S k) s).
Proof.
  intros Hs Hk. apply Forall_forall. intros x Hx.
  destruct (In_nth _ _ 0 Hx) as (i & Hi & <-).
  rewrite length_firstn in Hi. rewrite nth_firstn.
  destruct (Nat.ltb_spec i (S k)); [|lia].
  apply sorted_nth_le; [assumption | lia | lia].
Qed.

Lemma sorted_skipn_ge (s : list R) (k : nat) :
  StronglySorted Rle s -> (k < length s)%nat ->
  Forall (fun x => nth k s 0 <= x) (skipn k s).
Proof.
  intros Hs Hk. apply Forall_forall. intros x Hx.
  destruct (In_nth _ _ 0 Hx) as (i & Hi & <-).
  rewrite length_skipn in Hi. rewrite nth_skipn.
  apply sorted_nth_le; [assumption | lia | lia].
Qed.

Lemma sorted_nodup_lt (s : list R) (i j : nat) :
  StronglySorted Rle s -> NoDup s ->
  (i < j)%nat -> (j < length s)%nat -> nth i s 0 < nth j s 0.
Proof.
  intros Hs Hn Hij Hj.
  pose proof (sorted_nth_le s Hs i j ltac:(lia) Hj) as Hle.
  destruct Hle as [Hlt|Heq]; [assumption|].
  apply (proj1 (NoDup_nth s 0) Hn) in Heq; lia.
Qed.

(** Splitting an ascending array of distinct values at index [k]: a
    threshold from entry [k - 1] up to, but not including, entry [k] has
    exactly [k] entries at or below it. *)
Lemma count_le_split (s : list R) (t : R) (k : nat) :
  StronglySorted Rle s -> (0 < k)%nat -> (k <= length s)%nat ->
  nth (k - 1) s 0 <= t ->
  ((k < length s)%nat -> t < nth k s 0) ->
  count_le t s = k.
Proof.
  intros Hs Hk0 Hk Hlo Hhi.
  rewrite <- (firstn_skipn k s) at 1. rewrite count_le_app.
  rewrite count_le_all, count_le_none, length_firstn; [lia| |].
  - destruct (Nat.eq_dec k (length s)) as [->|Hne].
    + rewrite skipn_all. constructor.
    + eapply Forall_impl; [|apply sorted_skipn_ge; [assumption|lia]].
      intros x Hx. cbn in Hx. specialize (Hhi ltac:(lia)). lra.
  - replace k with (S (k - 1)) at 1 by lia.
    eapply Forall_impl; [|apply sorted_firstn_le; [assumption|lia]].
    intros x Hx. cbn in Hx. lra.
Qed.

Lemma existsb_is_nan_exact (l : list R) : existsb is_nan l = false.
Proof.
  induction l as [|x l IH]; [reflexivity|].
  cbn [existsb]. now rewrite is_nan_exact, IH.
Qed.

Lemma even_half (n : nat) : Nat.even n = true -> (n = 2 * (n / 2))%nat.
Proof.
  intros He. apply Nat.even_spec in He. destruct He as [m ->].
  now rewrite Nat.mul_comm, Nat.div_mul, Nat.mul_comm by lia.
Qed.

Lemma odd_half (n : nat) : Nat.even n = false -> (n = 2 * (n / 2) + 1)%nat.
Proof.
  intros He. rewrite <- Nat.negb_odd in He. apply negb_false_iff in He.
  apply Nat.odd_spec in He. destruct He as [m ->].
  replace (2 * m + 1)%nat with (1 + m * 2)%nat at 2 by lia.
  rewrite Nat.div_add by lia. cbn. lia.
Qed.

Lemma mean_two (a b : R) : mean [a; b] = (a + b) / 2.
Proof.
  unfold mean. rewrite !sum_cons, sum_nil.
  change (s_of_Z (Z.of_nat (length [a; b]))) with 2.
  cbn [s_div exact]. lra.
Qed.

Lemma mean_one (a : R) : mean [a] = a.
Proof.
  unfold mean. rewrite sum_cons, sum_nil.
  change (s_of_Z (Z.of_nat (length [a]))) with 1.
  cbn [s_div exact]. lra.
Qed.

End MedianExact.

Section Binary64Rounding.
Local Open Scope Z_scope.

(** ** binary64 rounding, from its specification *)

Lemma digits2_pos_bounds (m : positive) :
  2 ^ (Zpos (digits2_pos m) - 1) <= Zpos m < 2 ^ Zpos (digits2_pos m).
Proof.
  induction m as [m IH|m IH|]; cbn [digits2_pos].
  - rewrite Pos2Z.inj_succ.
    replace (Z.succ (Zpos (digits2_pos m)) - 1) with (Z.succ (Zpos (digits2_pos m) - 1)) by lia.
    rewrite !Z.pow_succ_r by lia. lia.
  - rewrite Pos2Z.inj_succ.
    replace (Z.succ (Zpos (digits2_pos m)) - 1) with (Z.succ (Zpos (digits2_pos m) - 1)) by lia.
    rewrite !Z.pow_succ_r by lia. lia.
  - cbn. lia.
Qed.

Lemma digits2_pos_unique (m : positive) (d : Z) :
  2 ^ (d - 1) <= Zpos m < 2 ^ d -> Zpos (digits2_pos m) = d.
Proof.
  intros [Hlo Hhi]. pose proof (digits2_pos_bounds m) as [Blo Bhi].
  assert (0 < d).
  { destruct (Z.ltb_spec 0 d); [assumption|].
    rewrite Z.pow_neg_r in Hlo by lia.
    destruct (Z.eq_dec d 0) as [->|]; [cbn in Hhi; lia|].
    rewrite Z.pow_neg_r in Hhi by lia. lia. }
  destruct (Z.lt_trichotomy (Zpos (digits2_pos m)) d) as [Hlt|[Heq|Hgt]].
  - assert (2 ^ Zpos (digits2_pos m) <= 2 ^ (d - 1)) by (apply Z.pow_le_mono_r; lia).
    lia.
  - assumption.
  - assert (2 ^ d <= 2 ^ (Zpos (digits2_pos m) - 1)) by (apply Z.pow_le_mono_r; lia).
    lia.
Qed.

Lemma iter_pos_nat {A : Type} (f : A -> A) (p : positive) (x : A) :
  iter_pos f p x = Nat.iter (Pos.to_nat p) f x.
Proof.
  revert x. induction p as [p IH|p IH|]; intros x; cbn [iter_pos].
  - rewrite !IH, Pos2Nat.inj_xI.
    replace (S (2 * Pos.to_nat p))%nat with (Pos.to_nat p + S (Pos.to_nat p))%nat by lia.
    rewrite Nat.iter_add, Nat.iter_succ_r. reflexivity.
  - rewrite !IH, Pos2Nat.inj_xO.
    replace (2 * Pos.to_nat p)%nat with (Pos.to_nat p + Pos.to_nat p)%nat by lia.
    now rewrite Nat.iter_add.
  - reflexivity.
Qed.

Lemma shr_1_spec (m : Z) (r s : bool) :
  0 <= m ->
  shr_1 {| shr_m := m; shr_r := r; shr_s := s |}
  = {| shr_m := m / 2; shr_r := Z.odd m; shr_s := r || s |}.
Proof.
  intros Hm. destruct m as [|p|p]; [reflexivity| |lia].
  destruct p as [p|p|]; cbn [shr_1 Z.odd].
  - replace (Z.pos p~1 / 2) with (Z.pos p); [reflexivity|].
    rewrite Pos2Z.inj_xI. apply (Z.div_unique _ _ _ 1); lia.
  - replace (Z.pos p~0 / 2) with (Z.pos p); [reflexivity|].
    rewrite Pos2Z.inj_xO. apply (Z.div_unique _ _ _ 0); lia.
  - reflexivity.
Qed.

(** Shifting right [n] times an exact record: the quotient, and no lost bit
    recorded when none was set. *)
Lemma shr_iter_spec (m : Z) (n : nat) :
  0 <= m ->
  let mrs := Nat.iter n shr_1 {| shr_m := m; shr_r := false; shr_s := false |} in
  shr_m mrs = m / 2 ^ Z.of_nat n
  /\ (m mod 2 ^ Z.of_nat n = 0 -> shr_r mrs = false /\ shr_s mrs = false).
Proof.
  intros Hm. induction n as [|n IH].
  - cbn. split; [now rewrite Z.div_1_r | auto].
  - cbn zeta in *. rewrite Nat.iter_succ.
    destruct IH as [IHm IHe].
    destruct (Nat.iter n shr_1 _) as [mn rn sn] eqn:En. cbn [shr_m shr_r shr_s] in *.
    assert (Hp : 0 < 2 ^ Z.of_nat n) by (apply Z.pow_pos_nonneg; lia).
    assert (Hmn : 0 <= mn) by (subst mn; apply Z.div_pos; lia).
    rewrite shr_1_spec by assumption. cbn [shr_m shr_r shr_s].
    rewrite Nat2Z.inj_succ, Z.pow_succ_r by lia.
    split.
    + subst mn. rewrite Z.div_div by lia. f_equal. lia.
    + intros Hz.
      assert (Hd : m = 2 ^ Z.of_nat n * (2 * (m / (2 * 2 ^ Z.of_nat n)))).
      { pose proof (Z.div_mod m (2 * 2 ^ Z.of_nat n) ltac:(lia)). lia. }
      assert (E0 : m mod 2 ^ Z.of_nat n = 0).
      { rewrite Hd at 1. rewrite Z.mul_comm. apply Z.mod_mul. lia. }
      destruct (IHe E0) as [-> ->]. split; [|reflexivity].
      subst mn. rewrite Hd at 1. rewrite Z.mul_comm, Z.div_mul by lia.
      rewrite Z.odd_mul. reflexivity.
Qed.

Lemma fexp_eq (z : Z) : fexp prec emax z = Z.max (z - 53) (-1074).
Proof. reflexivity. Qed.

Lemma canonical_spec (m : positive) (e : Z) :
  canonical m e <->
  e = Z.max (Zpos (digits2_pos m) + e - 53) (-1074) /\ e <= 971.
Proof.
  unfold canonical, bounded, canonical_mantissa.
  rewrite andb_true_iff, Z.eqb_eq, Z.leb_le, fexp_eq.
  change (emax - prec) with 971. intuition lia.
Qed.

Lemma canonical_range (m : positive) (e : Z) :
  canonical m e ->
  -1074 <= e <= 971 /\ Zpos m < 2 ^ 53 /\ (-1074 < e -> 2 ^ 52 <= Zpos m).
Proof.
  intros Hc. apply canonical_spec in Hc. destruct Hc as [He Hle].
  pose proof (digits2_pos_bounds m) as [Blo Bhi].
  split; [lia|]. split.
  - assert (2 ^ Zpos (digits2_pos m) <= 2 ^ 53) by (apply Z.pow_le_mono_r; lia).
    lia.
  - intros Hlt. replace 52 with (Zpos (digits2_pos m) - 1) by lia. exact Blo.
Qed.

Lemma mag_pos (m : positive) (e : Z) : -1074 <= e -> 0 < mag m e.
Proof.
  intros He. unfold mag.
  assert (0 < 2 ^ (e + 1074)) by (apply Z.pow_pos_nonneg; lia). lia.
Qed.

Lemma pow2_pos (n : Z) : 0 <= n -> 0 < 2 ^ n.
Proof. intros. apply Z.pow_pos_nonneg; lia. Qed.

Lemma pow2_add (a b : Z) : 0 <= a -> 0 <= b -> 2 ^ (a + b) = 2 ^ a * 2 ^ b.
Proof. intros. now apply Z.pow_add_r. Qed.

(** A canonical number with the larger exponent is the larger number. *)
Lemma canonical_exponent_lt (m m' : positive) (e e' : Z) :
  canonical m e -> canonical m' e' -> e < e' -> mag m e < mag m' e'.
Proof.
  intros Hc Hc' Hlt.
  destruct (canonical_range _ _ Hc) as (Hr & Hm & _).
  destruct (canonical_range _ _ Hc') as (Hr' & _ & Hn').
  specialize (Hn' ltac:(lia)). unfold mag.
  replace (e' + 1074) with ((e' - e - 1) + 1 + (e + 1074)) by lia.
  rewrite (pow2_add (e' - e - 1 + 1) (e + 1074)) by lia.
  rewrite (pow2_add (e' - e - 1) 1) by lia.
  pose proof (pow2_pos (e + 1074) ltac:(lia)) as HB.
  pose proof (pow2_pos (e' - e - 1) ltac:(lia)) as HP.
  set (B := 2 ^ (e + 1074)) in *. set (P := 2 ^ (e' - e - 1)) in *.
  change (2 ^ 1) with 2. change (2 ^ 53) with 9007199254740992 in *.
  change (2 ^ 52) with 4503599627370496 in *.
  assert (H1 : Zpos m * B < 9007199254740992 * B)
    by (apply Z.mul_lt_mono_pos_r; lia).
  assert (H2 : 9007199254740992 * B <= Zpos m' * 2 * B)
    by (apply Z.mul_le_mono_nonneg_r; lia).
  assert (H3 : Zpos m' * 2 * B <= Zpos m' * 2 * B * P).
  { assert (0 <= Zpos m' * 2 * B) by lia.
    generalize dependent (Zpos m' * 2 * B). intros Q; intros. nia. }
  replace (Zpos m' * (P * 2 * B)) with (Zpos m' * 2 * B * P) by ring.
  lia.
Qed.

Lemma canonical_unique (m m' : positive) (e e' : Z) :
  canonical m e -> canonical m' e' -> mag m e = mag m' e' ->
  m = m' /\ e = e'.
Proof.
  intros Hc Hc' Hv.
  destruct (Z.lt_trichotomy e e') as [Hlt|[Heq|Hgt]].
  - pose proof (canonical_exponent_lt _ _ _ _ Hc Hc' Hlt). lia.
  - subst e'. split; [|reflexivity]. unfold mag in Hv.
    destruct (canonical_range _ _ Hc) as (Hr & _).
    pose proof (pow2_pos (e + 1074) ltac:(lia)).
    apply Z.mul_cancel_r in Hv; [congruence | lia].
  - pose proof (canonical_exponent_lt _ _ _ _ Hc' Hc Hgt). lia.
Qed.

Lemma iter_xO_value (m p : positive) :
  Zpos (Pos.iter xO m p) = Zpos m * 2 ^ Zpos p.
Proof.
  change (Pos.iter xO m p) with (shift_pos p m).
  rewrite shift_pos_correct, Zpower_pos_nat, Zpower_nat_Z, positive_nat_Z. lia.
Qed.

Lemma digits2_pos_shift (m p : positive) :
  Zpos (digits2_pos (Pos.iter xO m p)) = Zpos (digits2_pos m) + Zpos p.
Proof.
  apply digits2_pos_unique. rewrite iter_xO_value.
  pose proof (digits2_pos_bounds m) as [Blo Bhi].
  replace (Zpos (digits2_pos m) + Zpos p - 1)
    with ((Zpos (digits2_pos m) - 1) + Zpos p) by lia.
  rewrite (pow2_add (Zpos (digits2_pos m) - 1) (Zpos p)) by lia.
  rewrite (pow2_add (Zpos (digits2_pos m)) (Zpos p)) by lia.
  pose proof (pow2_pos (Zpos p) ltac:(lia)). nia.
Qed.

(** Rounding a mantissa that is already in canonical position. *)
Lemma round_aux_canonical (sx : bool) (mz : positive) (ez : Z) :
  fexp prec emax (Zpos (digits2_pos mz) + ez) = ez ->
  binary_round_aux prec emax sx (Zpos mz) ez loc_Exact
  = if ez <=? 971 then S754_finite sx mz ez else S754_infinity sx.
Proof.
  intros Hf. unfold binary_round_aux, shr_fexp. cbn [Zdigits2].
  rewrite Hf, Z.sub_diag. cbn [shr shr_record_of_loc shr_m loc_of_shr_record
                               round_nearest_even Zdigits2].
  rewrite Hf, Z.sub_diag. cbn [shr shr_record_of_loc shr_m]. reflexivity.
Qed.

Lemma canonical_below_overflow (m : positive) (e : Z) :
  canonical m e -> mag m e < overflow_mag.
Proof.
  intros Hc. destruct (canonical_range _ _ Hc) as (Hr & Hm & _).
  unfold mag, overflow_mag.
  replace 2098 with (53 + (971 - e) + (e + 1074)) by lia.
  rewrite (pow2_add (53 + (971 - e)) (e + 1074)) by lia.
  rewrite (pow2_add 53 (971 - e)) by lia.
  pose proof (pow2_pos (e + 1074) ltac:(lia)) as HB.
  pose proof (pow2_pos (971 - e) ltac:(lia)) as HP.
  set (B := 2 ^ (e + 1074)) in *. set (P := 2 ^ (971 - e)) in *.
  assert (H1 : Zpos m * B < 2 ^ 53 * B) by (apply Z.mul_lt_mono_pos_r; lia).
  assert (H2 : 2 ^ 53 * B <= 2 ^ 53 * B * P).
  { assert (0 <= 2 ^ 53 * B) by lia.
    generalize dependent (2 ^ 53 * B). intros Q; intros. nia. }
  replace (2 ^ 53 * P * B) with (2 ^ 53 * B * P) by ring. lia.
Qed.

(** A number with a full mantissa at an exponent above 971 overflows. *)
Lemma full_mantissa_overflows (m e : Z) :
  2 ^ 52 <= m -> 971 < e -> overflow_mag <= m * 2 ^ (e + 1074).
Proof.
  intros Hm He. unfold overflow_mag.
  replace 2098 with (52 + 2046) by lia. rewrite (pow2_add 52 2046) by lia.
  assert (2 ^ 2046 <= 2 ^ (e + 1074)) by (apply Z.pow_le_mono_r; lia).
  pose proof (pow2_pos 2046 ltac:(lia)).
  apply Z.mul_le_mono_nonneg; lia.
Qed.

(** Rounding a number of at most 53 bits is exact. *)
Lemma binary_round_small (sx : bool) (mx : positive) (ex : Z) :
  -1074 <= ex -> Zpos mx < 2 ^ 53 -> mag mx ex < overflow_mag ->
  exists m e, binary_round prec emax sx mx ex = S754_finite sx m e
              /\ canonical m e /\ mag m e = mag mx ex.
Proof.
  intros Hex Hmx Hov.
  pose proof (digits2_pos_bounds mx) as [Blo Bhi].
  assert (Hd : Zpos (digits2_pos mx) <= 53).
  { destruct (Z.leb_spec (Zpos (digits2_pos mx)) 53); [assumption|].
    assert (2 ^ 53 <= 2 ^ (Zpos (digits2_pos mx) - 1))
      by (apply Z.pow_le_mono_r; lia). lia. }
  unfold binary_round. rewrite fexp_eq.
  set (e1 := Z.max (Zpos (digits2_pos mx) + ex - 53) (-1074)).
  assert (He1 : -1074 <= e1 <= ex) by (unfold e1; lia).
  assert (He2 : e1 <= 971).
  { destruct (Z.leb_spec e1 971); [assumption|]. exfalso.
    assert (Hd53 : e1 = Zpos (digits2_pos mx) + ex - 53) by (unfold e1; lia).
    assert (Hfull : 2 ^ 52 <= Zpos mx * 2 ^ (ex - e1)).
    { replace 52 with ((Zpos (digits2_pos mx) - 1) + (ex - e1)) by lia.
      rewrite (pow2_add (Zpos (digits2_pos mx) - 1) (ex - e1)) by lia.
      pose proof (pow2_pos (ex - e1) ltac:(lia)).
      apply Z.mul_le_mono_nonneg_r; lia. }
    pose proof (full_mantissa_overflows _ e1 Hfull ltac:(lia)) as Ho.
    unfold mag in Hov.
    replace (ex + 1074) with ((ex - e1) + (e1 + 1074)) in Hov by lia.
    rewrite (pow2_add (ex - e1) (e1 + 1074)) in Hov by lia.
    lia. }
  unfold shl_align. destruct (e1 - ex) as [|p|p] eqn:Ek; [| lia |].
  - assert (e1 = ex) by lia.
    rewrite round_aux_canonical by (rewrite fexp_eq; fold e1; lia).
    destruct (Z.leb_spec ex 971); [|lia].
    exists mx, ex. split; [reflexivity|]. split; [|reflexivity].
    apply canonical_spec. fold e1. lia.
  - assert (Hp : Zpos p = ex - e1) by lia.
    rewrite round_aux_canonical
      by (rewrite fexp_eq, digits2_pos_shift; unfold e1 in *; lia).
    destruct (Z.leb_spec e1 971); [|lia].
    exists (Pos.iter xO mx p), e1. split; [reflexivity|]. split.
    + apply canonical_spec. rewrite digits2_pos_shift. unfold e1 in *. lia.
    + unfold mag. rewrite iter_xO_value, Hp.
      replace (ex + 1074) with ((ex - e1) + (e1 + 1074)) by lia.
      rewrite (pow2_add (ex - e1) (e1 + 1074)) by lia. ring.
Qed.

Lemma round_nearest_even_cases (q : Z) (mrs : shr_record) :
  shr_m mrs = q ->
  round_nearest_even (shr_m mrs) (loc_of_shr_record mrs) = q
  \/ (round_nearest_even (shr_m mrs) (loc_of_shr_record mrs) = q + 1
      /\ (shr_r mrs = true \/ shr_s mrs = true)).
Proof.
  intros <-. destruct mrs as [m [|] [|]]; cbn; auto.
  destruct (Z.even m); auto.
Qed.

(** Rounding a number of more than 53 bits: the mantissa is cut to 53 bits,
    and goes up by at most one unit, only if a bit was cut off. *)
Lemma binary_round_large (sx : bool) (mx : positive) (ex : Z) :
  -1074 <= ex -> 53 < Zpos (digits2_pos mx) ->
  exists q',
    2 ^ 52 <= Zpos mx / 2 ^ (Zpos (digits2_pos mx) - 53) < 2 ^ 53
    /\ (q' = Zpos mx / 2 ^ (Zpos (digits2_pos mx) - 53)
        \/ (q' = Zpos mx / 2 ^ (Zpos (digits2_pos mx) - 53) + 1
            /\ Zpos mx mod 2 ^ (Zpos (digits2_pos mx) - 53) <> 0))
    /\ binary_round prec emax sx mx ex
       = if q' <? 2 ^ 53
         then (if ex + (Zpos (digits2_pos mx) - 53) <=? 971
               then S754_finite sx (Z.to_pos q') (ex + (Zpos (digits2_pos mx) - 53))
               else S754_infinity sx)
         else (if ex + (Zpos (digits2_pos mx) - 53) + 1 <=? 971
               then S754_finite sx (Z.to_pos (2 ^ 52))
                                (ex + (Zpos (digits2_pos mx) - 53) + 1)
               else S754_infinity sx).
Proof.
  intros Hex Hd.
  pose proof (digits2_pos_bounds mx) as [Blo Bhi].
  set (d := Zpos (digits2_pos mx)) in *.
  set (k := d - 53). assert (Hk : 0 < k) by (unfold k; lia).
  assert (HG : 0 < 2 ^ k) by (apply pow2_pos; lia).
  set (q := Zpos mx / 2 ^ k).
  assert (Hq : 2 ^ 52 <= q < 2 ^ 53).
  { unfold q. split.
    - apply Z.div_le_lower_bound; [lia|].
      replace (d - 1) with (k + 52) in Blo by (unfold k; lia).
      rewrite (pow2_add k 52) in Blo by lia. lia.
    - apply Z.div_lt_upper_bound; [lia|].
      replace d with (k + 53) in Bhi by (unfold k; lia).
      rewrite (pow2_add k 53) in Bhi by lia. lia. }
  unfold binary_round. rewrite fexp_eq. fold d.
  replace (Z.max (d + ex - 53) (-1074)) with (ex + k) by (unfold k; lia).
  unfold shl_align.
  destruct (ex + k - ex) as [|pk|pk] eqn:Ek; [lia| |lia].
  assert (Hpk : Zpos pk = k) by lia.
  unfold binary_round_aux, shr_fexp at 1. cbn [Zdigits2]. rewrite fexp_eq. fold d.
  replace (Z.max (d + ex - 53) (-1074) - ex) with (Zpos pk) by (unfold k in *; lia).
  cbn [shr shr_record_of_loc]. rewrite iter_pos_nat.
  pose proof (shr_iter_spec (Zpos mx) (Pos.to_nat pk) ltac:(lia)) as Hs.
  cbn zeta in Hs. rewrite positive_nat_Z, Hpk in Hs. fold q in Hs.
  destruct Hs as [Hm Hflags].
  set (mrs := Nat.iter (Pos.to_nat pk) shr_1 _) in *.
  destruct (round_nearest_even_cases q mrs Hm) as [Hr|[Hr Hf]].
  - (* the mantissa stays q *)
    exists q. split; [exact Hq|]. split; [now left|].
    rewrite Hr. destruct (Z.ltb_spec q (2 ^ 53)); [|lia].
    destruct q as [|pq|pq] eqn:Eq; [lia| |lia].
    assert (Hdq : Zpos (digits2_pos pq) = 53)
      by (apply digits2_pos_unique; change (53 - 1) with 52; lia).
    unfold shr_fexp. cbn [Zdigits2]. rewrite fexp_eq, Hdq.
    replace (Z.max (53 + (ex + Zpos pk) - 53) (-1074) - (ex + Zpos pk)) with 0 by lia.
    cbn [shr shr_record_of_loc shr_m]. rewrite Hpk.
    change (emax - prec) with 971. cbn [Z.to_pos]. reflexivity.
  - (* the mantissa goes up to q + 1 *)
    exists (q + 1). split; [exact Hq|]. split.
    { right. split; [reflexivity|]. intros Hz.
      destruct (Hflags Hz) as [Hfr Hfs]. rewrite Hfr, Hfs in Hf.
      destruct Hf; discriminate. }
    rewrite Hr. destruct (Z.ltb_spec (q + 1) (2 ^ 53)) as [Hlt|Hge].
    + destruct (q + 1) as [|pq|pq] eqn:Eq; [lia| |lia].
      assert (Hdq : Zpos (digits2_pos pq) = 53)
        by (apply digits2_pos_unique; change (53 - 1) with 52; lia).
      unfold shr_fexp. cbn [Zdigits2]. rewrite fexp_eq, Hdq.
      replace (Z.max (53 + (ex + Zpos pk) - 53) (-1074) - (ex + Zpos pk)) with 0 by lia.
      cbn [shr shr_record_of_loc shr_m]. rewrite Hpk.
      change (emax - prec) with 971. cbn [Z.to_pos]. reflexivity.
    + assert (Eq : q + 1 = 2 ^ 53) by lia. rewrite Eq.
      unfold shr_fexp. change (Zdigits2 (2 ^ 53)) with 54. rewrite fexp_eq.
      replace (Z.max (54 + (ex + Zpos pk) - 53) (-1074) - (ex + Zpos pk)) with 1 by lia.
      rewrite Hpk. change (emax - prec) with 971. reflexivity.
Qed.

(** A canonical number is a multiple of any power of two up to its own unit,
    and is below the 53-bit numbers of any coarser unit. *)
Lemma canonical_on_grid (m : positive) (e g : Z) :
  canonical m e -> 0 <= g ->
  (exists c, mag m e = c * 2 ^ g) \/ mag m e < 2 ^ 52 * 2 ^ g.
Proof.
  intros Hc Hg. destruct (canonical_range _ _ Hc) as (Hr & Hm & _).
  destruct (Z.leb_spec g (e + 1074)) as [Hle|Hgt].
  - left. exists (Zpos m * 2 ^ (e + 1074 - g)). unfold mag.
    replace (e + 1074) with ((e + 1074 - g) + g) at 1 by lia.
    rewrite (pow2_add (e + 1074 - g) g) by lia. ring.
  - right. unfold mag.
    replace g with ((g - 1 - (e + 1074)) + 1 + (e + 1074)) by lia.
    rewrite (pow2_add (g - 1 - (e + 1074) + 1) (e + 1074)) by lia.
    rewrite (pow2_add (g - 1 - (e + 1074)) 1) by lia.
    pose proof (pow2_pos (e + 1074) ltac:(lia)) as HB.
    pose proof (pow2_pos (g - 1 - (e + 1074)) ltac:(lia)) as HP.
    set (B := 2 ^ (e + 1074)) in *. set (P := 2 ^ (g - 1 - (e + 1074))) in *.
    change (2 ^ 1) with 2.
    assert (H1 : Zpos m * B < 2 ^ 53 * B) by (apply Z.mul_lt_mono_pos_r; lia).
    assert (H2 : 2 ^ 53 * B <= 2 ^ 53 * B * P).
    { assert (0 <= 2 ^ 53 * B) by lia.
      generalize dependent (2 ^ 53 * B). intros Q; intros. nia. }
    replace (2 ^ 52 * (P * 2 * B)) with (2 ^ 53 * B * P)
      by (change (2 ^ 53) with (2 ^ 52 * 2); ring).
    lia.
Qed.

(** Rounding stays between any two numbers of the format that enclose the
    exact value; in particular it does not overflow. *)
Lemma binary_round_between (sx : bool) (mx : positive) (ex : Z)
      (ml : positive) (el : Z) (mh : positive) (eh : Z) :
  -1074 <= ex -> canonical ml el -> canonical mh eh ->
  mag ml el <= mag mx ex <= mag mh eh ->
  exists m e, binary_round prec emax sx mx ex = S754_finite sx m e
              /\ canonical m e /\ mag ml el <= mag m e <= mag mh eh.
Proof.
  intros Hex Hl Hh [Hlo Hhi].
  pose proof (canonical_below_overflow _ _ Hh) as Hov.
  destruct (Z.leb_spec (Zpos (digits2_pos mx)) 53) as [Hd|Hd].
  - pose proof (digits2_pos_bounds mx) as [_ Bhi].
    assert (Zpos mx < 2 ^ 53).
    { assert (2 ^ Zpos (digits2_pos mx) <= 2 ^ 53)
        by (apply Z.pow_le_mono_r; lia). lia. }
    destruct (binary_round_small sx mx ex Hex ltac:(assumption) ltac:(lia))
      as (m & e & Er & Hc & Hv).
    exists m, e. rewrite Hv. auto.
  - destruct (binary_round_large sx mx ex Hex Hd) as (q' & Hq & Hq' & Er).
    set (k := Zpos (digits2_pos mx) - 53) in *.
    assert (Hk : 0 < k) by (unfold k; lia).
    set (q := Zpos mx / 2 ^ k) in *.
    set (G := 2 ^ (k + (ex + 1074))).
    assert (HG : 0 < G) by (apply pow2_pos; lia).
    assert (Hv : mag mx ex = Zpos mx * 2 ^ (ex + 1074)) by reflexivity.
    assert (HGk : G = 2 ^ k * 2 ^ (ex + 1074))
      by (unfold G; apply pow2_add; lia).
    pose proof (pow2_pos k ltac:(lia)) as Hpk.
    pose proof (pow2_pos (ex + 1074) ltac:(lia)) as HpE.
    pose proof (Z.div_mod (Zpos mx) (2 ^ k) ltac:(lia)) as Hdm.
    pose proof (Z.mod_pos_bound (Zpos mx) (2 ^ k) ltac:(lia)) as Hmb.
    fold q in Hdm.
    (* the exact value lies in the cell [q G, (q + 1) G) *)
    assert (Hcell : q * G <= mag mx ex < (q + 1) * G).
    { rewrite Hv, HGk. split.
      - replace (q * (2 ^ k * 2 ^ (ex + 1074)))
          with ((2 ^ k * q) * 2 ^ (ex + 1074)) by ring.
        apply Z.mul_le_mono_nonneg_r; lia.
      - replace ((q + 1) * (2 ^ k * 2 ^ (ex + 1074)))
          with ((2 ^ k * q + 2 ^ k) * 2 ^ (ex + 1074)) by ring.
        apply Z.mul_lt_mono_pos_r; lia. }
    assert (Hup : q' = q + 1 -> q * G < mag mx ex).
    { intros E. destruct Hq' as [E'|[_ Hnz]]; [lia|].
      rewrite Hv, HGk.
      replace (q * (2 ^ k * 2 ^ (ex + 1074)))
        with ((2 ^ k * q) * 2 ^ (ex + 1074)) by ring.
      apply Z.mul_lt_mono_pos_r; lia. }
    assert (Hfull : 2 ^ 52 * G <= q * G)
      by (apply Z.mul_le_mono_nonneg_r; lia).
    (* the lower bound is at most q G *)
    assert (HA : mag ml el <= q * G).
    { destruct (canonical_on_grid ml el (k + (ex + 1074)) Hl ltac:(lia))
        as [[c Hc]|Hs]; [fold G in Hc | fold G in Hs; lia].
      rewrite Hc in *.
      assert (c < q + 1) by (apply (Z.mul_lt_mono_pos_r G); lia).
      apply Z.mul_le_mono_nonneg_r; lia. }
    (* the rounded value is at most the upper bound *)
    assert (HB : q' * G <= mag mh eh).
    { destruct (Z.eq_dec q' q) as [->|Hne]; [lia|].
      assert (Eq : q' = q + 1) by (destruct Hq' as [?|[? _]]; [congruence|assumption]).
      specialize (Hup Eq).
      destruct (canonical_on_grid mh eh (k + (ex + 1074)) Hh ltac:(lia))
        as [[c Hc]|Hs]; [fold G in Hc | fold G in Hs; lia].
      rewrite Hc in *.
      assert (q < c) by (apply (Z.mul_lt_mono_pos_r G); lia).
      rewrite Eq. apply Z.mul_le_mono_nonneg_r; lia. }
    assert (HA' : mag ml el <= q' * G).
    { assert (q * G <= q' * G); [|lia].
      apply Z.mul_le_mono_nonneg_r; [lia|].
      destruct Hq' as [?|[? _]]; lia. }
    assert (Hq'r : 2 ^ 52 <= q' <= 2 ^ 53) by (destruct Hq' as [?|[? _]]; lia).
    rewrite Er. destruct (Z.ltb_spec q' (2 ^ 53)) as [Hlt|Hge].
    + destruct (Z.leb_spec (ex + k) 971) as [He|He].
      * exists (Z.to_pos q'), (ex + k).
        assert (Ep : Zpos (Z.to_pos q') = q') by (apply Z2Pos.id; lia).
        split; [reflexivity|]. split.
        -- apply canonical_spec.
           assert (Zpos (digits2_pos (Z.to_pos q')) = 53)
             by (apply digits2_pos_unique; rewrite Ep; change (53 - 1) with 52; lia).
           lia.
        -- unfold mag at 2 3. rewrite Ep.
           replace (ex + k + 1074) with (k + (ex + 1074)) by lia. fold G. lia.
      * exfalso.
        pose proof (full_mantissa_overflows q' (ex + k) ltac:(lia) He) as Ho.
        replace (ex + k + 1074) with (k + (ex + 1074)) in Ho by lia.
        fold G in Ho. lia.
    + assert (Eq : q' = 2 ^ 53) by lia.
      assert (E2 : q' * G = 2 ^ 52 * 2 ^ (ex + k + 1 + 1074)).
      { rewrite Eq. unfold G.
        replace (ex + k + 1 + 1074) with (1 + (k + (ex + 1074))) by lia.
        rewrite (pow2_add 1 (k + (ex + 1074))) by lia.
        change (2 ^ 53) with (2 ^ 52 * 2 ^ 1). ring. }
      destruct (Z.leb_spec (ex + k + 1) 971) as [He|He].
      * exists (Z.to_pos (2 ^ 52)), (ex + k + 1).
        split; [reflexivity|]. split.
        -- apply canonical_spec.
           change (Zpos (digits2_pos (Z.to_pos (2 ^ 52)))) with 53. lia.
        -- unfold mag at 2 3. change (Zpos (Z.to_pos (2 ^ 52))) with (2 ^ 52).
           rewrite <- E2. lia.
      * exfalso.
        pose proof (full_mantissa_overflows (2 ^ 52) (ex + k + 1) ltac:(lia) He) as Ho.
        rewrite <- E2 in Ho. lia.
Qed.

(** Rounding a number of the format gives that number. *)
Lemma binary_round_exact (sx : bool) (mx : positive) (ex : Z)
      (m : positive) (e : Z) :
  -1074 <= ex -> canonical m e -> mag mx ex = mag m e ->
  binary_round prec emax sx mx ex = S754_finite sx m e.
Proof.
  intros Hex Hc Hv.
  destruct (binary_round_between sx mx ex m e m e Hex Hc Hc ltac:(lia))
    as (m' & e' & Er & Hc' & Hb).
  destruct (canonical_unique m' m e' e Hc' Hc ltac:(lia)) as [-> ->].
  exact Er.
Qed.

(** ** Addition and subtraction of positive binary64 numbers *)

Lemma shl_align_fst (mx : positive) (ex ez : Z) :
  ez <= ex -> Zpos (fst (shl_align mx ex ez)) = Zpos mx * 2 ^ (ex - ez).
Proof.
  intros Hle. unfold shl_align. destruct (ez - ex) as [|p|p] eqn:Ek.
  - replace (ex - ez) with 0 by lia. cbn [fst]. lia.
  - lia.
  - cbn [fst]. rewrite iter_xO_value. f_equal. f_equal. lia.
Qed.

Lemma aligned_value (mx : positive) (ex : Z) (my : positive) (ey : Z) (sub : bool) :
  -1074 <= ex -> -1074 <= ey ->
  aligned mx ex my ey sub * 2 ^ (Z.min ex ey + 1074)
  = if sub then mag mx ex - mag my ey else mag mx ex + mag my ey.
Proof.
  intros Hx Hy. unfold aligned, mag. set (ez := Z.min ex ey).
  assert (Hz : -1074 <= ez <= ex /\ ez <= ey) by (unfold ez; lia).
  replace (ex + 1074) with ((ex - ez) + (ez + 1074)) by lia.
  replace (ey + 1074) with ((ey - ez) + (ez + 1074)) by lia.
  rewrite (pow2_add (ex - ez) (ez + 1074)), (pow2_add (ey - ez) (ez + 1074)) by lia.
  destruct sub; ring.
Qed.

Lemma SFsub_aligned (mx : positive) (ex : Z) (my : positive) (ey : Z) :
  SFsub prec emax (S754_finite false mx ex) (S754_finite false my ey)
  = binary_normalize prec emax (aligned mx ex my ey true) (Z.min ex ey) false.
Proof.
  cbn [SFsub cond_Zopp]. unfold aligned.
  rewrite !shl_align_fst by lia. reflexivity.
Qed.

Lemma SFadd_aligned (mx : positive) (ex : Z) (my : positive) (ey : Z) :
  SFadd prec emax (S754_finite false mx ex) (S754_finite false my ey)
  = binary_normalize prec emax (aligned mx ex my ey false) (Z.min ex ey) false.
Proof.
  cbn [SFadd cond_Zopp]. unfold aligned.
  rewrite !shl_align_fst by lia. reflexivity.
Qed.

Section PositiveOperands.
Variables (mx : positive) (ex : Z) (my : positive) (ey : Z).
Hypothesis Hx : canonical mx ex.
Hypothesis Hy : canonical my ey.

Let x := S754_finite false mx ex.
Let y := S754_finite false my ey.

Lemma exponents_in_range : -1074 <= ex /\ -1074 <= ey.
Proof.
  destruct (canonical_range _ _ Hx) as (? & _).
  destruct (canonical_range _ _ Hy) as (? & _). lia.
Qed.

(** The smallest positive number of the format. *)
Lemma canonical_least : canonical 1 (-1074).
Proof. reflexivity. Qed.

Lemma mag_least : mag 1 (-1074) = 1.
Proof. reflexivity. Qed.

(** A difference that is not positive is not a positive number. *)
Lemma SFsub_not_positive :
  mag mx ex <= mag my ey ->
  SFltb (S754_zero false) (SFsub prec emax x y) = false.
Proof.
  intros Hle. destruct exponents_in_range as [Ex Ey].
  unfold x, y. rewrite SFsub_aligned.
  pose proof (aligned_value mx ex my ey true Ex Ey) as Hv. cbn beta iota in Hv.
  pose proof (pow2_pos (Z.min ex ey + 1074) ltac:(lia)) as Hp.
  destruct (aligned mx ex my ey true) as [|p|p] eqn:Ea; cbn [binary_normalize].
  - reflexivity.
  - exfalso. nia.
  - destruct (binary_round_between true p (Z.min ex ey) 1 (-1074) my ey
                ltac:(lia) canonical_least Hy) as (m & e & Er & _).
    { rewrite mag_least. unfold mag at 1 2.
      pose proof (mag_pos mx ex Ex). nia. }
    rewrite Er. reflexivity.
Qed.

(** A positive difference rounds to a positive number between any two
    numbers of the format that enclose it. *)
Lemma SFsub_between (ml : positive) (el : Z) (mh : positive) (eh : Z) :
  canonical ml el -> canonical mh eh ->
  mag ml el <= mag mx ex - mag my ey <= mag mh eh ->
  exists m e, SFsub prec emax x y = S754_finite false m e
              /\ canonical m e /\ mag ml el <= mag m e <= mag mh eh.
Proof.
  intros Hl Hh Hb. destruct exponents_in_range as [Ex Ey].
  unfold x, y. rewrite SFsub_aligned.
  pose proof (aligned_value mx ex my ey true Ex Ey) as Hv. cbn beta iota in Hv.
  pose proof (pow2_pos (Z.min ex ey + 1074) ltac:(lia)) as Hp.
  destruct (canonical_range _ _ Hl) as (Hrl & _).
  pose proof (mag_pos ml el ltac:(lia)) as Hlpos.
  destruct (aligned mx ex my ey true) as [|p|p] eqn:Ea; cbn [binary_normalize].
  - exfalso. lia.
  - apply binary_round_between; [lia | assumption | assumption |].
    unfold mag at 2 3. rewrite Hv. exact Hb.
  - exfalso. nia.
Qed.

(** A positive difference that is a number of the format is computed
    exactly. *)
Lemma SFsub_exact (m : positive) (e : Z) :
  canonical m e -> mag mx ex - mag my ey = mag m e ->
  SFsub prec emax x y = S754_finite false m e.
Proof.
  intros Hc Hv.
  destruct (SFsub_between m e m e Hc Hc ltac:(lia)) as (m' & e' & Er & Hc' & Hb).
  destruct (canonical_unique m' m e' e Hc' Hc ltac:(lia)) as [-> ->].
  exact Er.
Qed.

(** Equal numbers have difference +0. *)
Lemma SFsub_equal :
  mag mx ex = mag my ey -> SFsub prec emax x y = S754_zero false.
Proof.
  intros He. destruct exponents_in_range as [Ex Ey].
  unfold x, y. rewrite SFsub_aligned.
  pose proof (aligned_value mx ex my ey true Ex Ey) as Hv. cbn beta iota in Hv.
  pose proof (pow2_pos (Z.min ex ey + 1074) ltac:(lia)) as Hp.
  destruct (aligned mx ex my ey true) as [|p|p] eqn:Ea; cbn [binary_normalize].
  - reflexivity.
  - exfalso. nia.
  - exfalso. nia.
Qed.

(** A positive difference below 2^53 units of the smaller exponent is
    computed exactly. *)
Lemma SFsub_small :
  0 < mag mx ex - mag my ey < 2 ^ 53 * 2 ^ (Z.min ex ey + 1074) ->
  exists m e, SFsub prec emax x y = S754_finite false m e
              /\ canonical m e /\ mag m e = mag mx ex - mag my ey.
Proof.
  intros [Hpos Hsmall]. destruct exponents_in_range as [Ex Ey].
  unfold x, y. rewrite SFsub_aligned.
  pose proof (aligned_value mx ex my ey true Ex Ey) as Hv. cbn beta iota in Hv.
  pose proof (pow2_pos (Z.min ex ey + 1074) ltac:(lia)) as Hp.
  destruct (aligned mx ex my ey true) as [|p|p] eqn:Ea; cbn [binary_normalize].
  - exfalso. lia.
  - pose proof (canonical_below_overflow _ _ Hx) as Hov.
    pose proof (mag_pos my ey Ey) as Hypos.
    destruct (binary_round_small false p (Z.min ex ey)) as (m & e & Er & Hc & Hm).
    + lia.
    + rewrite <- Hv in Hsmall.
      apply (Z.mul_lt_mono_pos_r (2 ^ (Z.min ex ey + 1074))); assumption.
    + unfold mag at 1. rewrite Hv. lia.
    + exists m, e. rewrite Hm. unfold mag at 1. rewrite Hv. auto.
  - exfalso. nia.
Qed.

(** A sum that is a number of the format is computed exactly. *)
Lemma SFadd_exact (m : positive) (e : Z) :
  canonical m e -> mag mx ex + mag my ey = mag m e ->
  SFadd prec emax x y = S754_finite false m e.
Proof.
  intros Hc Hv. destruct exponents_in_range as [Ex Ey].
  unfold x, y. rewrite SFadd_aligned.
  pose proof (aligned_value mx ex my ey false Ex Ey) as Ha. cbn beta iota in Ha.
  pose proof (pow2_pos (Z.min ex ey + 1074) ltac:(lia)) as Hp.
  pose proof (mag_pos mx ex Ex). pose proof (mag_pos my ey Ey).
  destruct (aligned mx ex my ey false) as [|p|p] eqn:Ea; cbn [binary_normalize].
  - exfalso. lia.
  - apply binary_round_exact; [lia | assumption |].
    unfold mag at 1. rewrite Ha. exact Hv.
  - exfalso. nia.
Qed.

End PositiveOperands.

(** ** The split of a block value, on the specification of binary64 *)

Section SplitSpec.
Variables (mx : positive) (ex : Z) (mt : positive) (et : Z).
Hypothesis Hx : canonical mx ex.
Hypothesis Ht : canonical mt et.

Let x := S754_finite false mx ex.
Let t := S754_finite false mt et.

Lemma halve_canonical :
  -1074 < ex -> canonical mx (ex - 1) /\ 2 * mag mx (ex - 1) = mag mx ex.
Proof.
  intros He. apply canonical_spec in Hx. split.
  - apply canonical_spec. lia.
  - unfold mag. replace (ex + 1074) with (1 + (ex - 1 + 1074)) by lia.
    rewrite (pow2_add 1 (ex - 1 + 1074)) by lia. change (2 ^ 1) with 2. ring.
Qed.

Lemma mag_below_unit (m : positive) (e : Z) :
  canonical m e -> mag m e < 2 ^ 53 * 2 ^ (e + 1074).
Proof.
  intros Hc. destruct (canonical_range _ _ Hc) as (Hr & Hm & _).
  unfold mag. apply Z.mul_lt_mono_pos_r; [apply pow2_pos; lia | assumption].
Qed.

(** Of two canonical numbers the smaller has the smaller exponent. *)
Lemma canonical_exponent_le (m m' : positive) (e e' : Z) :
  canonical m e -> canonical m' e' -> mag m e <= mag m' e' -> e <= e'.
Proof.
  intros Hc Hc' Hle. destruct (Z.leb_spec e e'); [assumption|].
  pose proof (canonical_exponent_lt _ _ _ _ Hc' Hc ltac:(lia)). lia.
Qed.

(** What is kept plus the surplus is the value, bit for bit. *)
Lemma split_conserved_spec :
  SFadd prec emax (spec_keep mx ex mt et) (spec_surplus mx ex mt et) = x.
Proof.
  destruct (canonical_range _ _ Hx) as (Hrx & Hmx & _).
  destruct (canonical_range _ _ Ht) as (Hrt & Hmt & _).
  pose proof (mag_pos mx ex ltac:(lia)) as HX.
  pose proof (mag_pos mt et ltac:(lia)) as HT.
  unfold spec_keep, spec_surplus. fold x t.
  destruct (Z.leb_spec (mag mx ex) (mag mt et)) as [Hle|Hgt].
  { (* nothing exceeds the threshold *)
    unfold x, t. rewrite (SFsub_not_positive mx ex mt et Hx Ht Hle). reflexivity. }
  assert (Hexact :
    forall md ed, SFsub prec emax x t = S754_finite false md ed ->
                  canonical md ed -> mag md ed = mag mx ex - mag mt et ->
                  SFadd prec emax
                    (SFsub prec emax x
                       (if SFltb (S754_zero false) (SFsub prec emax x t)
                        then SFsub prec emax x t else S754_zero false))
                    (if SFltb (S754_zero false) (SFsub prec emax x t)
                     then SFsub prec emax x t else S754_zero false) = x).
  { (* the difference is exact: what is kept is the threshold *)
    intros md ed Ed Hd Hv. rewrite Ed. cbn [SFltb SFcompare].
    unfold x. rewrite (SFsub_exact mx ex md ed Hx Hd mt et Ht ltac:(lia)).
    apply (SFadd_exact mt et md ed Ht Hd mx ex Hx). lia. }
  destruct (Z.eq_dec ex (-1074)) as [Emin|Hnorm].
  { (* the value is subnormal: all differences are exact *)
    assert (Het : et <= ex)
      by (apply (canonical_exponent_le mt mx); [assumption | assumption | lia]).
    destruct (SFsub_small mx ex mt et Hx Ht) as (md & ed & Ed & Hd & Hv).
    - split; [lia|]. replace (Z.min ex et) with ex by lia.
      pose proof (mag_below_unit mx ex Hx). lia.
    - apply (Hexact md ed); assumption. }
  destruct (Z.leb_spec (mag mx ex) (2 * mag mt et)) as [Hnear|Hfar].
  { (* the value is at most twice the threshold: the difference is exact *)
    destruct (SFsub_small mx ex mt et Hx Ht) as (md & ed & Ed & Hd & Hv).
    - split; [lia|].
      destruct (Z.min_spec ex et) as [[_ ->]|[_ ->]].
      + pose proof (mag_below_unit mx ex Hx). lia.
      + pose proof (mag_below_unit mt et Ht). lia.
    - apply (Hexact md ed); assumption. }
  (* the value is more than twice the threshold: the surplus is at least
     half the value, and what is kept is computed exactly *)
  destruct (halve_canonical ltac:(lia)) as [Hhalf Ehalf].
  destruct (SFsub_between mx ex mt et Hx Ht mx (ex - 1) mx ex Hhalf Hx)
    as (md & ed & Ed & Hd & Hlo & Hhi); [lia|].
  fold x t in Ed. rewrite Ed. cbn [SFltb SFcompare].
  destruct (Z.eq_dec (mag md ed) (mag mx ex)) as [Eq|Hne].
  - destruct (canonical_unique md mx ed ex Hd Hx Eq) as [-> ->].
    unfold x. rewrite (SFsub_equal mx ex mx ex Hx Hx eq_refl). reflexivity.
  - assert (Hed : ed <= ex)
      by (apply (canonical_exponent_le md mx); assumption).
    destruct (SFsub_small mx ex md ed Hx Hd) as (mk & ek & Ek & Hk & Hv).
    + split; [lia|]. replace (Z.min ex ed) with ed by lia.
      pose proof (mag_below_unit md ed Hd). lia.
    + unfold x. rewrite Ek.
      apply (SFadd_exact mk ek md ed Hk Hd mx ex Hx). lia.
Qed.

End SplitSpec.

(** ** From the specification to the primitive floats *)

Lemma positive_finite_spec (x : float) :
  positive_finite x ->
  exists m e, Prim2SF x = S754_finite false m e /\ canonical m e.
Proof.
  intros [Hpos Hfin]. rewrite FloatAxioms.ltb_spec in Hpos, Hfin.
  pose proof (Prim2SF_valid x) as Hv.
  change (Prim2SF 0) with (S754_zero false) in Hpos.
  change (Prim2SF infinity) with (S754_infinity false) in Hfin.
  destruct (Prim2SF x) as [s|s| |s m e]; try discriminate.
  - destruct s; discriminate.
  - destruct s; [discriminate|]. exists m, e. split; [reflexivity | exact Hv].
Qed.

(** ** Doubling and dividing back *)

Section SumBetween.
Variables (mx : positive) (ex : Z) (my : positive) (ey : Z).
Hypothesis Hx : canonical mx ex.
Hypothesis Hy : canonical my ey.

(** A sum rounds to a number between any two numbers of the format that
    enclose it. *)
Lemma SFadd_between (ml : positive) (el : Z) (mh : positive) (eh : Z) :
  canonical ml el -> canonical mh eh ->
  mag ml el <= mag mx ex + mag my ey <= mag mh eh ->
  exists m e,
    SFadd prec emax (S754_finite false mx ex) (S754_finite false my ey)
    = S754_finite false m e
    /\ canonical m e /\ mag ml el <= mag m e <= mag mh eh.
Proof.
  intros Hl Hh Hb.
  destruct (exponents_in_range mx ex my ey Hx Hy) as [Ex Ey].
  rewrite SFadd_aligned.
  pose proof (aligned_value mx ex my ey false Ex Ey) as Hv. cbn beta iota in Hv.
  pose proof (pow2_pos (Z.min ex ey + 1074) ltac:(lia)) as Hp.
  pose proof (mag_pos mx ex Ex). pose proof (mag_pos my ey Ey).
  destruct (aligned mx ex my ey false) as [|p|p] eqn:Ea; cbn [binary_normalize].
  - exfalso. lia.
  - apply binary_round_between; [lia | assumption | assumption |].
    unfold mag at 2 3. rewrite Hv. exact Hb.
  - exfalso. nia.
Qed.

End SumBetween.

Lemma SFsub_self (s : bool) (m : positive) (e : Z) :
  SFsub prec emax (S754_finite s m e) (S754_finite s m e) = S754_zero false.
Proof.
  cbn [SFsub]. now rewrite Z.sub_diag.
Qed.

Lemma round_aux_is_round (sx : bool) (mx : positive) (ex : Z) :
  53 < Zpos (digits2_pos mx) ->
  binary_round_aux prec emax sx (Zpos mx) ex loc_Exact
  = binary_round prec emax sx mx ex.
Proof.
  intros Hd. unfold binary_round, shl_align. rewrite fexp_eq.
  destruct (Z.max (Zpos (digits2_pos mx) + ex - 53) (-1074) - ex) eqn:E;
    [reflexivity | reflexivity | lia].
Qed.

(** Twice a normal number below 2^1023 is computed exactly. *)
Lemma SFmul_two (ma : positive) (ea : Z) :
  canonical ma ea -> -1023 <= ea <= 970 ->
  SFmul prec emax (S754_finite false 4503599627370496 (-51))
                  (S754_finite false ma ea)
  = S754_finite false ma (ea + 1).
Proof.
  intros Hc He. destruct (canonical_range _ _ Hc) as (_ & Hm & Hn).
  specialize (Hn ltac:(lia)).
  cbn [SFmul xorb].
  assert (Hd : Zpos (digits2_pos (4503599627370496 * ma)) = 105).
  { apply digits2_pos_unique. rewrite Pos2Z.inj_mul.
    change (Zpos 4503599627370496) with (2 ^ 52).
    change (105 - 1) with (52 + 52). change 105 with (52 + 53).
    rewrite (pow2_add 52 52), (pow2_add 52 53) by lia.
    pose proof (pow2_pos 52 ltac:(lia)). split.
    - apply Z.mul_le_mono_nonneg_l; lia.
    - apply Z.mul_lt_mono_pos_l; lia. }
  rewrite round_aux_is_round by lia.
  apply binary_round_exact; [lia | |].
  - apply canonical_spec. apply canonical_spec in Hc. lia.
  - unfold mag. rewrite Pos2Z.inj_mul.
    change (Zpos 4503599627370496) with (2 ^ 52).
    replace (ea + 1 + 1074) with (52 + (-51 + ea + 1074)) by lia.
    rewrite (pow2_add 52 (-51 + ea + 1074)) by lia. ring.
Qed.

(** Twice a number divided by that number is 2. *)
Lemma SFdiv_double (ma : positive) (ea : Z) :
  SFdiv prec emax (S754_finite false ma (ea + 1)) (S754_finite false ma ea)
  = S754_finite false 4503599627370496 (-51).
Proof.
  cbn [SFdiv xorb]. unfold SFdiv_core_binary. cbn [Zdigits2].
  replace (Zpos (digits2_pos ma) + (ea + 1) - (Zpos (digits2_pos ma) + ea))
    with 1 by lia.
  replace (ea + 1 - ea) with 1 by lia.
  change (Z.min (fexp prec emax 1) 1) with (-52).
  change (1 - -52) with 53.
  rewrite Z.shiftl_mul_pow2 by lia.
  assert (E : Z.div_eucl (Zpos ma * 2 ^ 53) (Zpos ma) = (2 ^ 53, 0)).
  { assert (Ed : forall a b, Z.div_eucl a b = (a / b, a mod b)).
    { intros a b. unfold Z.div, Z.modulo. now destruct (Z.div_eucl a b). }
    rewrite Ed, (Z.mul_comm (Zpos ma)), Z.div_mul, Z.mod_mul by lia.
    reflexivity. }
  assert (El : new_location (Zpos ma) 0 = loc_Exact)
    by (unfold new_location; destruct (Z.even (Zpos ma)); reflexivity).
  rewrite E, El. reflexivity.
Qed.

(** For positive canonical numbers the comparison of the format is the
    comparison of the values. *)
Lemma SFleb_mag (m1 : positive) (e1 : Z) (m2 : positive) (e2 : Z) :
  canonical m1 e1 -> canonical m2 e2 ->
  SFleb (S754_finite false m1 e1) (S754_finite false m2 e2) = true ->
  mag m1 e1 <= mag m2 e2.
Proof.
  intros H1 H2. unfold SFleb. cbn [SFcompare].
  destruct (Z.compare_spec e1 e2) as [E|E|E].
  - subst e2. rewrite Pos.compare_cont_spec. cbn [Pos.switch_Eq].
    destruct (Pos.compare_spec m1 m2) as [Em|Em|Em]; intros Hc; try discriminate.
    + subst. lia.
    + unfold mag. destruct (canonical_range _ _ H1) as (Hr & _).
      pose proof (pow2_pos (e1 + 1074) ltac:(lia)).
      apply Z.mul_le_mono_nonneg_r; lia.
  - intros _. pose proof (canonical_exponent_lt _ _ _ _ H1 H2 E). lia.
  - discriminate.
Qed.

End Binary64Rounding.

(** ** The split of a block value in binary64 *)

Lemma Prim2SF_surplus (mev thr : float) (mx : positive) (ex : Z)
      (mt : positive) (et : Z) :
  Prim2SF mev = S754_finite false mx ex ->
  Prim2SF thr = S754_finite false mt et ->
  Prim2SF (surplus_of thr mev) = spec_surplus mx ex mt et.
Proof.
  intros Hm Ht. unfold surplus_of, py_max, spec_surplus.
  cbn [s_zero s_sub s_ltb binary64].
  rewrite FloatAxioms.ltb_spec, FloatAxioms.sub_spec, Hm, Ht.
  change (Prim2SF zero) with (S754_zero false). unfold SF64sub.
  destruct (SFltb (S754_zero false) _).
  - now rewrite FloatAxioms.sub_spec, Hm, Ht.
  - reflexivity.
Qed.

Lemma split_conserved (mev thr : float) :
  positive_finite mev -> positive_finite thr ->
  s_add (keep_of thr mev) (surplus_of thr mev) = mev.
Proof.
  intros Hm Ht.
  destruct (positive_finite_spec mev Hm) as (mx & ex & Em & Cm).
  destruct (positive_finite_spec thr Ht) as (mt & et & Et & Ct).
  apply Prim2SF_inj. cbn [s_add binary64]. rewrite FloatAxioms.add_spec.
  unfold keep_of at 1. cbn [s_sub binary64]. rewrite FloatAxioms.sub_spec.
  rewrite (Prim2SF_surplus mev thr mx ex mt et Em Et), Em.
  apply (split_conserved_spec mx ex mt et Cm Ct).
Qed.

(** ** The Gini coefficient of one value in binary64 *)

Section GiniSingle.
Local Open Scope Z_scope.

Lemma gini_single_shape (x : float) :
  gini [x]
  = Some (PrimFloat.div
            (PrimFloat.sub 2
               (PrimFloat.div
                  (PrimFloat.mul 2 (PrimFloat.add 0 (shifted_single x)))
                  (shifted_single x)))
            1).
Proof.
  unfold gini, gini_shift, shifted_single. cbn [amin].
  cbn [s_ltb s_zero s_sub s_add binary64].
  change (PrimFloat.ltb x 0) with (PrimFloat.ltb x zero).
  destruct (PrimFloat.ltb x zero); reflexivity.
Qed.

Lemma Prim2SF_1e_9 : Prim2SF 1e-9 = S754_finite false 4835703278458517 (-82).
Proof. reflexivity. Qed.

Lemma canonical_1e_9 : canonical 4835703278458517 (-82).
Proof. reflexivity. Qed.

Lemma canonical_below_2p1023 : canonical 9007199254740991 970.
Proof. reflexivity. Qed.

(** The shifted value is a normal number below 2^1023. *)
Lemma shifted_single_spec (x : float) :
  PrimFloat.ltb neg_infinity x = true ->
  PrimFloat.leb x 0x1p+1022 = true ->
  exists ma ea, Prim2SF (shifted_single x) = S754_finite false ma ea
                /\ canonical ma ea /\ -1023 <= ea <= 970.
Proof.
  intros Hlo Hhi. unfold shifted_single.
  rewrite FloatAxioms.ltb_spec in Hlo. rewrite FloatAxioms.leb_spec in Hhi.
  rewrite FloatAxioms.ltb_spec.
  change (Prim2SF neg_infinity) with (S754_infinity true) in Hlo.
  change (Prim2SF 0x1p+1022) with (S754_finite false 4503599627370496 970) in Hhi.
  change (Prim2SF 0) with (S754_zero false).
  pose proof (Prim2SF_valid x) as Hv.
  destruct (Prim2SF x) as [s|s| |s m e] eqn:Ex.
  - (* a zero *)
    replace (SFltb (S754_zero s) (S754_zero false)) with false
      by (now destruct s).
    rewrite FloatAxioms.add_spec, Ex, Prim2SF_1e_9.
    exists 4835703278458517%positive, (-82). split; [reflexivity|].
    split; [exact canonical_1e_9 | lia].
  - destruct s; discriminate.
  - discriminate.
  - destruct s.
    + (* negative: the array is moved up to 0 *)
      cbn [SFltb SFcompare].
      rewrite FloatAxioms.add_spec, FloatAxioms.sub_spec, Ex, Prim2SF_1e_9.
      unfold SF64sub. rewrite SFsub_self.
      exists 4835703278458517%positive, (-82). split; [reflexivity|].
      split; [exact canonical_1e_9 | lia].
    + (* positive *)
      cbn [SFltb SFcompare].
      rewrite FloatAxioms.add_spec, Ex, Prim2SF_1e_9. unfold SF64add.
      assert (Hc : canonical m e) by exact Hv.
      assert (Hm : mag m e <= mag 4503599627370496 970)
        by (apply SFleb_mag; [exact Hc | reflexivity | exact Hhi]).
      destruct (canonical_range _ _ Hc) as (Hr & _).
      pose proof (mag_pos m e ltac:(lia)) as Hpos.
      assert (Hroom : mag 4503599627370496 970 + mag 4835703278458517 (-82)
                      <= mag 9007199254740991 970).
      { apply Z.leb_le. vm_compute. reflexivity. }
      destruct (SFadd_between m e 4835703278458517 (-82) Hc canonical_1e_9
                  4835703278458517 (-82) 9007199254740991 970
                  canonical_1e_9 canonical_below_2p1023 ltac:(lia))
        as (ma & ea & Ea & Ha & Hb1 & Hb2).
      exists ma, ea. split; [exact Ea|]. split; [exact Ha|].
      pose proof (canonical_exponent_le _ _ _ _ canonical_1e_9 Ha Hb1).
      pose proof (canonical_exponent_le _ _ _ _ Ha canonical_below_2p1023 Hb2).
      lia.
Qed.

(** For such a value the coefficient evaluates to +0.0. *)
Lemma gini_single_tail (a : float) (ma : positive) (ea : Z) :
  Prim2SF a = S754_finite false ma ea -> canonical ma ea -> -1023 <= ea <= 970 ->
  PrimFloat.div
    (PrimFloat.sub 2 (PrimFloat.div (PrimFloat.mul 2 (PrimFloat.add 0 a)) a)) 1
  = 0%float.
Proof.
  intros Ea Hc He.
  assert (E0 : PrimFloat.add 0 a = a).
  { apply Prim2SF_inj. rewrite FloatAxioms.add_spec, Ea. reflexivity. }
  rewrite E0.
  assert (E2 : PrimFloat.div (PrimFloat.mul 2 a) a = 2%float).
  { apply Prim2SF_inj.
    rewrite FloatAxioms.div_spec, FloatAxioms.mul_spec, Ea.
    change (Prim2SF 2) with (S754_finite false 4503599627370496 (-51)).
    unfold SF64div, SF64mul. rewrite (SFmul_two ma ea Hc He).
    apply SFdiv_double. }
  rewrite E2. reflexivity.
Qed.

End GiniSingle.

(** ** The worked scenario of the specification *)

(** Three validators of stake 1, two blocks of values 10 and 20, one epoch
    of two blocks: the threshold is 15, the surplus of the second block is
    5, and every pooled scenario gives 5/3 to each validator. *)
Example worked_scenario :
  threshold_of [(0%nat, 10%float); (2%nat, 20%float)] = 15%float
  /\ run [1; 1; 1]%Z 2 [(0%nat, 10%float); (2%nat, 20%float)]
     = Done {| e_Baseline := [10; 0; 20]%float;
               e_StakePool :=
                 [11.666666666666666; 1.6666666666666667; 16.666666666666668]%float;
               e_EqualPool :=
                 [11.666666666666666; 1.6666666666666667; 16.666666666666668]%float;
               e_RootStakePool :=
                 [11.666666666666666; 1.6666666666666667; 16.666666666666668]%float;
               p_StakePool := 0%float;
               p_EqualPool := 0%float;
               p_RootStakePool := 0%float |}.
Proof. vm_compute. split; reflexivity. Qed.

(** ** The split at the threshold *)

Section SplitAtThreshold.
Local Open Scope Z_scope.

Lemma SFltb_mag (m1 : positive) (e1 : Z) (m2 : positive) (e2 : Z) :
  canonical m1 e1 -> canonical m2 e2 ->
  SFltb (S754_finite false m1 e1) (S754_finite false m2 e2) = true ->
  mag m1 e1 < mag m2 e2.
Proof.
  intros H1 H2. unfold SFltb. cbn [SFcompare].
  destruct (Z.compare_spec e1 e2) as [E|E|E].
  - subst e2. rewrite Pos.compare_cont_spec. cbn [Pos.switch_Eq].
    destruct (Pos.compare_spec m1 m2) as [Em|Em|Em]; intros Hc; try discriminate.
    unfold mag. destruct (canonical_range _ _ H1) as (Hr & _).
    pose proof (pow2_pos (e1 + 1074) ltac:(lia)).
    apply Z.mul_lt_mono_pos_r; lia.
  - intros _. apply (canonical_exponent_lt _ _ _ _ H1 H2 E).
  - discriminate.
Qed.

Lemma SFltb_SFleb (a b : spec_float) : SFltb a b = true -> SFleb a b = true.
Proof.
  unfold SFltb, SFleb. destruct (SFcompare a b) as [[| |]|]; congruence.
Qed.

Lemma surplus_zero_below (mev thr : float) :
  positive_finite mev -> positive_finite thr ->
  PrimFloat.leb mev thr = true ->
  PrimFloat.ltb 0 (PrimFloat.sub mev thr) = false.
Proof.
  intros Hm Ht Hle.
  destruct (positive_finite_spec mev Hm) as (mx & ex & Em & Cm).
  destruct (positive_finite_spec thr Ht) as (mt & et & Et & Ct).
  rewrite FloatAxioms.leb_spec, Em, Et in Hle.
  rewrite FloatAxioms.ltb_spec, FloatAxioms.sub_spec, Em, Et.
  change (Prim2SF 0) with (S754_zero false). unfold SF64sub.
  apply SFsub_not_positive; [assumption | assumption |].
  now apply SFleb_mag.
Qed.

Lemma surplus_positive_above (mev thr : float) :
  positive_finite mev -> positive_finite thr ->
  PrimFloat.ltb thr mev = true ->
  PrimFloat.ltb 0 (PrimFloat.sub mev thr) = true.
Proof.
  intros Hm Ht Hlt.
  destruct (positive_finite_spec mev Hm) as (mx & ex & Em & Cm).
  destruct (positive_finite_spec thr Ht) as (mt & et & Et & Ct).
  rewrite FloatAxioms.ltb_spec, Em, Et in Hlt.
  pose proof (SFltb_mag mt et mx ex Ct Cm Hlt) as Hmag.
  destruct (canonical_range _ _ Ct) as (Hrt & _).
  pose proof (mag_pos mt et ltac:(lia)) as Hpos.
  destruct (SFsub_between mx ex mt et Cm Ct 1 (-1074) mx ex canonical_least Cm)
    as (m & e & Es & _).
  { rewrite mag_least. lia. }
  rewrite FloatAxioms.ltb_spec, FloatAxioms.sub_spec, Em, Et.
  unfold SF64sub. rewrite Es. reflexivity.
Qed.

Lemma SFltb_false_SFleb (m1 : positive) (e1 : Z) (m2 : positive) (e2 : Z) :
  SFltb (S754_finite false m1 e1) (S754_finite false m2 e2) = false ->
  SFleb (S754_finite false m2 e2) (S754_finite false m1 e1) = true.
Proof.
  unfold SFltb, SFleb. cbn [SFcompare].
  rewrite (Z.compare_antisym e1 e2).
  destruct (e1 ?= e2) eqn:E; cbn [CompOpp]; try reflexivity; try discriminate.
  rewrite !Pos.compare_cont_spec. cbn [Pos.switch_Eq].
  rewrite (Pos.compare_antisym m1 m2).
  destruct (m1 ?= m2)%positive; cbn [CompOpp]; try reflexivity; discriminate.
Qed.

(** The surplus of a positive finite block value, case by case. *)
Lemma surplus_cases (mev thr : float) :
  positive_finite mev -> positive_finite thr ->
  surplus_of thr mev
  = if PrimFloat.ltb thr mev then PrimFloat.sub mev thr else 0%float.
Proof.
  intros Hm Ht. unfold surplus_of, py_max. cbn [s_zero s_sub s_ltb binary64].
  change (PrimFloat.ltb zero (PrimFloat.sub mev thr))
    with (PrimFloat.ltb 0 (PrimFloat.sub mev thr)).
  destruct (PrimFloat.ltb thr mev) eqn:E.
  - now rewrite (surplus_positive_above mev thr Hm Ht E).
  - rewrite (surplus_zero_below mev thr Hm Ht); [reflexivity|].
    destruct (positive_finite_spec mev Hm) as (mx & ex & Em & _).
    destruct (positive_finite_spec thr Ht) as (mt & et & Et & _).
    rewrite FloatAxioms.ltb_spec, Em, Et in E.
    rewrite FloatAxioms.leb_spec, Em, Et. now apply SFltb_false_SFleb.
Qed.

Lemma sub_zero_positive (mev : float) :
  positive_finite mev -> PrimFloat.sub mev 0 = mev.
Proof.
  intros Hm. destruct (positive_finite_spec mev Hm) as (mx & ex & Em & _).
  apply Prim2SF_inj. rewrite FloatAxioms.sub_spec, Em. reflexivity.
Qed.

End SplitAtThreshold.

(** ** Where the code raises *)

Section Raising.
Context {T : Type} `{Scalar T}.

Lemma amin_defined (x : T) (l : list T) : exists lo, amin (x :: l) = Some lo.
Proof.
  revert x. induction l as [|y l IH]; intros x.
  - now exists x.
  - destruct (IH y) as [lo Hlo]. cbn [amin] in *. rewrite Hlo. cbn. eauto.
Qed.

Lemma gini_defined (x : T) (l : list T) : exists g, gini (x :: l) = Some g.
Proof.
  unfold gini, gini_shift. destruct (amin_defined x l) as [lo ->]. eauto.
Qed.

Lemma summary_loop_defined (stakes : list Z) (s : state T) (names : list scenario) :
  stakes <> [] -> well_formed stakes s ->
  exists rows, summary_loop names s = Some rows /\ map Scenario rows = names.
Proof.
  intros Hne W. induction names as [|name names IH].
  - now exists [].
  - destruct IH as (rows & E & Hn). cbn [summary_loop].
    assert (Hg : exists g, gini (earnings s name) = Some g).
    { pose proof (W name) as Wn. unfold NUM_VALIDATORS in Wn.
      destruct (earnings s name) as [|x l].
      - destruct stakes; [congruence | discriminate].
      - apply gini_defined. }
    destruct Hg as [g ->]. rewrite E. cbn [option_map].
    eexists. split; [reflexivity|]. cbn [map Scenario]. now rewrite Hn.
Qed.

End Raising.

(** ** One-element arrays over the whole range *)

Section GiniSingleRange.
Local Open Scope Z_scope.

(** The round bit after [S n] shifts is bit [n] of the number. *)
Lemma shr_iter_round (m : Z) (n : nat) :
  0 <= m -> m mod 2 ^ Z.of_nat (S n) < 2 ^ Z.of_nat n ->
  shr_r (Nat.iter (S n) shr_1 {| shr_m := m; shr_r := false; shr_s := false |})
  = false.
Proof.
  intros Hm Hr. rewrite Nat.iter_succ.
  destruct (shr_iter_spec m n Hm) as [Em _]. cbn zeta in Em.
  destruct (Nat.iter n shr_1 _) as [mn rn sn]. cbn [shr_m] in Em.
  assert (Hp : 0 < 2 ^ Z.of_nat n) by (apply Z.pow_pos_nonneg; lia).
  rewrite shr_1_spec by (subst mn; apply Z.div_pos; lia). cbn [shr_r].
  rewrite Nat2Z.inj_succ, Z.pow_succ_r in Hr by lia.
  set (P := 2 ^ Z.of_nat n) in *.
  pose proof (Z.div_mod m (2 * P) ltac:(lia)) as Hd.
  pose proof (Z.mod_pos_bound m (2 * P) ltac:(lia)) as Hb.
  assert (E : m / P = 2 * (m / (2 * P))).
  { symmetry. apply (Z.div_unique m P _ (m mod (2 * P))); lia. }
  subst mn. rewrite E, Z.odd_mul. reflexivity.
Qed.

(** Rounding a number of more than 53 bits whose cut-off part is below one
    half of the last place kept: the mantissa is cut, nothing is added. *)
Lemma binary_round_down (sx : bool) (mx : positive) (ex k q : Z) :
  -1074 <= ex -> 0 < k -> 2 ^ 52 <= q < 2 ^ 53 ->
  q * 2 ^ k <= Zpos mx < q * 2 ^ k + 2 ^ (k - 1) ->
  ex + k <= 971 ->
  binary_round prec emax sx mx ex = S754_finite sx (Z.to_pos q) (ex + k).
Proof.
  intros Hex Hk Hq Hmx Hmax.
  assert (HG : 0 < 2 ^ k) by (apply pow2_pos; lia).
  assert (HH : 0 < 2 ^ (k - 1)) by (apply pow2_pos; lia).
  assert (E2 : 2 ^ k = 2 * 2 ^ (k - 1)).
  { replace k with (1 + (k - 1)) at 1 by lia.
    rewrite (pow2_add 1 (k - 1)) by lia. reflexivity. }
  assert (Hd : Zpos (digits2_pos mx) = 53 + k).
  { apply digits2_pos_unique.
    replace (53 + k - 1) with (k + 52) by lia.
    replace (53 + k) with (k + 53) by lia.
    rewrite (pow2_add k 52), (pow2_add k 53) by lia. nia. }
  assert (Eq : Zpos mx / 2 ^ k = q).
  { symmetry. apply (Z.div_unique _ _ _ (Zpos mx - q * 2 ^ k)); lia. }
  assert (Er : Zpos mx mod 2 ^ k = Zpos mx - q * 2 ^ k).
  { symmetry. apply (Z.mod_unique _ _ q); lia. }
  unfold binary_round. rewrite fexp_eq, Hd.
  replace (Z.max (53 + k + ex - 53) (-1074)) with (ex + k) by lia.
  unfold shl_align.
  destruct (ex + k - ex) as [|pk|pk] eqn:Ek; [lia| |lia].
  assert (Hpk : Zpos pk = k) by lia.
  unfold binary_round_aux, shr_fexp at 1. cbn [Zdigits2]. rewrite fexp_eq, Hd.
  replace (Z.max (53 + k + ex - 53) (-1074) - ex) with (Zpos pk) by lia.
  cbn [shr shr_record_of_loc]. rewrite iter_pos_nat.
  pose proof (shr_iter_spec (Zpos mx) (Pos.to_nat pk) ltac:(lia)) as Hs.
  cbn zeta in Hs. rewrite positive_nat_Z, Hpk, Eq in Hs.
  destruct Hs as [Hm _].
  assert (Hround : shr_r (Nat.iter (Pos.to_nat pk) shr_1
                            {| shr_m := Zpos mx; shr_r := false; shr_s := false |})
                   = false).
  { destruct (Pos.to_nat pk) as [|n] eqn:En; [lia|].
    apply shr_iter_round; [lia|].
    replace (Z.of_nat (S n)) with k by lia.
    replace (Z.of_nat n) with (k - 1) by lia. lia. }
  set (mrs := Nat.iter (Pos.to_nat pk) shr_1 _) in *.
  assert (Hr : round_nearest_even (shr_m mrs) (loc_of_shr_record mrs) = q).
  { destruct mrs as [m r s]. cbn [shr_m shr_r] in *. subst m r.
    destruct s; reflexivity. }
  rewrite Hr.
  destruct q as [|pq|pq] eqn:Eqq; [lia| |lia].
  assert (Hdq : Zpos (digits2_pos pq) = 53)
    by (apply digits2_pos_unique; change (53 - 1) with 52; lia).
  unfold shr_fexp. cbn [Zdigits2]. rewrite fexp_eq, Hdq.
  replace (Z.max (53 + (ex + Zpos pk) - 53) (-1074) - (ex + Zpos pk)) with 0 by lia.
  cbn [shr shr_record_of_loc shr_m]. rewrite Hpk.
  change (emax - prec) with 971. cbn [Z.to_pos].
  destruct (Z.leb_spec (ex + k) 971); [reflexivity | lia].
Qed.

(** From 1.0 on, adding 1e-9 changes nothing once half the last place
    exceeds it: here for every number of exponent 0 or more (2^52 and up). *)
Lemma SFadd_absorbs (m : positive) (e : Z) :
  canonical m e -> 0 <= e ->
  SFadd prec emax (S754_finite false m e)
                  (S754_finite false 4835703278458517 (-82))
  = S754_finite false m e.
Proof.
  intros Hc He. destruct (canonical_range _ _ Hc) as (Hr & Hm & Hn).
  specialize (Hn ltac:(lia)).
  rewrite SFadd_aligned. unfold aligned.
  replace (Z.min e (-82)) with (-82) by lia.
  change (-82 - -82) with 0. rewrite Z.pow_0_r, Z.mul_1_r.
  replace (e - -82) with (e + 82) by lia.
  pose proof (pow2_pos (e + 82) ltac:(lia)) as HG.
  destruct (Zpos m * 2 ^ (e + 82) + 4835703278458517) as [|p|p] eqn:Ep;
    [lia| |lia].
  cbn [binary_normalize].
  rewrite (binary_round_down false p (-82) (e + 82) (Zpos m));
    [| lia | lia | lia | | lia].
  - cbn [Z.to_pos]. f_equal. lia.
  - rewrite <- Ep. split; [lia|].
    assert (2 ^ 53 <= 2 ^ (e + 82 - 1)) by (apply Z.pow_le_mono_r; lia).
    change (2 ^ 53) with 9007199254740992 in *. lia.
Qed.

(** Doubling a number of the top exponent overflows. *)
Lemma SFmul_two_overflow (ma : positive) :
  canonical ma 971 ->
  SFmul prec emax (S754_finite false 4503599627370496 (-51))
                  (S754_finite false ma 971)
  = S754_infinity false.
Proof.
  intros Hc. destruct (canonical_range _ _ Hc) as (_ & Hm & Hn).
  specialize (Hn ltac:(lia)).
  cbn [SFmul xorb].
  assert (Hd : Zpos (digits2_pos (4503599627370496 * ma)) = 105).
  { apply digits2_pos_unique. rewrite Pos2Z.inj_mul.
    change (Zpos 4503599627370496) with (2 ^ 52).
    change (105 - 1) with (52 + 52). change 105 with (52 + 53).
    rewrite (pow2_add 52 52), (pow2_add 52 53) by lia.
    pose proof (pow2_pos 52 ltac:(lia)). split.
    - apply Z.mul_le_mono_nonneg_l; lia.
    - apply Z.mul_lt_mono_pos_l; lia. }
  rewrite round_aux_is_round by lia.
  destruct (binary_round_large false (4503599627370496 * ma) (-51 + 971)
              ltac:(lia) ltac:(lia)) as (q' & Hq & Hcase & ->).
  rewrite Hd in *. change (105 - 53) with 52 in *.
  assert (Eq : Zpos (4503599627370496 * ma) / 2 ^ 52 = Zpos ma).
  { rewrite Pos2Z.inj_mul. change (Zpos 4503599627370496) with (2 ^ 52).
    rewrite Z.mul_comm. apply Z.div_mul. lia. }
  assert (Em : Zpos (4503599627370496 * ma) mod 2 ^ 52 = 0).
  { rewrite Pos2Z.inj_mul. change (Zpos 4503599627370496) with (2 ^ 52).
    rewrite Z.mul_comm. apply Z.mod_mul. lia. }
  destruct Hcase as [->|[_ Hne]]; [|congruence].
  rewrite Eq. destruct (Z.ltb_spec (Zpos ma) (2 ^ 53)); [|lia].
  reflexivity.
Qed.

(** For a value of the top exponent the coefficient evaluates to -inf. *)
Lemma gini_single_overflow (a : float) (ma : positive) :
  Prim2SF a = S754_finite false ma 971 -> canonical ma 971 ->
  PrimFloat.div
    (PrimFloat.sub 2 (PrimFloat.div (PrimFloat.mul 2 (PrimFloat.add 0 a)) a)) 1
  = neg_infinity.
Proof.
  intros Ea Hc.
  assert (E0 : PrimFloat.add 0 a = a).
  { apply Prim2SF_inj. rewrite FloatAxioms.add_spec, Ea. reflexivity. }
  rewrite E0.
  assert (E2 : PrimFloat.div (PrimFloat.mul 2 a) a = infinity).
  { apply Prim2SF_inj.
    rewrite FloatAxioms.div_spec, FloatAxioms.mul_spec, Ea.
    change (Prim2SF 2) with (S754_finite false 4503599627370496 (-51)).
    unfold SF64div, SF64mul. rewrite (SFmul_two_overflow ma Hc).
    reflexivity. }
  rewrite E2. reflexivity.
Qed.

(** Below 2^1023 the shifted value is a normal number below 2^1023. *)
Lemma shifted_single_below (x : float) :
  PrimFloat.ltb neg_infinity x = true ->
  PrimFloat.ltb x 0x1p+1023 = true ->
  exists ma ea, Prim2SF (shifted_single x) = S754_finite false ma ea
                /\ canonical ma ea /\ -1023 <= ea <= 970.
Proof.
  intros Hlo Hhi.
  pose proof (Prim2SF_valid x) as Hv.
  destruct (Prim2SF x) as [s|s| |s m e] eqn:Ex.
  - apply shifted_single_spec; [exact Hlo|].
    rewrite FloatAxioms.leb_spec, Ex. now destruct s.
  - rewrite FloatAxioms.ltb_spec, Ex in Hlo, Hhi. destruct s; discriminate.
  - rewrite FloatAxioms.ltb_spec, Ex in Hlo. discriminate.
  - destruct s.
    + apply shifted_single_spec; [exact Hlo|].
      rewrite FloatAxioms.leb_spec, Ex. reflexivity.
    + assert (Hc : canonical m e) by exact Hv.
      destruct (Z.le_gt_cases 0 e) as [He|He].
      * (* the sum is x itself *)
        rewrite FloatAxioms.ltb_spec, Ex in Hhi.
        change (Prim2SF 0x1p+1023)
          with (S754_finite false 4503599627370496 971) in Hhi.
        pose proof (SFltb_mag m e 4503599627370496 971 Hc ltac:(reflexivity) Hhi)
          as Hmag.
        destruct (canonical_range _ _ Hc) as (Hr & _ & Hn).
        specialize (Hn ltac:(lia)).
        assert (He' : e <= 970).
        { destruct (Z.eq_dec e 971) as [->|]; [|lia].
          unfold mag in Hmag. change (2 ^ 52) with 4503599627370496 in Hn.
          pose proof (pow2_pos (971 + 1074) ltac:(lia)).
          exfalso. nia. }
        exists m, e. split; [|split; [exact Hc | lia]].
        unfold shifted_single. rewrite FloatAxioms.ltb_spec, Ex.
        change (Prim2SF 0) with (S754_zero false). cbn [SFltb SFcompare].
        rewrite FloatAxioms.add_spec, Ex, Prim2SF_1e_9. unfold SF64add.
        now apply SFadd_absorbs.
      * apply shifted_single_spec; [exact Hlo|].
        rewrite FloatAxioms.leb_spec, Ex.
        change (Prim2SF 0x1p+1022)
          with (S754_finite false 4503599627370496 970).
        unfold SFleb. cbn [SFcompare].
        destruct (Z.compare_spec e 970); [lia | reflexivity | lia].
Qed.

(** From 2^1023 on the shifted value is the number itself. *)
Lemma shifted_single_above (x : float) :
  PrimFloat.leb 0x1p+1023 x = true ->
  PrimFloat.ltb x infinity = true ->
  exists ma, Prim2SF (shifted_single x) = S754_finite false ma 971
             /\ canonical ma 971.
Proof.
  intros Hlo Hhi.
  pose proof (Prim2SF_valid x) as Hv.
  rewrite FloatAxioms.leb_spec in Hlo. rewrite FloatAxioms.ltb_spec in Hhi.
  change (Prim2SF 0x1p+1023)
    with (S754_finite false 4503599627370496 971) in Hlo.
  change (Prim2SF infinity) with (S754_infinity false) in Hhi.
  destruct (Prim2SF x) as [s|s| |s m e] eqn:Ex; try discriminate.
  - destruct s; discriminate.
  - destruct s; [discriminate|].
    assert (Hc : canonical m e) by exact Hv.
    pose proof (SFleb_mag 4503599627370496 971 m e ltac:(reflexivity) Hc Hlo)
      as Hmag.
    assert (Htop : canonical 4503599627370496 971) by reflexivity.
    pose proof (canonical_exponent_le _ _ _ _ Htop Hc Hmag) as He.
    destruct (canonical_range _ _ Hc) as (Hr & _).
    assert (e = 971) by lia. subst e.
    exists m. split; [|exact Hc].
    unfold shifted_single. rewrite FloatAxioms.ltb_spec, Ex.
    change (Prim2SF 0) with (S754_zero false). cbn [SFltb SFcompare].
    rewrite FloatAxioms.add_spec, Ex, Prim2SF_1e_9. unfold SF64add.
    apply SFadd_absorbs; [exact Hc | lia].
Qed.

Lemma is_nan_nan (x : float) : PrimFloat.is_nan x = true -> x = nan.
Proof.
  unfold PrimFloat.is_nan. rewrite FloatAxioms.eqb_spec. intros Hn.
  apply Prim2SF_inj. change (Prim2SF nan) with S754_nan.
  destruct (Prim2SF x) as [s|s| |s m e]; try reflexivity; exfalso.
  - discriminate.
  - destruct s; discriminate.
  - unfold SFeqb in Hn. cbn [SFcompare] in Hn.
    rewrite Z.compare_refl, Pos.compare_cont_refl in Hn.
    destruct s; discriminate.
Qed.

End GiniSingleRange.

(** ** The whole program *)

Section ProgramFacts.
Context {T : Type} `{Scalar T}.

Lemma sigma_negative (sigma : float) :
  PrimFloat.ltb sigma 0 = true -> sigma_rejected sigma = true.
Proof.
  intros Hlt.
  unfold sigma_rejected, PrimFloat.is_nan, PrimFloat.get_sign, PrimFloat.is_zero.
  rewrite !FloatAxioms.eqb_spec.
  rewrite FloatAxioms.ltb_spec in Hlt.
  change (Prim2SF 0) with (S754_zero false) in Hlt.
  change (Prim2SF zero) with (S754_zero false).
  destruct (Prim2SF sigma) as [s|s| |s m e] eqn:E; cbn in Hlt;
    try discriminate; destruct s; try discriminate.
  - cbn [SFeqb SFcompare negb andb]. rewrite FloatAxioms.ltb_spec, E. reflexivity.
  - unfold SFeqb. cbn [SFcompare].
    rewrite Z.compare_refl, Pos.compare_cont_refl. cbn [CompOpp negb andb].
    rewrite FloatAxioms.ltb_spec, E. reflexivity.
Qed.

Lemma sigma_accepted (sigma : float) :
  PrimFloat.ltb 0 sigma = true \/ sigma = 0%float -> sigma_rejected sigma = false.
Proof.
  intros [Hlt| ->]; [|reflexivity].
  unfold sigma_rejected, PrimFloat.get_sign, PrimFloat.is_zero.
  rewrite FloatAxioms.eqb_spec.
  rewrite FloatAxioms.ltb_spec in Hlt.
  change (Prim2SF 0) with (S754_zero false) in Hlt.
  change (Prim2SF zero) with (S754_zero false).
  destruct (Prim2SF sigma) as [s|s| |s m e] eqn:E; cbn in Hlt;
    try discriminate; destruct s; try discriminate;
    cbn [SFeqb SFcompare]; rewrite FloatAxioms.ltb_spec, E;
    apply andb_false_r.
Qed.

Lemma setup_fails (cfg : Config.t) (d : draws T) :
  (Config.NUM_VALIDATORS cfg < 0)%Z
  \/ (Config.NUM_BLOCKS cfg < 0)%Z
  \/ sigma_rejected (Config.MEV_DIST_SIGMA cfg) = true ->
  setup cfg d = inl ValueError.
Proof.
  intros Hbad. unfold setup.
  destruct (Z.ltb_spec (Config.NUM_VALIDATORS cfg) 0); [reflexivity|].
  destruct (sigma_rejected (Config.MEV_DIST_SIGMA cfg)); [reflexivity|].
  destruct (Z.ltb_spec (Config.NUM_BLOCKS cfg) 0); [reflexivity|].
  exfalso. destruct Hbad as [Hv|[Hb|Hs]]; [lia | lia | discriminate].
Qed.

Lemma setup_passes (cfg : Config.t) (d : draws T) :
  (0 <= Config.NUM_VALIDATORS cfg)%Z ->
  (0 <= Config.NUM_BLOCKS cfg)%Z ->
  sigma_rejected (Config.MEV_DIST_SIGMA cfg) = false ->
  setup cfg d = inr (drawn_stakes cfg d, drawn_blocks cfg d).
Proof.
  intros Hv Hb Hs. unfold setup. rewrite Hs.
  destruct (Z.ltb_spec (Config.NUM_VALIDATORS cfg) 0); [lia|].
  destruct (Z.ltb_spec (Config.NUM_BLOCKS cfg) 0); [lia|]. reflexivity.
Qed.

Lemma drawn_stakes_length (cfg : Config.t) (d : draws T) :
  NUM_VALIDATORS (drawn_stakes cfg d) = Z.to_nat (Config.NUM_VALIDATORS cfg).
Proof.
  unfold NUM_VALIDATORS, drawn_stakes. now rewrite length_map, length_seq.
Qed.

Lemma drawn_blocks_first (cfg : Config.t) (d : draws T) :
  (0 < Config.NUM_BLOCKS cfg)%Z ->
  exists rest,
    drawn_blocks cfg d = (proposer_draw d 0, mev_draw d 0) :: rest.
Proof.
  intros Hb. unfold drawn_blocks.
  destruct (Z.to_nat (Config.NUM_BLOCKS cfg)) as [|n] eqn:E; [lia|].
  cbn [seq map]. eauto.
Qed.

Lemma run_zero_epoch (stakes : list Z) (blk : nat * T) (rest : list (nat * T)) :
  (fst blk < NUM_VALIDATORS stakes)%nat ->
  run stakes 0 (blk :: rest)
  = Raised ZeroDivisionError
      (accounted (threshold_of (blk :: rest)) blk (initial stakes)).
Proof.
  intros Hp. unfold run. cbn [main_loop]. unfold step.
  rewrite (choice_in_range _ _ Hp). reflexivity.
Qed.

Lemma run_no_validators (EPOCH_SIZE : Z) (blk : nat * T) (rest : list (nat * T)) :
  run [] EPOCH_SIZE (blk :: rest) = Raised ValueError (initial []).
Proof. reflexivity. Qed.

End ProgramFacts.

(** * The claims *)



(** C2. At a block index [b] with [(b + 1) mod EPOCH_SIZE = 0], once the
    per-block accounting of block [b] is done, the iteration adds to every
    validator [v] of StakePool [stake v * (P / total_stake)], of EqualPool
    [P / NUM_VALIDATORS] and of RootStakePool
    [sqrt (stake v) * (P / total_root_weight)], where [P] is the pool balance
    of that scenario at this instant; every pool balance is then zero, and
    the Baseline ledger is left as the accounting made it.  This holds in
    every arithmetic, binary64 included. *)
Theorem epoch_distribution_step :
  forall (T : Type) (H : Scalar T) (stakes : list Z) (EPOCH_SIZE : Z)
         (threshold : T) (b : Z) (blk : nat * T) (s : state T),
    EPOCH_SIZE <> 0%Z ->
    ((b + 1) mod EPOCH_SIZE = 0)%Z ->
    (fst blk < NUM_VALIDATORS stakes)%nat ->
    well_formed stakes s ->
    exists s2,
      step stakes EPOCH_SIZE threshold b blk s = Done s2
      /\ (forall v, (v < NUM_VALIDATORS stakes)%nat ->
            nth v (earnings s2 (Pooled StakePool)) s_zero
            = (nth v (earnings (accounted threshold blk s) (Pooled StakePool)) s_zero
               + s_of_Z (nth v stakes 0%Z)
                 * (pool_balances (accounted threshold blk s) StakePool
                    / s_of_Z (total_stake stakes)))%sc
            /\ nth v (earnings s2 (Pooled EqualPool)) s_zero
               = (nth v (earnings (accounted threshold blk s) (Pooled EqualPool)) s_zero
                  + pool_balances (accounted threshold blk s) EqualPool
                    / s_of_Z (Z.of_nat (NUM_VALIDATORS stakes)))%sc
            /\ nth v (earnings s2 (Pooled RootStakePool)) s_zero
               = (nth v (earnings (accounted threshold blk s) (Pooled RootStakePool)) s_zero
                  + s_sqrt (s_of_Z (nth v stakes 0%Z))
                    * (pool_balances (accounted threshold blk s) RootStakePool
                       / total_root_weight stakes))%sc)
      /\ (forall p, pool_balances s2 p = s_zero)
      /\ earnings s2 Baseline = earnings (accounted threshold blk s) Baseline.
Proof.
  intros T H stakes E threshold b blk s HE Hb Hp W.
  rewrite step_done by assumption. unfold after_block.
  apply Z.eqb_eq in Hb. rewrite Hb.
  set (s1 := accounted threshold blk s).
  assert (W1 : well_formed stakes s1) by (now apply account_well_formed).
  eexists. split; [reflexivity|]. split; [|split].
  - intros v Hv.
    pose proof (W1 (Pooled StakePool)) as Ws.
    pose proof (W1 (Pooled EqualPool)) as We.
    pose proof (W1 (Pooled RootStakePool)) as Wr.
    cbn [earnings pool_balances distribute e_StakePool e_EqualPool
         e_RootStakePool] in *.
    repeat split.
    + rewrite (nth_zip_with _ _ _ _ _ 0%Z); [reflexivity | lia | exact Hv].
    + rewrite nth_map_in by lia. reflexivity.
    + rewrite (nth_zip_with _ _ _ _ _ (s_sqrt (s_of_Z 0%Z)));
        [| lia | now rewrite root_weights_length].
      unfold root_weights.
      now rewrite (map_nth (fun k => s_sqrt (s_of_Z k)) stakes 0%Z v).
  - now destruct p.
  - reflexivity.
Qed.

Lemma epoch_distribution_step_witness :
  exists s2 : state float,
    step [1; 1; 1]%Z 2 15%float 1 (2%nat, 20%float) (initial [1; 1; 1]%Z) = Done s2
    /\ forall p, pool_balances s2 p = 0%float.
Proof.
  destruct (epoch_distribution_step float binary64 [1; 1; 1]%Z 2 15%float 1
              (2%nat, 20%float) (initial [1; 1; 1]%Z))
    as (s2 & E & _ & Hp & _).
  - discriminate.
  - reflexivity.
  - cbn. lia.
  - apply initial_well_formed.
  - exists s2. split; assumption.
Defined.

(** C3. Right after a distribution at an epoch boundary every pool balance
    is exactly zero (in every arithmetic, binary64 included), and, in exact
    arithmetic, the amounts the distribution added to the validators of a
    pooled scenario sum to the pool balance it distributed. *)
Theorem epoch_boundary_pool_conservation :
  forall (stakes : list Z) (EPOCH_SIZE b : Z) (p : pooled),
    stakes_drawn stakes ->
    EPOCH_SIZE <> 0%Z ->
    ((b + 1) mod EPOCH_SIZE = 0)%Z ->
    (forall (T : Type) (H : Scalar T) (threshold : T) (blk : nat * T) (s : state T),
        (fst blk < NUM_VALIDATORS stakes)%nat ->
        exists s2, step stakes EPOCH_SIZE threshold b blk s = Done s2
                   /\ pool_balances s2 p = s_zero)
    /\ (forall (threshold : R) (blk : nat * R) (s : state R),
        (fst blk < NUM_VALIDATORS stakes)%nat ->
        well_formed stakes s ->
        exists s2, step stakes EPOCH_SIZE threshold b blk s = Done s2
                   /\ pool_balances s2 p = 0%R
                   /\ sum (increments
                             (earnings (accounted threshold blk s) (Pooled p))
                             (earnings s2 (Pooled p)))
                      = pool_balances (accounted threshold blk s) p).
Proof.
  intros stakes E b p Hd HE Hb. apply Z.eqb_eq in Hb. split.
  - intros T H threshold blk s Hp.
    rewrite step_done by assumption. unfold after_block. rewrite Hb.
    eexists. split; [reflexivity | now destruct p].
  - intros threshold blk s Hp W.
    rewrite step_done by assumption. unfold after_block. rewrite Hb.
    set (s1 := accounted threshold blk s).
    assert (W1 : well_formed stakes s1) by (now apply account_well_formed).
    destruct (distribute_holdings stakes s1 p Hd W1) as [E1 E2].
    eexists. split; [reflexivity|]. split; [exact E2|].
    rewrite sum_increments, E1.
    + unfold holdings. lra.
    + rewrite (W1 (Pooled p)).
      symmetry. apply (distribute_well_formed stakes s1 W1 (Pooled p)).
Qed.

Lemma epoch_boundary_pool_conservation_witness :
  exists s2 : state R,
    step [1; 2; 3]%Z 2 15%R 1 (2%nat, 20%R) (initial [1; 2; 3]%Z) = Done s2
    /\ pool_balances s2 RootStakePool = 0%R.
Proof.
  destruct (epoch_boundary_pool_conservation [1; 2; 3]%Z 2 1 RootStakePool)
    as [_ Hx].
  - split; [discriminate|]. repeat constructor; lia.
  - discriminate.
  - reflexivity.
  - destruct (Hx 15%R (2%nat, 20%R) (initial [1; 2; 3]%Z)) as (s2 & E & Hz & _).
    + cbn. lia.
    + apply initial_well_formed.
    + exists s2. split; assumption.
Defined.

(** C4. In exact arithmetic, for each pooled scenario the final ledger total
    plus the balance left in its pool equals the sum of all block values.
    The run ends with the state the loop left: the pool still holds the
    surplus of the blocks after the last epoch boundary, and that amount is
    in no ledger. *)
Theorem pooled_total_conservation :
  forall (stakes : list Z) (EPOCH_SIZE : Z) (blocks : list (nat * R)) (p : pooled),
    stakes_drawn stakes ->
    (0 < EPOCH_SIZE)%Z ->
    Forall (fun blk => (fst blk < NUM_VALIDATORS stakes)%nat) blocks ->
    exists s,
      run stakes EPOCH_SIZE blocks = Done s
      /\ (sum (earnings s (Pooled p)) + pool_balances s p = sum (map snd blocks))%R
      /\ pool_balances s p = residual EPOCH_SIZE (threshold_of blocks) blocks
      /\ (sum (earnings s (Pooled p))
          = sum (map snd blocks)
            - residual EPOCH_SIZE (threshold_of blocks) blocks)%R.
Proof.
  intros stakes E blocks p Hd HE Hall. unfold run.
  destruct (main_loop_residual stakes E HE (threshold_of blocks) blocks Hall)
    as (s & Es & W & Hres).
  destruct (main_loop_conserves stakes E (threshold_of blocks) blocks Hd
              ltac:(lia) Hall 0%Z (initial stakes) (initial_well_formed stakes))
    as (s' & Es' & _ & Hh & _).
  rewrite Es in Es'. injection Es' as <-.
  exists s. split; [exact Es|].
  specialize (Hh p). specialize (Hres p). unfold holdings in Hh.
  assert (H0 : (sum (earnings (initial (T:=R) stakes) (Pooled p))
                + pool_balances (initial stakes) p = 0)%R).
  { destruct p; cbn [earnings pool_balances initial e_StakePool e_EqualPool
                     e_RootStakePool p_StakePool p_EqualPool p_RootStakePool];
      rewrite sum_repeat; cbn; lra. }
  repeat split; [lra | exact Hres | lra].
Qed.

Lemma pooled_total_conservation_witness :
  exists s : state R,
    run [1; 2; 3]%Z 2 [(0%nat, 10%R); (2%nat, 20%R); (1%nat, 30%R)] = Done s
    /\ (sum (earnings s (Pooled EqualPool)) + pool_balances s EqualPool
        = sum [10; 20; 30])%R.
Proof.
  destruct (pooled_total_conservation [1; 2; 3]%Z 2
              [(0%nat, 10%R); (2%nat, 20%R); (1%nat, 30%R)] EqualPool)
    as (s & E & Hs & _).
  - split; [discriminate|]. repeat constructor; lia.
  - lia.
  - repeat constructor; cbn; lia.
  - exists s. split; assumption.
Defined.

(** C5. In every arithmetic each iteration adds the full value of the block
    to the proposer's Baseline entry, whatever the threshold, and changes no
    other Baseline entry; in exact arithmetic the final Baseline ledger
    therefore sums to the sum of all block values. *)
Theorem baseline_full_value :
  forall (stakes : list Z) (EPOCH_SIZE : Z),
    EPOCH_SIZE <> 0%Z ->
    (forall (T : Type) (H : Scalar T) (threshold : T) (b : Z) (blk : nat * T)
            (s : state T),
        (fst blk < NUM_VALIDATORS stakes)%nat ->
        well_formed stakes s ->
        exists s2,
          step stakes EPOCH_SIZE threshold b blk s = Done s2
          /\ nth (fst blk) (earnings s2 Baseline) s_zero
             = (nth (fst blk) (earnings s Baseline) s_zero + snd blk)%sc
          /\ forall v, v <> fst blk ->
               nth v (earnings s2 Baseline) s_zero
               = nth v (earnings s Baseline) s_zero)
    /\ (forall blocks : list (nat * R),
        Forall (fun blk => (fst blk < NUM_VALIDATORS stakes)%nat) blocks ->
        exists s,
          run stakes EPOCH_SIZE blocks = Done s
          /\ sum (earnings s Baseline) = sum (map snd blocks)).
Proof.
  intros stakes E HE. split.
  - intros T H threshold b blk s Hp W.
    rewrite step_done by assumption.
    pose proof (W Baseline) as Wb. cbn [earnings] in Wb.
    eexists. split; [reflexivity|].
    assert (Eb : earnings (after_block stakes E threshold b blk s) Baseline
                 = add_at (e_Baseline s) (fst blk) (snd blk)).
    { unfold after_block, accounted.
      now destruct ((b + 1) mod E =? 0)%Z. }
    rewrite Eb. cbn [earnings]. split.
    + apply nth_add_at_same. lia.
    + intros v Hv. apply nth_add_at_other. congruence.
  - intros blocks Hall. unfold run.
    destruct (main_loop_baseline stakes E (threshold_of blocks) blocks HE Hall
                0%Z (initial stakes) (initial_well_formed stakes))
      as (s & Es & Hs).
    exists s. split; [exact Es|].
    rewrite Hs. cbn [earnings initial e_Baseline]. rewrite sum_repeat.
    cbn [s_zero exact]. lra.
Qed.

Lemma baseline_full_value_witness :
  exists s : state R,
    run [1; 2; 3]%Z 2 [(0%nat, 10%R); (2%nat, 20%R); (1%nat, 30%R)] = Done s
    /\ sum (earnings s Baseline) = sum [10%R; 20%R; 30%R].
Proof.
  destruct (baseline_full_value [1; 2; 3]%Z 2) as [_ Hx].
  - discriminate.
  - apply (Hx [(0%nat, 10%R); (2%nat, 20%R); (1%nat, 30%R)]).
    repeat constructor; cbn; lia.
Defined.

(** C6 (counterexample). In binary64, with two equal values both blocks are
    at or below the median, not one of two; and with the two distinct values
    1 + 2^-52 and 1 + 2^-51 the mean of the two rounds to the larger one, so
    again both blocks are at or below it. *)
Lemma median_half_counterexample :
  median [5; 5]%float = 5%float
  /\ count_le (median [5; 5]%float) [5; 5]%float = 2%nat
  /\ median [1.0000000000000002; 1.0000000000000004]%float
     = 1.0000000000000004%float
  /\ count_le (median [1.0000000000000002; 1.0000000000000004]%float)
              [1.0000000000000002; 1.0000000000000004]%float = 2%nat.
Proof. vm_compute. repeat split; reflexivity. Qed.

(** C6 (amended). In exact arithmetic, when the block values are pairwise
    distinct, exactly half of the blocks have a value at or below the median
    for an even number of blocks, and exactly [(B + 1) / 2] of them for an
    odd number. *)
Theorem median_splits_distinct_values :
  forall values : list R,
    values <> [] ->
    NoDup values ->
    count_le (median values) values
    = if Nat.even (length values)
      then (length values / 2)%nat
      else (length values / 2 + 1)%nat.
Proof.
  intros values Hne Hnd.
  set (n := length values). set (s := sort values).
  assert (Hn : (0 < n)%nat).
  { unfold n. destruct values; [congruence | cbn; lia]. }
  pose proof (sort_perm values) as HP. fold s in HP.
  pose proof (sort_sorted values) as HS. fold s in HS.
  assert (Hlen : length s = n) by (unfold s, n; apply sort_length).
  assert (Hnd' : NoDup s) by (eapply Permutation_NoDup; eassumption).
  rewrite (count_le_perm _ _ _ HP).
  unfold median. rewrite existsb_is_nan_exact. fold n s.
  destruct n as [|n'] eqn:En; [lia|]. rewrite <- En in *.
  destruct (Nat.even n) eqn:Ev.
  - pose proof (even_half n Ev) as Hh.
    assert (Hm : (0 < n / 2)%nat) by lia.
    pose proof (sorted_nodup_lt s (n / 2 - 1) (n / 2) HS Hnd' ltac:(lia) ltac:(lia)).
    apply count_le_split; try assumption; try lia.
    + rewrite mean_two. change (@s_zero R exact) with 0%R. lra.
    + intros _. rewrite mean_two. change (@s_zero R exact) with 0%R. lra.
  - pose proof (odd_half n Ev) as Hh.
    apply count_le_split; try assumption; try lia.
    + replace (n / 2 + 1 - 1)%nat with (n / 2)%nat by lia.
      rewrite mean_one. change (@s_zero R exact) with 0%R. lra.
    + intros Hk. rewrite mean_one. change (@s_zero R exact) with 0%R.
      apply (sorted_nodup_lt s (n / 2) (n / 2 + 1) HS Hnd'); lia.
Qed.

Lemma median_splits_distinct_values_witness :
  count_le (median [4%R; 1%R; 3%R; 2%R]) [4%R; 1%R; 3%R; 2%R] = 2%nat.
Proof.
  apply (median_splits_distinct_values [4%R; 1%R; 3%R; 2%R]).
  - discriminate.
  - repeat constructor; cbn; intuition lra.
Defined.

(** C7 (counterexample). In binary64, doubling the array [0, 1] changes the
    Gini coefficient: the shift by 1e-9 is not scaled with the array. *)
Lemma gini_scaling_counterexample :
  gini (map (PrimFloat.mul 2) [0; 1]%float) = Some 0.49999999949999996%float
  /\ gini [0; 1]%float = Some 0.49999999899999992%float
  /\ PrimFloat.eqb 0.49999999949999996 0.49999999899999992 = false.
Proof. vm_compute. repeat split; reflexivity. Qed.

(** C7 (amended). In exact arithmetic the coefficient is unchanged when the
    array and the shift are scaled by one positive constant: the coefficient
    computed with shift [c * e] on [c * arr] is the one computed with shift
    [e] on [arr]. *)
Theorem gini_scaling_with_shift :
  forall (c e : R) (arr : list R),
    (0 < c)%R ->
    gini_shift (c * e)%R (map (Rmult c) arr) = gini_shift e arr.
Proof.
  intros c e arr Hc. now apply gini_shift_scale.
Qed.

Lemma gini_scaling_with_shift_witness :
  gini_shift (2 * s_1e_9)%R (map (Rmult 2) [0%R; 1%R]) = gini [0%R; 1%R].
Proof.
  apply (gini_scaling_with_shift 2 s_1e_9 [0%R; 1%R]). lra.
Defined.

(** C8 (counterexample). In binary64 the coefficient of two equal values can
    be negative. *)
Lemma gini_bounds_counterexample :
  gini [0.0864675897282483; 0.0864675897282483]%float
    = Some (-2.2204460492503131e-16)%float
  /\ PrimFloat.leb 0 (-2.2204460492503131e-16) = false.
Proof. vm_compute. split; reflexivity. Qed.

(** C8 (amended). In exact arithmetic the coefficient of a non-empty array
    is at least 0 and below 1, and it is 0 when all values are equal. *)
Theorem gini_exact_bounds :
  forall arr : list R,
    arr <> [] ->
    exists g,
      gini arr = Some g
      /\ (0 <= g < 1)%R
      /\ ((exists x, Forall (fun y => y = x) arr) -> g = 0%R).
Proof.
  exact gini_exact_bounds_lemma.
Qed.

Lemma gini_exact_bounds_witness :
  exists g, gini [3%R; 1%R; 2%R] = Some g /\ (0 <= g < 1)%R.
Proof.
  destruct (gini_exact_bounds [3%R; 1%R; 2%R]) as (g & E & Hg & _).
  - discriminate.
  - exists g. split; assumption.
Defined.




(** C10 (counterexample). In binary64 the coefficient of the one-element
    array [1e308] is minus infinity: doubling the total overflows. *)
Lemma gini_single_counterexample :
  gini [1e308%float] = Some neg_infinity.
Proof. vm_compute. reflexivity. Qed.

(** C10 (amended). In exact arithmetic the coefficient of every one-element
    array is 0.  In binary64 it is +0.0 for every finite value below 2^1023
    (about 8.99e307), the negative ones included; for every finite value
    from 2^1023 on the doubled total overflows and the result is -inf; for
    an infinite value or NaN the result is NaN. *)
Theorem gini_single_value :
  (forall x : R, gini [x] = Some 0%R)
  /\ (forall x : float,
        PrimFloat.ltb neg_infinity x = true ->
        PrimFloat.ltb x 0x1p+1023 = true ->
        gini [x] = Some 0%float)
  /\ (forall x : float,
        PrimFloat.leb 0x1p+1023 x = true ->
        PrimFloat.ltb x infinity = true ->
        gini [x] = Some neg_infinity)
  /\ (forall x : float,
        x = infinity \/ x = neg_infinity \/ PrimFloat.is_nan x = true ->
        gini [x] = Some nan).
Proof.
  split; [|split; [|split]].
  - intros x.
    destruct (gini_exact_bounds_lemma [x] ltac:(discriminate)) as (g & E & _ & Hz).
    rewrite E. f_equal. apply Hz. exists x. repeat constructor.
  - intros x Hlo Hhi. rewrite gini_single_shape.
    destruct (shifted_single_below x Hlo Hhi) as (ma & ea & Ea & Hc & He).
    now rewrite (gini_single_tail _ ma ea Ea Hc He).
  - intros x Hlo Hhi. rewrite gini_single_shape.
    destruct (shifted_single_above x Hlo Hhi) as (ma & Ea & Hc).
    now rewrite (gini_single_overflow _ ma Ea Hc).
  - intros x [->|[->|Hn]]; [reflexivity | reflexivity |].
    apply is_nan_nan in Hn. subst x. reflexivity.
Qed.

Lemma gini_single_value_witness :
  gini [6e307%float] = Some 0%float
  /\ gini [0x1p+1023%float] = Some neg_infinity.
Proof.
  destruct gini_single_value as (_ & Hbelow & Habove & _). split.
  - apply Hbelow; reflexivity.
  - apply Habove; reflexivity.
Defined.

(** * Further properties of the code *)


(** X1. In every arithmetic [gini] raises exactly on an empty array: it
    returns a value for every non-empty one. *)
Theorem gini_raises_only_on_empty :
  forall (T : Type) (H : Scalar T) (arr : list T),
    gini arr = None <-> arr = [].
Proof.
  intros T H arr. split.
  - destruct arr as [|x l]; [reflexivity|].
    destruct (gini_defined x l) as [g ->]. discriminate.
  - intros ->. reflexivity.
Qed.

(** X2. In every arithmetic, with a non-zero epoch size and every proposer
    draw below the number of validators, the run raises nothing, and every
    ledger still has one entry per validator at the end. *)
Theorem run_completes :
  forall (T : Type) (H : Scalar T) (stakes : list Z) (EPOCH_SIZE : Z)
         (blocks : list (nat * T)),
    EPOCH_SIZE <> 0%Z ->
    Forall (fun blk => (fst blk < NUM_VALIDATORS stakes)%nat) blocks ->
    exists s,
      run stakes EPOCH_SIZE blocks = Done s
      /\ forall name, length (earnings s name) = NUM_VALIDATORS stakes.
Proof.
  intros T H stakes E blocks HE Hall. unfold run.
  destruct (main_loop_done stakes E (threshold_of blocks) blocks HE Hall 0%Z
              (initial stakes) (initial_well_formed stakes)) as (s & Es & W).
  exists s. split; [exact Es | exact W].
Qed.

Lemma run_completes_witness :
  exists s : state float,
    run [3; 5]%Z 2 [(1%nat, 2.5%float); (0%nat, 1%float); (1%nat, 4%float)] = Done s
    /\ forall name, length (earnings s name) = 2%nat.
Proof.
  apply (run_completes float binary64 [3; 5]%Z 2).
  - discriminate.
  - repeat constructor; cbn; lia.
Defined.

(** X3. In every arithmetic the report raises when there is no validator
    ([gini] of an empty ledger), and otherwise has one row per scenario, in
    the order Baseline, StakePool, EqualPool, RootStakePool. *)
Theorem summary_rows_defined :
  forall (T : Type) (H : Scalar T) (stakes : list Z) (s : state T),
    well_formed stakes s ->
    (stakes = [] -> summary_rows s = None)
    /\ (stakes <> [] ->
        exists rows, summary_rows s = Some rows
                     /\ map Scenario rows = scenarios).
Proof.
  intros T H stakes s W. split.
  - intros ->. pose proof (W Baseline) as Wb. cbn in Wb.
    apply length_zero_iff_nil in Wb.
    unfold summary_rows, scenarios. cbn [summary_loop earnings].
    now rewrite Wb.
  - intros Hne. now apply (summary_loop_defined stakes).
Qed.

Lemma summary_rows_defined_witness :
  exists rows, summary_rows (initial (T:=float) [1; 2]%Z) = Some rows
               /\ map Scenario rows = scenarios.
Proof.
  apply (proj2 (summary_rows_defined float binary64 [1; 2]%Z (initial [1; 2]%Z)
                  (initial_well_formed [1; 2]%Z))).
  discriminate.
Defined.

(** ** What the loop keeps in every arithmetic *)

Section LoopKeeps.
Context {T : Type} `{Scalar T}.
Variable stakes : list Z.
Variable EPOCH_SIZE : Z.

Lemma step_pools_agree (threshold : T) (b : Z) (blk : nat * T) (s : state T) :
  pools_agree s ->
  pools_agree (final_state (step stakes EPOCH_SIZE threshold b blk s)).
Proof.
  intros [E1 E2]. unfold step.
  destruct (choice stakes (fst blk)); [|now split].
  destruct (EPOCH_SIZE =? 0)%Z.
  - split; cbn; congruence.
  - destruct ((b + 1) mod EPOCH_SIZE =? 0)%Z; split; cbn; congruence.
Qed.

Lemma main_loop_pools_agree (threshold : T) (blocks : list (nat * T)) :
  forall (b : Z) (s : state T),
    pools_agree s ->
    pools_agree (final_state (main_loop stakes EPOCH_SIZE threshold b blocks s)).
Proof.
  induction blocks as [|blk blocks IH]; intros b s Hs; [exact Hs|].
  cbn [main_loop].
  pose proof (step_pools_agree threshold b blk s Hs) as Hstep.
  destruct (step stakes EPOCH_SIZE threshold b blk s) as [s'|e s'].
  - apply IH. exact Hstep.
  - exact Hstep.
Qed.

Lemma after_block_baseline_ledger (threshold : T) (b : Z) (blk : nat * T)
      (s : state T) :
  e_Baseline (after_block stakes EPOCH_SIZE threshold b blk s)
  = add_at (e_Baseline s) (fst blk) (snd blk).
Proof.
  unfold after_block, accounted.
  now destruct ((b + 1) mod EPOCH_SIZE =? 0)%Z.
Qed.

Lemma main_loop_baseline_ledger (threshold : T) (blocks : list (nat * T)) :
  EPOCH_SIZE <> 0%Z ->
  Forall (fun blk => (fst blk < NUM_VALIDATORS stakes)%nat) blocks ->
  forall (b : Z) (s : state T),
  exists s', main_loop stakes EPOCH_SIZE threshold b blocks s = Done s'
             /\ e_Baseline s' = accumulated blocks (e_Baseline s).
Proof.
  intros HE. induction 1 as [|blk blocks Hb _ IH]; intros b s.
  - exists s. now split.
  - cbn [main_loop]. rewrite step_done by assumption.
    destruct (IH (b + 1)%Z (after_block stakes EPOCH_SIZE threshold b blk s))
      as (s' & E & Hl).
    exists s'. split; [exact E|].
    rewrite Hl, after_block_baseline_ledger. reflexivity.
Qed.

(** When the last block closes an epoch the loop ends with empty pools. *)
Lemma main_loop_ends_on_boundary (threshold : T) (blocks : list (nat * T)) :
  EPOCH_SIZE <> 0%Z ->
  blocks <> [] ->
  (Z.of_nat (length blocks) mod EPOCH_SIZE = 0)%Z ->
  Forall (fun blk => (fst blk < NUM_VALIDATORS stakes)%nat) blocks ->
  forall s : state T, well_formed stakes s ->
  exists s', main_loop stakes EPOCH_SIZE threshold 0 blocks s = Done s'
             /\ forall p, pool_balances s' p = s_zero.
Proof.
  intros HE Hne Hdiv Hall s W.
  destruct (exists_last Hne) as (front & blk & ->).
  apply Forall_app in Hall as [Hfront Hblk]. apply Forall_inv in Hblk.
  destruct (main_loop_done stakes EPOCH_SIZE threshold front HE Hfront 0%Z s W)
    as (s1 & E1 & W1).
  rewrite main_loop_app, E1. cbn [main_loop].
  rewrite step_done by assumption.
  eexists. split; [reflexivity|]. intros p.
  unfold after_block.
  rewrite length_app in Hdiv. cbn [length] in Hdiv.
  replace (0 + Z.of_nat (length front) + 1)%Z
    with (Z.of_nat (length front + 1)) by lia.
  apply Z.eqb_eq in Hdiv. rewrite Hdiv. now destruct p.
Qed.

End LoopKeeps.

(** X4. In every arithmetic, and however the run ends (normally or by an
    exception), the pools of StakePool, EqualPool and RootStakePool hold one
    and the same balance. *)
Theorem pools_always_agree :
  forall (T : Type) (H : Scalar T) (stakes : list Z) (EPOCH_SIZE : Z)
         (blocks : list (nat * T)),
    pools_agree (final_state (run stakes EPOCH_SIZE blocks)).
Proof.
  intros T H stakes E blocks. unfold run.
  apply main_loop_pools_agree. now split.
Qed.

(** X5. In every arithmetic (so bit for bit in binary64) the Baseline ledger
    of a run is the block values added up at their proposers in block order:
    it does not depend on the epoch size, on the threshold or on the stakes
    beyond their number. *)
Theorem baseline_is_accumulation :
  forall (T : Type) (H : Scalar T) (stakes : list Z) (EPOCH_SIZE : Z)
         (blocks : list (nat * T)),
    EPOCH_SIZE <> 0%Z ->
    Forall (fun blk => (fst blk < NUM_VALIDATORS stakes)%nat) blocks ->
    exists s,
      run stakes EPOCH_SIZE blocks = Done s
      /\ earnings s Baseline
         = accumulated blocks (repeat s_zero (NUM_VALIDATORS stakes)).
Proof.
  intros T H stakes E blocks HE Hall. unfold run.
  destruct (main_loop_baseline_ledger stakes E (threshold_of blocks) blocks HE
              Hall 0%Z (initial stakes)) as (s & Es & Hl).
  exists s. split; [exact Es | exact Hl].
Qed.

Lemma baseline_is_accumulation_witness :
  exists s : state float,
    run [3; 5]%Z 2 [(1%nat, 2.5%float); (0%nat, 1%float); (1%nat, 4%float)] = Done s
    /\ earnings s Baseline
       = accumulated [(1%nat, 2.5%float); (0%nat, 1%float); (1%nat, 4%float)]
                     (repeat 0%float 2).
Proof.
  apply (baseline_is_accumulation float binary64 [3; 5]%Z 2).
  - discriminate.
  - repeat constructor; cbn; lia.
Defined.

(** X6. When the epoch size divides the number of blocks, the last block
    closes an epoch: in every arithmetic the run ends with all pools at
    zero, and in exact arithmetic every pooled ledger then sums to the sum of
    all block values, as the Baseline ledger does. *)
Theorem complete_epochs_lose_nothing :
  forall (stakes : list Z) (EPOCH_SIZE : Z),
    (0 < EPOCH_SIZE)%Z ->
    (forall (T : Type) (H : Scalar T) (blocks : list (nat * T)),
        blocks <> [] ->
        (Z.of_nat (length blocks) mod EPOCH_SIZE = 0)%Z ->
        Forall (fun blk => (fst blk < NUM_VALIDATORS stakes)%nat) blocks ->
        exists s, run stakes EPOCH_SIZE blocks = Done s
                  /\ forall p, pool_balances s p = s_zero)
    /\ (forall blocks : list (nat * R),
        stakes_drawn stakes ->
        (Z.of_nat (length blocks) mod EPOCH_SIZE = 0)%Z ->
        Forall (fun blk => (fst blk < NUM_VALIDATORS stakes)%nat) blocks ->
        exists s, run stakes EPOCH_SIZE blocks = Done s
                  /\ (forall p, sum (earnings s (Pooled p)) = sum (map snd blocks))
                  /\ sum (earnings s Baseline) = sum (map snd blocks)).
Proof.
  intros stakes E HE. split.
  - intros T H blocks Hne Hdiv Hall. unfold run.
    apply main_loop_ends_on_boundary; try assumption; try lia.
    apply initial_well_formed.
  - intros blocks Hd Hdiv Hall. unfold run.
    destruct (main_loop_conserves stakes E (threshold_of blocks) blocks Hd
                ltac:(lia) Hall 0%Z (initial stakes) (initial_well_formed stakes))
      as (s & Es & W & Hh & Hb).
    assert (Hpool : forall p, pool_balances s p = 0%R).
    { destruct blocks as [|blk rest].
      - cbn in Es. injection Es as <-. now intros [].
      - destruct (main_loop_ends_on_boundary stakes E (threshold_of (blk :: rest))
                    (blk :: rest) ltac:(lia) ltac:(discriminate) Hdiv Hall
                    (initial stakes) (initial_well_formed stakes))
          as (s' & Es' & Hz).
        rewrite Es in Es'. injection Es' as <-. exact Hz. }
    exists s. split; [exact Es|]. split.
    + intros p. specialize (Hh p). unfold holdings in Hh.
      rewrite (Hpool p) in Hh.
      assert (H0 : (sum (earnings (initial (T:=R) stakes) (Pooled p))
                    + pool_balances (initial stakes) p = 0)%R).
      { destruct p; cbn [earnings pool_balances initial e_StakePool e_EqualPool
                         e_RootStakePool p_StakePool p_EqualPool p_RootStakePool];
          rewrite sum_repeat; cbn; lra. }
      lra.
    + rewrite Hb. cbn [earnings initial e_Baseline]. rewrite sum_repeat.
      cbn [s_zero exact]. lra.
Qed.

Lemma complete_epochs_lose_nothing_witness :
  exists s : state R,
    run [1; 2; 3]%Z 2 [(0%nat, 10%R); (2%nat, 20%R)] = Done s
    /\ (forall p, sum (earnings s (Pooled p)) = sum [10%R; 20%R])
    /\ sum (earnings s Baseline) = sum [10%R; 20%R].
Proof.
  destruct (complete_epochs_lose_nothing [1; 2; 3]%Z 2) as [_ Hx]; [lia|].
  apply (Hx [(0%nat, 10%R); (2%nat, 20%R)]).
  - split; [discriminate|]. repeat constructor; lia.
  - reflexivity.
  - repeat constructor; cbn; lia.
Defined.

(** ** Order does not matter, in exact arithmetic *)

Section OrderExact.
Local Open Scope R_scope.

Lemma sorted_perm_unique (l1 l2 : list R) :
  StronglySorted Rle l1 -> StronglySorted Rle l2 -> Permutation l1 l2 ->
  l1 = l2.
Proof.
  intros H1. revert l2. induction H1 as [|a t1 Hs1 IH Ha]; intros l2 H2 P.
  - apply Permutation_nil in P. now subst.
  - destruct H2 as [|b t2 Hs2 Hb].
    + apply Permutation_sym, Permutation_nil in P. discriminate.
    + assert (Hab : a <= b).
      { assert (In b (a :: t1)) by (eapply Permutation_in;
          [apply Permutation_sym; exact P | now left]).
        destruct H as [->|Hin]; [lra|].
        rewrite Forall_forall in Ha. now apply Ha. }
      assert (Hba : b <= a).
      { assert (In a (b :: t2)) by (eapply Permutation_in; [exact P | now left]).
        destruct H as [->|Hin]; [lra|].
        rewrite Forall_forall in Hb. now apply Hb. }
      assert (a = b) by lra. subst b.
      f_equal. apply IH; [assumption|].
      eapply Permutation_cons_inv. exact P.
Qed.

Lemma sort_perm_eq (l1 l2 : list R) : Permutation l1 l2 -> sort l1 = sort l2.
Proof.
  intros P. apply sorted_perm_unique; try apply sort_sorted.
  rewrite <- (sort_perm l1), <- (sort_perm l2). exact P.
Qed.

Lemma amin_in (l : list R) (lo : R) : amin l = Some lo -> In lo l.
Proof.
  revert lo. induction l as [|x l IH]; intros lo Hlo; [discriminate|].
  destruct l as [|y l].
  - cbn in Hlo. injection Hlo as <-. now left.
  - change (amin (x :: y :: l)) with (option_map (minimum x) (amin (y :: l))) in Hlo.
    destruct (amin (y :: l)) as [m|] eqn:Em; [|discriminate].
    cbn [option_map] in Hlo. injection Hlo as <-.
    specialize (IH m eq_refl). unfold minimum.
    destruct (_ || _); [now left | now right].
Qed.

Lemma amin_perm (l1 l2 : list R) : Permutation l1 l2 -> amin l1 = amin l2.
Proof.
  intros P. destruct l1 as [|x1 t1].
  - apply Permutation_nil in P. now subst.
  - destruct l2 as [|x2 t2];
      [apply Permutation_sym, Permutation_nil in P; discriminate|].
    destruct (amin_some x1 t1) as [a Ha]. destruct (amin_some x2 t2) as [b Hb].
    rewrite Ha, Hb. f_equal.
    pose proof (amin_lower _ _ Ha) as La. pose proof (amin_lower _ _ Hb) as Lb.
    pose proof (amin_in _ _ Ha) as Ia. pose proof (amin_in _ _ Hb) as Ib.
    rewrite Forall_forall in La, Lb.
    assert (a <= b) by (apply La; eapply Permutation_in;
                        [apply Permutation_sym; exact P | exact Ib]).
    assert (b <= a) by (apply Lb; eapply Permutation_in; [exact P | exact Ia]).
    lra.
Qed.

Lemma gini_shift_perm (e : R) (l1 l2 : list R) :
  Permutation l1 l2 -> gini_shift e l1 = gini_shift e l2.
Proof.
  intros P. unfold gini_shift. rewrite (amin_perm _ _ P).
  destruct (amin l2) as [lo|]; [|reflexivity].
  set (f := fun arr : list R =>
              map (fun x => s_add x e)
                  (if s_ltb lo s_zero then map (fun x => s_sub x lo) arr else arr)).
  assert (Pf : Permutation (f l1) (f l2)).
  { unfold f. apply Permutation_map.
    destruct (s_ltb lo s_zero); [now apply Permutation_map | exact P]. }
  fold (f l1) (f l2).
  rewrite (sort_perm_eq _ _ Pf), (Permutation_length Pf). reflexivity.
Qed.

Lemma median_perm (l1 l2 : list R) :
  Permutation l1 l2 -> median l1 = median l2.
Proof.
  intros P. unfold median.
  rewrite !existsb_is_nan_exact, (sort_perm_eq _ _ P), (Permutation_length P).
  reflexivity.
Qed.

End OrderExact.

(** X7. In exact arithmetic the Gini coefficient does not depend on the
    order of the array: it is the same for every rearrangement of the
    validators. *)
Theorem gini_ignores_order :
  forall arr arr' : list R,
    Permutation arr arr' -> gini arr = gini arr'.
Proof.
  intros arr arr' P. now apply gini_shift_perm.
Qed.

Lemma gini_ignores_order_witness : gini [3%R; 1%R; 2%R] = gini [1%R; 2%R; 3%R].
Proof.
  apply (gini_ignores_order [3%R; 1%R; 2%R] [1%R; 2%R; 3%R]).
  apply perm_trans with (1%R :: 3%R :: 2%R :: nil).
  - apply perm_swap.
  - apply perm_skip, perm_swap.
Defined.

(** X8. In exact arithmetic the threshold does not depend on the order of
    the blocks: the median of the block values is the same for every
    rearrangement of them. *)
Theorem threshold_ignores_order :
  forall blocks blocks' : list (nat * R),
    Permutation blocks blocks' ->
    threshold_of blocks = threshold_of blocks'.
Proof.
  intros blocks blocks' P. unfold threshold_of.
  apply median_perm. now apply Permutation_map.
Qed.

Lemma threshold_ignores_order_witness :
  threshold_of [(0%nat, 10%R); (1%nat, 20%R)]
  = threshold_of [(1%nat, 20%R); (0%nat, 10%R)].
Proof.
  apply (threshold_ignores_order [(0%nat, 10%R); (1%nat, 20%R)]
                                 [(1%nat, 20%R); (0%nat, 10%R)]).
  apply perm_swap.
Defined.

(** ** More on the Gini coefficient, the median and the spread, in exact
    arithmetic *)

Section StatisticsExact.
Local Open Scope R_scope.

Lemma minimum_translate (c x y : R) :
  minimum (x - c) (y - c) = minimum x y - c.
Proof.
  unfold minimum. rewrite !is_nan_exact, !orb_false_r. cbn [s_ltb exact].
  replace (Rltb (x - c) (y - c)) with (Rltb x y); [now destruct (Rltb x y)|].
  destruct (Rltb x y) eqn:E; symmetry.
  - apply Rltb_true in E. apply Rltb_true. lra.
  - apply Rltb_false in E. apply Rltb_false. lra.
Qed.

Lemma amin_translate (c : R) (l : list R) :
  amin (map (fun x => x - c) l) = option_map (fun m => m - c) (amin l).
Proof.
  induction l as [|x l IH]; [reflexivity|].
  destruct l as [|y l]; [reflexivity|].
  change (amin (map (fun x => x - c) (x :: y :: l)))
    with (option_map (minimum (x - c)) (amin (map (fun x => x - c) (y :: l)))).
  change (amin (x :: y :: l)) with (option_map (minimum x) (amin (y :: l))).
  rewrite IH. destruct (amin (y :: l)) as [m|]; [|reflexivity].
  cbn [option_map]. now rewrite minimum_translate.
Qed.

(** The value of [gini] through the ratio [q] of the summed running totals
    to the total. *)
Lemma gini_exact_form (arr : list R) :
  arr <> [] ->
  exists q,
    gini arr = Some ((INR (length arr) + 1 - 2 * q) / INR (length arr))
    /\ 1 <= q /\ 2 * q <= INR (length arr) + 1.
Proof.
  intros Hne. destruct arr as [|x0 l]; [congruence|].
  destruct (amin_some x0 l) as [lo Hlo].
  unfold gini. rewrite (gini_shift_value _ _ _ Hlo).
  set (arr := x0 :: l) in *.
  set (L := lifted s_1e_9 arr lo).
  assert (He : 0 < s_1e_9) by (cbn; lra).
  pose proof (lifted_positive s_1e_9 arr lo He Hlo) as Hpos. fold L in Hpos.
  pose proof (sort_perm L) as HP.
  pose proof (sort_sorted L) as HS.
  assert (Hpos' : Forall (fun y => 0 < y) (sort L))
    by (eapply Permutation_Forall; eassumption).
  assert (Hlen : length (sort L) = length arr)
    by (rewrite sort_length; apply lifted_length).
  assert (Hsum : 0 < sum L).
  { rewrite (sum_perm _ _ HP).
    destruct (sort L) as [|y t] eqn:Ey; [cbn in Hlen; discriminate|].
    rewrite sum_cons. inversion Hpos' as [|? ? Hy Ht]; subst.
    assert (0 <= sum t).
    { apply sum_nonneg. eapply Forall_impl; [|exact Ht]. intros; cbn in *; lra. }
    lra. }
  pose proof (gap_nonneg _ HS) as Hgap.
  assert (Hramp : sum L <= ramp (sort L)).
  { rewrite (sum_perm _ _ HP). apply ramp_ge_sum.
    eapply Forall_impl; [|exact Hpos']. intros; cbn in *; lra. }
  rewrite Hlen, <- (sum_perm _ _ HP) in Hgap.
  exists (ramp (sort L) / sum L).
  rewrite plus_IZR, <- !INR_IZR_INZ.
  set (S := sum L) in *. set (W := ramp (sort L)) in *.
  set (q := W / S).
  assert (Eq : W = q * S) by (unfold q; field; lra).
  split; [|split].
  - do 3 f_equal. unfold q. field. lra.
  - nra.
  - nra.
Qed.

Lemma nth_sort_bounds (lo hi : R) (values : list R) (k : nat) :
  Forall (fun v => lo <= v) values -> Forall (fun v => v <= hi) values ->
  (k < length values)%nat ->
  lo <= nth k (sort values) 0 <= hi.
Proof.
  intros Hlo Hhi Hk.
  assert (Hin : In (nth k (sort values) 0) values).
  { eapply Permutation_in; [apply Permutation_sym, sort_perm|].
    apply nth_In. now rewrite sort_length. }
  rewrite Forall_forall in Hlo, Hhi. split; [now apply Hlo | now apply Hhi].
Qed.

Lemma median_between_bounds (lo hi : R) (values : list R) :
  values <> [] ->
  Forall (fun v => lo <= v) values -> Forall (fun v => v <= hi) values ->
  lo <= median values <= hi.
Proof.
  intros Hne Hlo Hhi. unfold median. rewrite existsb_is_nan_exact.
  set (n := length values).
  assert (Hn : (0 < n)%nat) by (unfold n; destruct values; [congruence | cbn; lia]).
  destruct n as [|n'] eqn:En; [lia|]. rewrite <- En in *.
  change (@s_zero R exact) with 0.
  destruct (Nat.even n) eqn:Ev.
  - pose proof (even_half n Ev).
    pose proof (nth_sort_bounds lo hi values (n / 2 - 1) Hlo Hhi ltac:(fold n; lia)).
    pose proof (nth_sort_bounds lo hi values (n / 2) Hlo Hhi ltac:(fold n; lia)).
    rewrite mean_two. lra.
  - pose proof (odd_half n Ev).
    pose proof (nth_sort_bounds lo hi values (n / 2) Hlo Hhi ltac:(fold n; lia)).
    rewrite mean_one. lra.
Qed.

Lemma median_at_least (lo : R) (values : list R) :
  values <> [] -> Forall (fun v => lo <= v) values -> lo <= median values.
Proof.
  intros Hne Hlo. unfold median. rewrite existsb_is_nan_exact.
  set (n := length values).
  assert (Hn : (0 < n)%nat) by (unfold n; destruct values; [congruence | cbn; lia]).
  assert (Hk : forall k, (k < n)%nat -> lo <= nth k (sort values) 0).
  { intros k Hk. rewrite Forall_forall in Hlo. apply Hlo.
    eapply Permutation_in; [apply Permutation_sym, sort_perm|].
    apply nth_In. now rewrite sort_length. }
  destruct n as [|n'] eqn:En; [lia|]. rewrite <- En in *.
  change (@s_zero R exact) with 0.
  destruct (Nat.even n) eqn:Ev.
  - pose proof (even_half n Ev).
    pose proof (Hk (n / 2 - 1)%nat ltac:(lia)). pose proof (Hk (n / 2)%nat ltac:(lia)).
    rewrite mean_two. lra.
  - pose proof (odd_half n Ev). pose proof (Hk (n / 2)%nat ltac:(lia)).
    rewrite mean_one. lra.
Qed.

Lemma sum_zero_all (l : list R) :
  Forall (fun y => 0 <= y) l -> sum l = 0 -> Forall (fun y => y = 0) l.
Proof.
  induction 1 as [|y l Hy Hl IH]; intros Hs; [constructor|].
  rewrite sum_cons in Hs. pose proof (sum_nonneg _ Hl).
  constructor; [lra | apply IH; lra].
Qed.

Lemma sum_all_equal (x : R) (l : list R) :
  Forall (fun y => y = x) l -> sum l = INR (length l) * x.
Proof.
  induction 1 as [|y l Hy _ IH].
  - cbn [length INR]. rewrite sum_nil. lra.
  - subst y. cbn [length]. rewrite S_INR, sum_cons, IH. lra.
Qed.

Lemma mean_exact (arr : list R) : mean arr = sum arr / INR (length arr).
Proof. unfold mean. cbn [s_div s_of_Z exact]. now rewrite <- INR_IZR_INZ. Qed.

Lemma std_exact (arr : list R) :
  std arr
  = R_sqrt.sqrt (sum (map (fun a => (a - mean arr) * (a - mean arr)) arr)
                 / INR (length arr)).
Proof.
  unfold std. cbn [s_sqrt s_div s_sub s_mul s_of_Z exact].
  now rewrite <- INR_IZR_INZ.
Qed.

End StatisticsExact.

(** X9. In exact arithmetic, when the smallest value of the array is
    negative, [gini] is the coefficient of the array moved up by that value,
    so that its smallest value is 0. *)
Theorem gini_moves_negative_arrays :
  forall (arr : list R) (lo : R),
    amin arr = Some lo ->
    (lo < 0)%R ->
    gini arr = gini (map (fun x => (x - lo)%R) arr).
Proof.
  intros arr lo Hlo Hneg. unfold gini, gini_shift.
  rewrite amin_translate, Hlo. cbn [option_map s_ltb s_zero s_sub exact].
  assert (E1 : Rltb lo 0 = true) by (now apply Rltb_true).
  assert (E2 : Rltb (lo - lo) 0 = false) by (apply Rltb_false; lra).
  rewrite E1, E2, !length_map. reflexivity.
Qed.

Lemma gini_moves_negative_arrays_witness :
  gini [(-2)%R; 1%R] = gini (map (fun x => (x - (-2))%R) [(-2)%R; 1%R]).
Proof.
  apply (gini_moves_negative_arrays [(-2)%R; 1%R] (-2)%R).
  - cbn [amin option_map]. unfold minimum.
    rewrite is_nan_exact, orb_false_r. cbn [s_ltb exact].
    assert (E : Rltb (-2) 1 = true) by (apply Rltb_true; lra).
    now rewrite E.
  - lra.
Defined.

(** X10. In exact arithmetic the Gini coefficient of an array of [n] values
    is at most [1 - 1/n]. *)
Theorem gini_upper_bound :
  forall arr : list R,
    arr <> [] ->
    exists g, gini arr = Some g /\ (g <= 1 - 1 / INR (length arr))%R.
Proof.
  intros arr Hne. destruct (gini_exact_form arr Hne) as (q & E & Hq1 & Hq2).
  eexists. split; [exact E|].
  assert (Hn : (1 <= INR (length arr))%R).
  { destruct arr as [|x l]; [congruence|]. cbn [length]. rewrite S_INR.
    pose proof (pos_INR (length l)). lra. }
  set (n := INR (length arr)) in *.
  replace (1 - 1 / n)%R with ((n - 1) / n)%R by (field; lra).
  unfold Rdiv. apply Rmult_le_compat_r.
  - left. apply Rinv_0_lt_compat. lra.
  - lra.
Qed.

Lemma gini_upper_bound_witness :
  exists g, gini [0%R; 0%R; 9%R] = Some g /\ (g <= 1 - 1 / INR 3)%R.
Proof.
  apply (gini_upper_bound [0%R; 0%R; 9%R]). discriminate.
Defined.

(** X11. In exact arithmetic the threshold lies between the smallest and the
    largest block value: whatever bounds all block values bounds their
    median. *)
Theorem threshold_between_block_values :
  forall (lo hi : R) (blocks : list (nat * R)),
    blocks <> [] ->
    Forall (fun blk => (lo <= snd blk)%R) blocks ->
    Forall (fun blk => (snd blk <= hi)%R) blocks ->
    (lo <= threshold_of blocks <= hi)%R.
Proof.
  intros lo hi blocks Hne Hlo Hhi. unfold threshold_of.
  apply median_between_bounds.
  - destruct blocks; [congruence | discriminate].
  - now apply Forall_map.
  - now apply Forall_map.
Qed.

Lemma threshold_between_block_values_witness :
  (10 <= threshold_of [(0%nat, 10%R); (1%nat, 20%R)] <= 20)%R.
Proof.
  apply (threshold_between_block_values 10 20 [(0%nat, 10%R); (1%nat, 20%R)]).
  - discriminate.
  - repeat constructor; cbn; lra.
  - repeat constructor; cbn; lra.
Defined.

(** X12. In exact arithmetic the standard deviation the report shows for a
    non-empty ledger is never negative, and it is 0 exactly when all
    validators have the same earnings. *)
Theorem std_zero_iff_equal :
  forall arr : list R,
    arr <> [] ->
    (0 <= std arr)%R
    /\ (std arr = 0%R <-> exists x, Forall (fun y => y = x) arr).
Proof.
  intros arr Hne. rewrite std_exact.
  set (m := mean arr).
  set (sq := map (fun a => ((a - m) * (a - m))%R) arr).
  assert (Hn : (0 < INR (length arr))%R).
  { destruct arr as [|x l]; [congruence|]. cbn [length]. rewrite S_INR.
    pose proof (pos_INR (length l)). lra. }
  assert (Hsq : Forall (fun y => (0 <= y)%R) sq).
  { unfold sq. apply Forall_map, Forall_forall. intros a _. cbn beta.
    generalize (a - m)%R. intros d. nra. }
  pose proof (sum_nonneg _ Hsq) as HS.
  assert (Hv : (0 <= sum sq / INR (length arr))%R).
  { apply Rmult_le_pos; [lra|]. left. now apply Rinv_0_lt_compat. }
  split; [apply sqrt_pos|]. split.
  - intros Hz. apply sqrt_eq_0 in Hz; [|exact Hv].
    assert (Hs0 : sum sq = 0%R).
    { apply (Rmult_eq_reg_r (/ INR (length arr))).
      - rewrite Rmult_0_l. exact Hz.
      - apply Rinv_neq_0_compat. lra. }
    exists m. pose proof (sum_zero_all _ Hsq Hs0) as Hall.
    unfold sq in Hall. rewrite Forall_map in Hall.
    eapply Forall_impl; [|exact Hall]. intros a Ha. cbn beta in Ha.
    apply Rmult_integral in Ha. destruct Ha; lra.
  - intros [x Hx].
    assert (Em : m = x).
    { unfold m. rewrite mean_exact, (sum_all_equal x arr Hx). field. lra. }
    assert (Es : sum sq = 0%R).
    { assert (Hz : Forall (fun y => y = 0%R) sq).
      { unfold sq. apply Forall_map. eapply Forall_impl; [|exact Hx].
        intros a Ha. cbn in *. rewrite Em, Ha. ring. }
      rewrite (sum_all_equal 0 sq Hz). ring. }
    rewrite Es. unfold Rdiv. rewrite Rmult_0_l. apply sqrt_0.
Qed.

Lemma std_zero_iff_equal_witness : (0 <= std [1%R; 4%R])%R.
Proof.
  apply (std_zero_iff_equal [1%R; 4%R]). discriminate.
Defined.

(** ** The split at the threshold *)

(** X13. In binary64 the surplus is never negative and never NaN, whatever
    the block value and the threshold are (NaN and infinities included):
    [0 <= surplus] always holds.  In exact arithmetic the surplus is
    [max(0, mev - threshold)] and what the proposer keeps is
    [min(mev, threshold)]. *)
Theorem surplus_never_negative :
  (forall threshold mev : float,
      PrimFloat.leb 0 (surplus_of threshold mev) = true)
  /\ (forall threshold mev : R,
        surplus_of threshold mev = Rmax 0 (mev - threshold)
        /\ keep_of threshold mev = Rmin mev threshold).
Proof.
  split.
  - intros threshold mev. unfold surplus_of, py_max.
    cbn [s_zero s_sub s_ltb binary64].
    destruct (PrimFloat.ltb zero (PrimFloat.sub mev threshold)) eqn:E.
    + rewrite FloatAxioms.leb_spec. rewrite FloatAxioms.ltb_spec in E.
      now apply SFltb_SFleb.
    + reflexivity.
  - intros threshold mev. unfold keep_of, surplus_of, py_max.
    cbn [s_zero s_sub s_ltb exact]. unfold Rmax, Rmin.
    destruct (Rltb 0 (mev - threshold)) eqn:E.
    + apply Rltb_true in E.
      destruct (Rle_dec 0 (mev - threshold)), (Rle_dec mev threshold);
        split; lra.
    + apply Rltb_false in E.
      destruct (Rle_dec 0 (mev - threshold)), (Rle_dec mev threshold);
        split; lra.
Qed.

(** X14. In binary64, for a positive finite block value and threshold: a
    block value at or below the threshold goes to the proposer whole (the
    surplus is 0.0 and what is kept is the block value, bit for bit), and a
    block value above the threshold always leaves a positive surplus for the
    pool. *)
Theorem threshold_decides_surplus :
  forall threshold mev : float,
    positive_finite mev ->
    positive_finite threshold ->
    (PrimFloat.leb mev threshold = true ->
     surplus_of threshold mev = 0%float /\ keep_of threshold mev = mev)
    /\ (PrimFloat.ltb threshold mev = true ->
        PrimFloat.ltb 0 (surplus_of threshold mev) = true).
Proof.
  intros threshold mev Hm Ht. split.
  - intros Hle.
    pose proof (surplus_zero_below mev threshold Hm Ht Hle) as E.
    assert (Es : surplus_of threshold mev = 0%float).
    { unfold surplus_of, py_max. cbn [s_zero s_sub s_ltb binary64].
      change (PrimFloat.ltb zero (PrimFloat.sub mev threshold))
        with (PrimFloat.ltb 0 (PrimFloat.sub mev threshold)).
      now rewrite E. }
    split; [exact Es|].
    unfold keep_of. rewrite Es. cbn [s_sub binary64].
    destruct (positive_finite_spec mev Hm) as (mx & ex & Em & _).
    apply Prim2SF_inj. rewrite FloatAxioms.sub_spec, Em. reflexivity.
  - intros Hlt.
    pose proof (surplus_positive_above mev threshold Hm Ht Hlt) as E.
    unfold surplus_of, py_max. cbn [s_zero s_sub s_ltb binary64].
    change (PrimFloat.ltb zero (PrimFloat.sub mev threshold))
      with (PrimFloat.ltb 0 (PrimFloat.sub mev threshold)).
    rewrite E. exact E.
Qed.

Lemma threshold_decides_surplus_witness :
  surplus_of 0.3%float 0.1%float = 0%float
  /\ keep_of 0.3%float 0.1%float = 0.1%float.
Proof.
  apply (threshold_decides_surplus 0.3%float 0.1%float).
  - split; reflexivity.
  - split; reflexivity.
  - reflexivity.
Defined.

(** ** Runs in exact arithmetic: equal stakes, signs, shares *)

Section RunsExact.
Local Open Scope R_scope.

Lemma zip_with_repeat {A : Type} (f : R -> A -> R) (es : list R) (a : A)
      (n : nat) :
  length es = n -> zip_with f es (repeat a n) = map (fun e => f e a) es.
Proof.
  intros <-. induction es as [|e es IH]; [reflexivity|].
  cbn [length repeat zip_with map]. now rewrite IH.
Qed.

Lemma total_stake_repeat (k : Z) (n : nat) :
  IZR (total_stake (repeat k n)) = INR n * IZR k.
Proof.
  rewrite IZR_total_stake, map_repeat. apply sum_repeat.
Qed.

Lemma total_root_weight_repeat (k : Z) (n : nat) :
  total_root_weight (T:=R) (repeat k n) = INR n * R_sqrt.sqrt (IZR k).
Proof.
  unfold total_root_weight, root_weights. rewrite map_repeat.
  apply sum_repeat.
Qed.

(** With one stake for all, the three distributions give every validator
    the same amount. *)
Lemma distribute_equal_stakes (k : Z) (n : nat) (s : state R) :
  (1 <= k)%Z -> (0 < n)%nat -> well_formed (repeat k n) s ->
  e_StakePool s = e_EqualPool s -> e_EqualPool s = e_RootStakePool s ->
  pools_agree s ->
  e_StakePool (distribute (repeat k n) s) = e_EqualPool (distribute (repeat k n) s)
  /\ e_EqualPool (distribute (repeat k n) s)
     = e_RootStakePool (distribute (repeat k n) s).
Proof.
  intros Hk Hn W E1 E2 [P1 P2].
  pose proof (W (Pooled StakePool)) as Ws.
  pose proof (W (Pooled RootStakePool)) as Wr.
  cbn [earnings] in Ws, Wr. unfold NUM_VALIDATORS in Ws, Wr.
  rewrite repeat_length in Ws, Wr.
  assert (HkR : 1 <= IZR k) by (now apply IZR_le).
  assert (HnR : 0 < INR n) by (now apply lt_0_INR).
  assert (Hsq : 0 < R_sqrt.sqrt (IZR k)) by (apply sqrt_lt_R0; lra).
  cbn [distribute e_StakePool e_EqualPool e_RootStakePool
       s_add s_mul s_div s_of_Z exact].
  unfold NUM_VALIDATORS, root_weights. rewrite repeat_length, map_repeat.
  rewrite total_stake_repeat, total_root_weight_repeat, <- INR_IZR_INZ.
  rewrite (zip_with_repeat _ _ _ _ Ws), (zip_with_repeat _ _ _ _ Wr).
  rewrite <- E2, <- E1, <- P2, <- P1. split.
  - apply map_ext. intros e. field. lra.
  - apply map_ext. intros e. cbn [s_sqrt s_of_Z exact]. field. lra.
Qed.

Lemma main_loop_equal_stakes (k : Z) (n : nat) (EPOCH_SIZE : Z) (threshold : R)
      (blocks : list (nat * R)) :
  (1 <= k)%Z -> (0 < n)%nat -> EPOCH_SIZE <> 0%Z ->
  Forall (fun blk => (fst blk < NUM_VALIDATORS (repeat k n))%nat) blocks ->
  forall (b : Z) (s : state R),
    well_formed (repeat k n) s ->
    e_StakePool s = e_EqualPool s -> e_EqualPool s = e_RootStakePool s ->
    pools_agree s ->
    exists s', main_loop (repeat k n) EPOCH_SIZE threshold b blocks s = Done s'
               /\ e_StakePool s' = e_EqualPool s'
               /\ e_EqualPool s' = e_RootStakePool s'.
Proof.
  intros Hk Hn HE. induction 1 as [|blk blocks Hb _ IH]; intros b s W E1 E2 HP.
  - exists s. auto.
  - cbn [main_loop]. rewrite step_done by assumption.
    set (s1 := accounted threshold blk s).
    assert (W1 : well_formed (repeat k n) s1) by (now apply account_well_formed).
    assert (A1 : e_StakePool s1 = e_EqualPool s1) by (cbn; now rewrite E1).
    assert (A2 : e_EqualPool s1 = e_RootStakePool s1) by (cbn; now rewrite E2).
    assert (AP : pools_agree s1) by (destruct HP; split; cbn; congruence).
    apply IH.
    + now apply after_block_well_formed.
    + unfold after_block. fold s1. destruct (_ =? _)%Z; [|exact A1].
      now apply distribute_equal_stakes.
    + unfold after_block. fold s1. destruct (_ =? _)%Z; [|exact A2].
      now apply distribute_equal_stakes.
    + unfold after_block. fold s1. destruct (_ =? _)%Z; [now split | exact AP].
Qed.

Lemma Forall_add_at (P : R -> Prop) (arr : list R) (i : nat) (x : R) :
  (forall a, P a -> P (a + x)) -> Forall P arr -> Forall P (add_at arr i x).
Proof.
  intros Hp Ha. revert i. induction Ha as [|a arr Pa Ha IH]; intros [|i];
    cbn [add_at]; try constructor; auto.
Qed.

Lemma Forall_zip_with {A : Type} (P : R -> Prop) (Q : A -> Prop)
      (f : R -> A -> R) (xs : list R) (ys : list A) :
  (forall x y, P x -> Q y -> P (f x y)) ->
  Forall P xs -> Forall Q ys -> Forall P (zip_with f xs ys).
Proof.
  intros Hf Hx. revert ys. induction Hx as [|x xs Px _ IH]; intros ys Hy.
  - constructor.
  - destruct Hy as [|y ys Qy Hys]; cbn [zip_with]; constructor; auto.
Qed.

Lemma account_nowhere_negative (pr : nat) (threshold mev : R) (s : state R) :
  0 <= threshold -> 0 <= mev -> nowhere_negative s ->
  nowhere_negative
    (account pr mev (surplus_of threshold mev) (keep_of threshold mev) s).
Proof.
  intros Ht Hm [He Hp].
  assert (Hs : 0 <= surplus_of threshold mev /\ 0 <= keep_of threshold mev).
  { unfold keep_of, surplus_of, py_max. cbn [s_zero s_sub s_ltb exact].
    destruct (Rltb 0 (mev - threshold)) eqn:E.
    - apply Rltb_true in E. lra.
    - apply Rltb_false in E. lra. }
  destruct Hs as [Hs Hk]. split.
  - intros name. specialize (He name).
    destruct name as [|[]]; cbn [earnings account e_Baseline e_StakePool
                                 e_EqualPool e_RootStakePool] in *;
      apply Forall_add_at; try assumption; cbn [s_add exact]; intros; lra.
  - intros p. specialize (Hp p).
    destruct p; cbn [pool_balances account p_StakePool p_EqualPool
                     p_RootStakePool s_add exact] in *; lra.
Qed.

Lemma distribute_nowhere_negative (stakes : list Z) (s : state R) :
  stakes_drawn stakes -> nowhere_negative s ->
  nowhere_negative (distribute stakes s).
Proof.
  intros Hd [He Hp].
  pose proof (total_stake_pos stakes Hd) as Hs.
  pose proof (total_root_weight_pos stakes Hd) as Hr.
  pose proof (validators_pos stakes Hd) as Hv.
  assert (Q : forall P W, 0 <= P -> 0 < W -> 0 <= P / W).
  { intros P W H0 HW. apply Rmult_le_pos; [assumption|].
    left. now apply Rinv_0_lt_compat. }
  split.
  - intros name. pose proof (He name) as Hn.
    destruct name as [|[]]; cbn [earnings distribute e_Baseline e_StakePool
                                 e_EqualPool e_RootStakePool] in *.
    + assumption.
    + apply (Forall_zip_with _ (fun k => (1 <= k)%Z)); [|assumption|apply Hd].
      intros e k H0 Hk. cbn [s_add s_mul s_div s_of_Z exact].
      apply IZR_le in Hk. specialize (Q _ _ (Hp StakePool) Hs).
      cbn [pool_balances] in Q. nra.
    + apply Forall_map. eapply Forall_impl; [|exact Hn].
      intros e H0. cbn [s_add s_div s_of_Z exact] in *.
      specialize (Q _ _ (Hp EqualPool) Hv). cbn [pool_balances] in Q. lra.
    + apply (Forall_zip_with _ (fun w => 0 <= w)); [|assumption|].
      * intros e w H0 Hw. cbn [s_add s_mul s_div exact].
        specialize (Q _ _ (Hp RootStakePool) Hr). cbn [pool_balances] in Q. nra.
      * unfold root_weights. apply Forall_map, Forall_forall.
        intros k _. cbn [s_sqrt exact]. apply sqrt_pos.
  - intros p. destruct p; cbn; lra.
Qed.

Lemma main_loop_nowhere_negative (stakes : list Z) (EPOCH_SIZE : Z)
      (threshold : R) (blocks : list (nat * R)) :
  stakes_drawn stakes -> EPOCH_SIZE <> 0%Z -> 0 <= threshold ->
  Forall (fun blk => (fst blk < NUM_VALIDATORS stakes)%nat /\ 0 <= snd blk)
         blocks ->
  forall (b : Z) (s : state R),
    nowhere_negative s ->
    exists s', main_loop stakes EPOCH_SIZE threshold b blocks s = Done s'
               /\ nowhere_negative s'.
Proof.
  intros Hd HE Ht. induction 1 as [|blk blocks [Hb Hm] _ IH]; intros b s Hs.
  - exists s. auto.
  - cbn [main_loop]. rewrite step_done by assumption.
    apply IH. unfold after_block, accounted.
    pose proof (account_nowhere_negative (fst blk) threshold (snd blk) s Ht Hm Hs).
    destruct (_ =? _)%Z; [now apply distribute_nowhere_negative | assumption].
Qed.

End RunsExact.

(** X15. In exact arithmetic, when all validators have the same stake, the
    three pooled scenarios end with identical ledgers: stake-proportional,
    equal and root-stake-proportional distribution coincide. *)
Theorem equal_stakes_pooled_coincide :
  forall (k : Z) (n : nat) (EPOCH_SIZE : Z) (blocks : list (nat * R)),
    (1 <= k)%Z ->
    (0 < n)%nat ->
    EPOCH_SIZE <> 0%Z ->
    Forall (fun blk => (fst blk < n)%nat) blocks ->
    exists s,
      run (repeat k n) EPOCH_SIZE blocks = Done s
      /\ earnings s (Pooled StakePool) = earnings s (Pooled EqualPool)
      /\ earnings s (Pooled EqualPool) = earnings s (Pooled RootStakePool).
Proof.
  intros k n E blocks Hk Hn HE Hall. unfold run.
  apply main_loop_equal_stakes; try assumption; try reflexivity.
  - eapply Forall_impl; [|exact Hall]. intros blk Hb. cbn beta.
    unfold NUM_VALIDATORS. now rewrite repeat_length.
  - apply initial_well_formed.
  - now split.
Qed.

Lemma equal_stakes_pooled_coincide_witness :
  exists s : state R,
    run (repeat 1%Z 3) 2 [(0%nat, 10%R); (2%nat, 20%R)] = Done s
    /\ earnings s (Pooled StakePool) = earnings s (Pooled EqualPool)
    /\ earnings s (Pooled EqualPool) = earnings s (Pooled RootStakePool).
Proof.
  apply (equal_stakes_pooled_coincide 1 3 2 [(0%nat, 10%R); (2%nat, 20%R)]).
  - lia.
  - lia.
  - discriminate.
  - repeat constructor; cbn; lia.
Defined.

(** X16. In exact arithmetic, when no block value is negative, no validator
    ends with negative earnings in any scenario and no pool is negative (so
    [gini] never has to move a ledger of the simulation up). *)
Theorem earnings_never_negative :
  forall (stakes : list Z) (EPOCH_SIZE : Z) (blocks : list (nat * R)),
    stakes_drawn stakes ->
    EPOCH_SIZE <> 0%Z ->
    Forall (fun blk => (fst blk < NUM_VALIDATORS stakes)%nat /\ (0 <= snd blk)%R)
           blocks ->
    exists s,
      run stakes EPOCH_SIZE blocks = Done s
      /\ (forall name, Forall (fun e => (0 <= e)%R) (earnings s name))
      /\ (forall p, (0 <= pool_balances s p)%R).
Proof.
  intros stakes E blocks Hd HE Hall. unfold run.
  destruct blocks as [|blk rest].
  - exists (initial stakes). split; [reflexivity|]. split.
    + intros [|[]]; cbn; apply Forall_forall; intros e He;
        apply repeat_spec in He; subst; cbn; lra.
    + intros []; cbn; lra.
  - assert (Ht : (0 <= threshold_of (blk :: rest))%R).
    { unfold threshold_of. apply median_at_least; [discriminate|].
      apply Forall_map. eapply Forall_impl; [|exact Hall]. now intros ? [_ ?]. }
    destruct (main_loop_nowhere_negative stakes E (threshold_of (blk :: rest))
                (blk :: rest) Hd HE Ht Hall 0%Z (initial stakes))
      as (s & Es & Hs).
    + split.
      * intros [|[]]; cbn; apply Forall_forall; intros e He;
          apply repeat_spec in He; subst; cbn; lra.
      * intros []; cbn; lra.
    + exists s. split; [exact Es | exact Hs].
Qed.

Lemma earnings_never_negative_witness :
  exists s : state R,
    run [1; 2; 3]%Z 2 [(0%nat, 10%R); (2%nat, 20%R); (1%nat, 30%R)] = Done s
    /\ (forall name, Forall (fun e => (0 <= e)%R) (earnings s name))
    /\ (forall p, (0 <= pool_balances s p)%R).
Proof.
  apply (earnings_never_negative [1; 2; 3]%Z 2).
  - split; [discriminate|]. repeat constructor; lia.
  - discriminate.
  - repeat constructor; cbn; lia || lra.
Defined.

(** ** The summary table and the top five in exact arithmetic *)

Section ReportExact.
Local Open Scope R_scope.

Lemma summary_loop_rows {T : Type} `{Scalar T} (s : state T)
      (names : list scenario) (rows : list (summary_row T)) :
  summary_loop names s = Some rows ->
  Forall (fun row => Mean row = mean (earnings s (Scenario row))
                     /\ Std_Dev row = std (earnings s (Scenario row))
                     /\ gini (earnings s (Scenario row)) = Some (Gini row))
         rows.
Proof.
  revert rows. induction names as [|name names IH]; intros rows E;
    cbn [summary_loop] in E.
  - injection E as <-. constructor.
  - destruct (gini (earnings s name)) as [g|] eqn:Eg; [|discriminate].
    destruct (summary_loop names s) as [rest|]; [|discriminate].
    cbn [option_map] in E. injection E as <-.
    constructor; [cbn [Mean Std_Dev Gini Scenario]; auto | now apply IH].
Qed.

Lemma initial_holdings (stakes : list Z) (p : pooled) :
  holdings (initial stakes) p = 0.
Proof.
  unfold holdings.
  destruct p; cbn [earnings pool_balances initial e_StakePool e_EqualPool
                   e_RootStakePool p_StakePool p_EqualPool p_RootStakePool];
    rewrite sum_repeat; cbn; lra.
Qed.

Lemma initial_baseline (stakes : list Z) :
  sum (earnings (initial (T:=R) stakes) Baseline) = 0.
Proof.
  cbn [earnings initial e_Baseline]. rewrite sum_repeat. cbn. lra.
Qed.

(** Ledger totals at the end of a run. *)
Lemma run_totals (stakes : list Z) (EPOCH_SIZE : Z) (blocks : list (nat * R)) :
  stakes_drawn stakes -> (0 < EPOCH_SIZE)%Z ->
  Forall (fun blk => (fst blk < NUM_VALIDATORS stakes)%nat) blocks ->
  exists s, run stakes EPOCH_SIZE blocks = Done s
            /\ well_formed stakes s
            /\ sum (earnings s Baseline) = sum (map snd blocks)
            /\ forall p, sum (earnings s (Pooled p))
                         = sum (map snd blocks)
                           - residual EPOCH_SIZE (threshold_of blocks) blocks.
Proof.
  intros Hd HE Hall. unfold run.
  destruct (main_loop_conserves stakes EPOCH_SIZE (threshold_of blocks) blocks Hd
              ltac:(lia) Hall 0%Z (initial stakes) (initial_well_formed stakes))
    as (s & Es & W & Hh & Hb).
  destruct (main_loop_residual stakes EPOCH_SIZE HE (threshold_of blocks) blocks
              Hall) as (s' & Es' & _ & Hr).
  rewrite Es in Es'. injection Es' as <-.
  exists s. split; [exact Es|]. split; [exact W|]. split.
  - rewrite Hb, initial_baseline. lra.
  - intros p. specialize (Hh p). rewrite initial_holdings in Hh.
    unfold holdings in Hh. rewrite (Hr p) in Hh. lra.
Qed.

Variable arr : list R.

Lemma insert_index_perm (i : nat) (l : list nat) :
  Permutation (i :: l) (insert_index arr i l).
Proof.
  induction l as [|j l IH]; cbn [insert_index].
  - reflexivity.
  - destruct (sort_lt _ _).
    + rewrite perm_swap. now constructor.
    + reflexivity.
Qed.

Lemma insert_index_sorted (i : nat) (l : list nat) :
  StronglySorted (fun a b => nth a arr 0 <= nth b arr 0) l ->
  StronglySorted (fun a b => nth a arr 0 <= nth b arr 0) (insert_index arr i l).
Proof.
  induction 1 as [|j l Hs IH Hj]; cbn [insert_index].
  - repeat constructor.
  - rewrite sort_lt_exact. change (@s_zero R exact) with 0.
    destruct (Rltb (nth j arr 0) (nth i arr 0)) eqn:E.
    + apply Rltb_true in E. constructor; [assumption|].
      rewrite <- insert_index_perm. constructor; [lra | assumption].
    + apply Rltb_false in E. constructor.
      * now constructor.
      * constructor; [assumption|].
        eapply Forall_impl; [|exact Hj]. intros; cbn in *; lra.
Qed.

Lemma argsort_perm : Permutation (seq 0 (length arr)) (argsort arr).
Proof.
  unfold argsort. induction (seq 0 (length arr)) as [|i l IH]; cbn [fold_right].
  - reflexivity.
  - rewrite <- insert_index_perm. now constructor.
Qed.

Lemma argsort_sorted :
  StronglySorted (fun a b => nth a arr 0 <= nth b arr 0) (argsort arr).
Proof.
  unfold argsort. induction (seq 0 (length arr)) as [|i l IH]; cbn [fold_right].
  - constructor.
  - now apply insert_index_sorted.
Qed.

Lemma nth_negative (i : nat) : nth i (negative arr) 0 = 0 - nth i arr 0.
Proof.
  unfold negative. revert i. induction arr as [|a l IH]; intros [|i];
    cbn [map nth s_sub s_zero exact]; try lra. apply IH.
Qed.

Lemma negative_length : length (negative arr) = length arr.
Proof. apply length_map. Qed.

End ReportExact.

Section SortedLists.
Context {A : Type} (rel : A -> A -> Prop).

Lemma StronglySorted_app_inv (l1 l2 : list A) :
  StronglySorted rel (l1 ++ l2) ->
  StronglySorted rel l1
  /\ forall a b, In a l1 -> In b l2 -> rel a b.
Proof.
  induction l1 as [|x l1 IH]; cbn [app]; intros Hs.
  - split; [constructor | intros a b []].
  - apply StronglySorted_inv in Hs as [Hs Hx].
    destruct (IH Hs) as [H1 H2]. split.
    + constructor; [assumption|]. apply Forall_app in Hx. tauto.
    + intros a b [<-|Ha] Hb.
      * rewrite Forall_forall in Hx. apply Hx, in_or_app. now right.
      * now apply H2.
Qed.

Lemma StronglySorted_map {B : Type} (f : B -> A) (l : list B) :
  StronglySorted (fun a b => rel (f a) (f b)) l -> StronglySorted rel (map f l).
Proof.
  induction 1 as [|x l Hs IH Hx]; cbn [map]; constructor; [assumption|].
  now apply Forall_map.
Qed.

End SortedLists.

Lemma StronglySorted_weaken {A : Type} (r1 r2 : A -> A -> Prop) (l : list A) :
  (forall a b, r1 a b -> r2 a b) -> StronglySorted r1 l -> StronglySorted r2 l.
Proof.
  intros Hr. induction 1 as [|x l Hs IH Hx]; constructor; [assumption|].
  eapply Forall_impl; [|exact Hx]. intros b. apply Hr.
Qed.

(** X17. In exact arithmetic the [Mean] column of the summary table is the
    total MEV per validator for Baseline and, for each pooled scenario, the
    total MEV less what remains in the pool (the surplus of the final,
    incomplete epoch) per validator: the three pooled means are equal, and
    they fall short of the Baseline mean by exactly the undistributed pool. *)
Theorem summary_means :
  forall (stakes : list Z) (EPOCH_SIZE : Z) (blocks : list (nat * R)),
    stakes_drawn stakes ->
    (0 < EPOCH_SIZE)%Z ->
    Forall (fun blk => (fst blk < NUM_VALIDATORS stakes)%nat) blocks ->
    exists s rows,
      run stakes EPOCH_SIZE blocks = Done s
      /\ summary_rows s = Some rows
      /\ map Scenario rows = scenarios
      /\ forall row, In row rows ->
           Mean row
           = ((sum (map snd blocks)
               - match Scenario row with
                 | Baseline => 0
                 | Pooled _ => residual EPOCH_SIZE (threshold_of blocks) blocks
                 end)
              / INR (NUM_VALIDATORS stakes))%R.
Proof.
  intros stakes E blocks Hd HE Hall.
  destruct (run_totals stakes E blocks Hd HE Hall) as (s & Es & W & Hb & Hp).
  destruct (summary_loop_defined stakes s scenarios (proj1 Hd) W)
    as (rows & Er & Hn).
  exists s, rows. repeat split; try assumption.
  intros row Hin. pose proof (summary_loop_rows s scenarios rows Er) as Hrows.
  rewrite Forall_forall in Hrows. destruct (Hrows row Hin) as (-> & _).
  rewrite mean_exact, (W (Scenario row)).
  destruct (Scenario row) as [|p].
  - rewrite Hb. now rewrite Rminus_0_r.
  - now rewrite Hp.
Qed.

Lemma summary_means_witness :
  exists (s : state R) rows,
    run [1; 2; 3]%Z 2 [(0%nat, 10%R); (2%nat, 20%R); (1%nat, 30%R)] = Done s
    /\ summary_rows s = Some rows
    /\ map Scenario rows = scenarios
    /\ forall row, In row rows ->
         Mean row
         = ((sum [10; 20; 30]
             - match Scenario row with
               | Baseline => 0
               | Pooled _ =>
                   residual 2 (threshold_of [(0%nat, 10%R); (2%nat, 20%R); (1%nat, 30%R)])
                            [(0%nat, 10%R); (2%nat, 20%R); (1%nat, 30%R)]
               end)
            / INR 3)%R.
Proof.
  apply (summary_means [1; 2; 3]%Z 2
           [(0%nat, 10%R); (2%nat, 20%R); (1%nat, 30%R)]).
  - split; [discriminate|]. repeat constructor; lia.
  - lia.
  - repeat constructor; cbn; lia.
Defined.

(** X18. In exact arithmetic the top-five table lists min(5, V) distinct
    validators, all of them real indices, in order of non-increasing
    Baseline earnings, and no validator left out of it earned more under
    Baseline than one listed. *)
Theorem top_five_are_the_highest :
  forall s : state R,
    length (Validator (top_df s)) = Nat.min 5 (length (e_Baseline s))
    /\ NoDup (Validator (top_df s))
    /\ (forall v, In v (Validator (top_df s)) -> (v < length (e_Baseline s))%nat)
    /\ StronglySorted Rge (top_Baseline (top_df s))
    /\ (forall v t,
           (v < length (e_Baseline s))%nat ->
           ~ In v (Validator (top_df s)) ->
           In t (Validator (top_df s)) ->
           (nth v (e_Baseline s) 0 <= nth t (e_Baseline s) 0)%R).
Proof.
  intros s. cbn [Validator top_Baseline top_df]. unfold baseline_top.
  set (e := e_Baseline s). set (idx := argsort (negative e)).
  pose proof (argsort_perm (negative e)) as Hperm. fold idx in Hperm.
  rewrite negative_length in Hperm.
  pose proof (argsort_sorted (negative e)) as Hsort. fold idx in Hsort.
  assert (Hlen : length idx = length e).
  { rewrite <- (Permutation_length Hperm). apply length_seq. }
  assert (Hnd : NoDup idx).
  { eapply Permutation_NoDup; [exact Hperm | apply seq_NoDup]. }
  rewrite <- (firstn_skipn 5 idx) in Hsort, Hnd.
  apply StronglySorted_app_inv in Hsort as [Hs1 Hs2].
  split; [|split; [|split; [|split]]].
  - rewrite length_firstn, Hlen. reflexivity.
  - now apply NoDup_app_remove_r in Hnd.
  - intros v Hv.
    assert (Hvi : In v idx).
    { rewrite <- (firstn_skipn 5 idx). apply in_or_app. now left. }
    apply (Permutation_in _ (Permutation_sym Hperm)) in Hvi.
    rename Hvi into Hv'. clear Hv. rename Hv' into Hv.
    apply in_seq in Hv. lia.
  - unfold take. apply StronglySorted_map.
    eapply StronglySorted_weaken; [|exact Hs1].
    intros a b Hab. cbn beta in Hab. rewrite !nth_negative in Hab.
    change (@s_zero R exact) with 0%R. lra.
  - intros v t Hv Hout Hin.
    assert (Hvi : In v idx).
    { apply (Permutation_in _ Hperm), in_seq. lia. }
    rewrite <- (firstn_skipn 5 idx) in Hvi. apply in_app_or in Hvi.
    destruct Hvi as [Hvi|Hvi]; [contradiction|].
    specialize (Hs2 t v Hin Hvi). rewrite !nth_negative in Hs2. lra.
Qed.

(** X19. In exact arithmetic, at an epoch boundary with no pool negative, a
    validator with a larger stake never receives less than one with a
    smaller stake, under the stake-proportional and the root-stake
    distribution alike, and the equal distribution gives both the same. *)
Theorem larger_stake_never_smaller_share :
  forall (stakes : list Z) (s : state R) (v w : nat),
    stakes_drawn stakes ->
    well_formed stakes s ->
    (forall p, (0 <= pool_balances s p)%R) ->
    (v < NUM_VALIDATORS stakes)%nat ->
    (w < NUM_VALIDATORS stakes)%nat ->
    (nth v stakes 0 <= nth w stakes 0)%Z ->
    (forall p,
        (nth v (earnings (distribute stakes s) (Pooled p)) 0
         - nth v (earnings s (Pooled p)) 0
         <= nth w (earnings (distribute stakes s) (Pooled p)) 0
            - nth w (earnings s (Pooled p)) 0)%R)
    /\ (nth v (earnings (distribute stakes s) (Pooled EqualPool)) 0
        - nth v (earnings s (Pooled EqualPool)) 0
        = nth w (earnings (distribute stakes s) (Pooled EqualPool)) 0
          - nth w (earnings s (Pooled EqualPool)) 0)%R.
Proof.
  intros stakes s v w Hd W Hp Hv Hw Hvw.
  pose proof (total_stake_pos stakes Hd) as Hs.
  pose proof (total_root_weight_pos stakes Hd) as Hr.
  pose proof (validators_pos stakes Hd) as Hn.
  assert (Q : forall P D : R, (0 <= P)%R -> (0 < D)%R -> (0 <= P / D)%R).
  { intros P D H0 HD. apply Rmult_le_pos; [assumption|].
    left. now apply Rinv_0_lt_compat. }
  assert (Hk : forall i, (i < NUM_VALIDATORS stakes)%nat -> (1 <= nth i stakes 0)%Z).
  { intros i Hi. destruct Hd as [_ Hall]. rewrite Forall_forall in Hall.
    apply Hall, nth_In. exact Hi. }
  pose proof (W (Pooled StakePool)) as Ws.
  pose proof (W (Pooled EqualPool)) as We.
  pose proof (W (Pooled RootStakePool)) as Wr.
  cbn [earnings] in Ws, We, Wr.
  assert (Eq : forall i, (i < NUM_VALIDATORS stakes)%nat ->
             nth i (e_EqualPool (distribute stakes s)) 0%R
             = (nth i (e_EqualPool s) 0
                + p_EqualPool s / IZR (Z.of_nat (NUM_VALIDATORS stakes)))%R).
  { intros i Hi. cbn [distribute e_EqualPool].
    rewrite (nth_map_in _ _ _ 0%R) by lia. reflexivity. }
  split.
  - intros [| |]; cbn [earnings].
    + cbn [distribute e_StakePool].
      rewrite !(nth_zip_with _ _ _ _ 0%R 0%Z) by (assumption || lia).
      cbn [s_add s_mul s_div s_of_Z exact].
      specialize (Q _ _ (Hp StakePool) Hs). cbn [pool_balances] in Q.
      apply IZR_le in Hvw. nra.
    + rewrite !Eq by assumption. lra.
    + cbn [distribute e_RootStakePool].
      rewrite !(nth_zip_with _ _ _ _ 0%R (s_sqrt (s_of_Z 0%Z)))
        by (rewrite ?root_weights_length; assumption || lia).
      unfold root_weights.
      rewrite !(map_nth (fun k => s_sqrt (s_of_Z k)) stakes 0%Z).
      cbn [s_add s_mul s_div s_sqrt s_of_Z exact].
      specialize (Q _ _ (Hp RootStakePool) Hr). cbn [pool_balances] in Q.
      assert (Hsq : (R_sqrt.sqrt (IZR (nth v stakes 0%Z))
                     <= R_sqrt.sqrt (IZR (nth w stakes 0%Z)))%R).
      { apply sqrt_le_1_alt. now apply IZR_le. }
      nra.
  - cbn [earnings]. rewrite !Eq by assumption. lra.
Qed.

Lemma larger_stake_never_smaller_share_witness :
  (forall p,
      (nth 0 (earnings (distribute [1; 2; 3]%Z
                          (accounted 5%R (0%nat, 10%R) (initial [1; 2; 3]%Z)))
                       (Pooled p)) 0
       - nth 0 (earnings (accounted 5%R (0%nat, 10%R) (initial [1; 2; 3]%Z))
                         (Pooled p)) 0
       <= nth 2 (earnings (distribute [1; 2; 3]%Z
                             (accounted 5%R (0%nat, 10%R) (initial [1; 2; 3]%Z)))
                          (Pooled p)) 0
          - nth 2 (earnings (accounted 5%R (0%nat, 10%R) (initial [1; 2; 3]%Z))
                            (Pooled p)) 0)%R)
  /\ (nth 0 (earnings (distribute [1; 2; 3]%Z
                         (accounted 5%R (0%nat, 10%R) (initial [1; 2; 3]%Z)))
                      (Pooled EqualPool)) 0
      - nth 0 (earnings (accounted 5%R (0%nat, 10%R) (initial [1; 2; 3]%Z))
                        (Pooled EqualPool)) 0
      = nth 2 (earnings (distribute [1; 2; 3]%Z
                           (accounted 5%R (0%nat, 10%R) (initial [1; 2; 3]%Z)))
                        (Pooled EqualPool)) 0
        - nth 2 (earnings (accounted 5%R (0%nat, 10%R) (initial [1; 2; 3]%Z))
                          (Pooled EqualPool)) 0)%R.
Proof.
  apply (larger_stake_never_smaller_share [1; 2; 3]%Z
           (accounted 5%R (0%nat, 10%R) (initial [1; 2; 3]%Z)) 0 2).
  - split; [discriminate|]. repeat constructor; lia.
  - apply account_well_formed, initial_well_formed.
  - intros p. unfold accounted.
    assert (Hs : (0 <= surplus_of 5 10)%R).
    { unfold surplus_of, py_max. cbn [s_zero s_sub s_ltb exact].
      destruct (Rltb 0 (10 - 5)) eqn:E; [lra|].
      apply Rltb_false in E. lra. }
    destruct p; cbn [pool_balances account initial fst snd p_StakePool
                     p_EqualPool p_RootStakePool s_add s_zero exact]; lra.
  - cbn; lia.
  - cbn; lia.
  - cbn; lia.
Defined.

(** ** When the Gini coefficient vanishes *)

Section GiniZero.
Local Open Scope R_scope.

Lemma sum_at_bound (a : R) (l : list R) :
  Forall (fun y => a <= y) l -> sum l = INR (length l) * a ->
  Forall (fun y => y = a) l.
Proof.
  induction 1 as [|y l Hy Hl IH]; intros Hs; [constructor|].
  cbn [length] in Hs. rewrite S_INR, sum_cons in Hs.
  pose proof (sum_ge_bound _ _ Hl).
  constructor; [lra | apply IH; lra].
Qed.

Lemma gap_zero (l : list R) :
  StronglySorted Rle l ->
  (INR (length l) + 1) * sum l - 2 * ramp l = 0 ->
  exists a, Forall (fun y => y = a) l.
Proof.
  induction 1 as [|a l Hs IH Ha]; intros Hz.
  - exists 0. constructor.
  - exists a. cbn [length] in Hz. rewrite S_INR, sum_cons, ramp_cons in Hz.
    pose proof (sum_ge_bound _ _ Ha) as Hb.
    pose proof (gap_nonneg _ Hs) as Hg.
    constructor; [reflexivity|]. apply sum_at_bound; [assumption | nra].
Qed.

Lemma lifted_all_equal (e lo : R) (arr : list R) (a : R) :
  Forall (fun y => y = a) (lifted e arr lo) ->
  exists x, Forall (fun y => y = x) arr.
Proof.
  unfold lifted. intros Hl. apply Forall_map in Hl.
  destruct (Rltb lo 0).
  - apply Forall_map in Hl. exists (a - e + lo).
    eapply Forall_impl; [|exact Hl]. intros y Hy. cbn beta in Hy. lra.
  - exists (a - e). eapply Forall_impl; [|exact Hl].
    intros y Hy. cbn beta in Hy. lra.
Qed.

Lemma gini_zero_equal (arr : list R) :
  arr <> [] -> gini arr = Some 0 -> exists x, Forall (fun y => y = x) arr.
Proof.
  intros Hne Hg. destruct arr as [|x0 l]; [congruence|].
  destruct (amin_some x0 l) as [lo Hlo].
  unfold gini in Hg. rewrite (gini_shift_value _ _ _ Hlo) in Hg.
  set (arr := x0 :: l) in *.
  set (L := lifted s_1e_9 arr lo) in *.
  assert (He : 0 < s_1e_9) by (cbn; lra).
  pose proof (lifted_positive s_1e_9 arr lo He Hlo) as Hpos. fold L in Hpos.
  pose proof (sort_perm L) as HP.
  pose proof (sort_sorted L) as HS.
  assert (Hlen : length (sort L) = length arr)
    by (rewrite sort_length; apply lifted_length).
  assert (Hn : 1 <= INR (length arr)).
  { unfold arr. cbn [length]. rewrite S_INR. pose proof (pos_INR (length l)). lra. }
  assert (Hsum : 0 < sum L).
  { destruct L as [|y t] eqn:EL.
    - apply (f_equal (@length R)) in EL. unfold L in EL.
      rewrite lifted_length in EL. discriminate.
    - rewrite sum_cons. inversion Hpos as [|? ? Hy Ht]; subst.
      assert (0 <= sum t).
      { apply sum_nonneg. eapply Forall_impl; [|exact Ht]. intros; cbn in *; lra. }
      lra. }
  rewrite plus_IZR, <- !INR_IZR_INZ in Hg.
  apply (f_equal (fun o => match o with Some v => v | None => 0 end)) in Hg.
  cbv beta iota in Hg.
  set (n := INR (length arr)) in *.
  set (q := ramp (sort L) / sum L).
  assert (Eq : ramp (sort L) = q * sum L) by (unfold q; field; lra).
  replace (2 * ramp (sort L) / sum L) with (2 * q) in Hg
    by (unfold q; field; lra).
  assert (Hq : n + 1 - 2 * q = 0).
  { apply (Rmult_eq_compat_r n) in Hg.
    replace ((n + 1 - 2 * q) / n * n) with (n + 1 - 2 * q) in Hg by (field; lra).
    lra. }
  destruct (gap_zero (sort L) HS) as [a Ha].
  { rewrite Hlen, <- (sum_perm _ _ HP). fold n. rewrite Eq. nra. }
  apply (lifted_all_equal s_1e_9 lo arr a). fold L.
  eapply Permutation_Forall; [apply Permutation_sym, HP | exact Ha].
Qed.

End GiniZero.

(** X20. In exact arithmetic [gini] returns 0 exactly when all entries of
    the array are equal: a ledger with any two different entries has a
    strictly positive coefficient. *)
Theorem gini_zero_iff_equal :
  forall arr : list R,
    arr <> [] ->
    (gini arr = Some 0%R <-> exists x, Forall (fun y => y = x) arr).
Proof.
  intros arr Hne. split.
  - now apply gini_zero_equal.
  - intros Hx. destruct (gini_exact_bounds_lemma arr Hne) as (g & E & _ & Hz).
    rewrite E. f_equal. now apply Hz.
Qed.

Lemma gini_zero_iff_equal_witness :
  gini [3; 3; 3]%R = Some 0%R <-> exists x, Forall (fun y => y = x) [3; 3; 3]%R.
Proof.
  apply (gini_zero_iff_equal [3; 3; 3]%R). discriminate.
Defined.
